(** * Feed-forward classifier notebooks: model, training loop and checkpoints

    A shallow embedding of the code cells of
    [deep_learning_with_pytorch/part_4_fashion_mnist.ipynb] and
    [deep_learning_with_pytorch/part_6_saving_and_loading_modules.ipynb]
    (the latter also carries the "Training Neural Networks" notebook).

    Conventions.
    - Tensor entries are real numbers ([R]): floating-point rounding is not
      modelled, every arithmetic operation is the exact one.  The range of
      float32 is not modelled either: there is no [inf] and no [nan], a sum
      or product never overflows and an exponential never underflows to
      zero.  Where the code would return [nan] from [0/0] the model returns
      [inl NotANumber].
    - A Python exception is a value of [Exception]; code that can raise
      returns [Result A].
    - Random draws (parameter initialisation, the loader's shuffle, dropout
      masks) are explicit arguments.
    - The autodiff engine is an argument of the training loop: a function
      giving, for the current parameter values and a batch, the gradient of
      the batch loss with respect to every parameter. *)

From Stdlib Require Import String Ascii.
From Stdlib Require Import List Bool Arith ZArith Lia.
From Stdlib Require Import Reals Lra.
From Stdlib Require Import DecimalString DecimalNat.
From Stdlib Require Import Permutation.
Import ListNotations.

(* ================================================================== *)
(** ** Exceptions and the error monad *)

(** One message of the [RuntimeError] that [load_state_dict] raises. *)
Inductive LoadMsg :=
| SizeMismatch (name : string) (in_model in_checkpoint : list nat)
| MissingKeys (names : list string)
| UnexpectedKeys (names : list string).

Inductive Exception :=
| InvalidArchitecture                      (* bad constructor dimensions *)
| DimensionMismatch                        (* forward-pass shape error *)
| LoadStateDictError (msgs : list LoadMsg) (* RuntimeError of load_state_dict *)
| NotFound (path : string)                 (* torch.load on a missing file *)
| KeyError (key : string)
| NameError (name : string)                (* a variable that is not bound *)
| TypeError
| IndexError
| ZeroDivisionError
| NotANumber.                              (* not raised: the float result nan *)

Definition Result (A : Type) : Type := (Exception + A)%type.

Definition ret {A} (a : A) : Result A := inr a.
Definition raise {A} (e : Exception) : Result A := inl e.
Definition bind {A B} (r : Result A) (k : A -> Result B) : Result B :=
  match r with
  | inl e => inl e
  | inr a => k a
  end.

Notation "x <- r ;; k" := (bind r (fun x => k))
  (at level 61, r at next level, right associativity).

(** The spec's [ArchitectureMismatch]: the load error reports a stored
    parameter whose shape differs from the model's. *)
Definition is_size_mismatch (m : LoadMsg) : bool :=
  match m with
  | SizeMismatch _ _ _ => true
  | _ => false
  end.

Definition ArchitectureMismatch (e : Exception) : bool :=
  match e with
  | LoadStateDictError msgs => existsb is_size_mismatch msgs
  | _ => false
  end.

(* ================================================================== *)
(** ** Tensors *)

Definition vector := list R.
Definition matrix := list vector.

Inductive Tensor :=
| Vec (v : vector)
| Mat (m : matrix).

Definition ncols (m : matrix) : nat := length (hd [] m).

(** [t.size()] *)
Definition size (t : Tensor) : list nat :=
  match t with
  | Vec v => [length v]
  | Mat m => [length m; ncols m]
  end.

(** A batch (or any 2-D tensor) of shape [[B, D]]. *)
Definition has_shape (x : matrix) (B D : nat) : bool :=
  (length x =? B) && forallb (fun r => length r =? D) x.

Fixpoint zip_with {A B C} (f : A -> B -> C) (l : list A) (l' : list B) : list C :=
  match l, l' with
  | a :: t, b :: t' => f a b :: zip_with f t t'
  | _, _ => []
  end.

Definition rsum (v : vector) : R := fold_right Rplus 0%R v.

Definition dot (x w : vector) : R := rsum (zip_with Rmult x w).

Definition tmap (f : R -> R) (t : Tensor) : Tensor :=
  match t with
  | Vec v => Vec (map f v)
  | Mat m => Mat (map (map f) m)
  end.

Definition tmap2 (f : R -> R -> R) (t u : Tensor) : Tensor :=
  match t, u with
  | Vec v, Vec w => Vec (zip_with f v w)
  | Mat m, Mat n => Mat (zip_with (zip_with f) m n)
  | _, _ => t
  end.

(** Entry [(i, j)] of a tensor; a vector has only [i]. *)
Definition entry (t : Tensor) (i j : nat) : R :=
  match t with
  | Vec v => nth i v 0%R
  | Mat m => nth j (nth i m []) 0%R
  end.

(** Is [(i, j)] an index of [t]? *)
Definition in_range (t : Tensor) (i j : nat) : bool :=
  match t with
  | Vec v => (i <? length v) && (j =? 0)
  | Mat m => (i <? length m) && (j <? length (nth i m []))
  end.

(** Two tensors of the same rank and the same sizes, row by row. *)
Fixpoint same_rows (m n : matrix) : bool :=
  match m, n with
  | [], [] => true
  | r :: m', s :: n' => (length r =? length s) && same_rows m' n'
  | _, _ => false
  end.

Definition same_shape (t u : Tensor) : bool :=
  match t, u with
  | Vec v, Vec w => length v =? length w
  | Mat m, Mat n => same_rows m n
  | _, _ => false
  end.

(** The transpose of a matrix with [n] columns. *)
Fixpoint transpose (n : nat) (m : matrix) : matrix :=
  match m with
  | [] => repeat [] n
  | r :: rs => zip_with cons r (transpose n rs)
  end.

(** The keys of a module's two parameters. *)
Definition weight_key (prefix : string) : string := (prefix ++ ".weight")%string.
Definition bias_key (prefix : string) : string := (prefix ++ ".bias")%string.

(* ================================================================== *)
(** ** torch.nn: Linear, ReLU, LogSoftmax, Sequential, NLLLoss *)

Module nn.

(** A torch [Parameter]: its values and the gradient the autodiff engine has
    accumulated ([None] before the first backward pass). *)
Record Param := mkParam {
  data : Tensor;
  grad : option Tensor
}.

Record Linear := mkLinear {
  in_features : nat;
  out_features : nat;
  weight : Param;   (* shape [out_features, in_features] *)
  bias : Param      (* shape [out_features] *)
}.

(** The random draw of an initialiser: the value of entry [(i, j)] of the
    parameter with the given label. *)
Definition Init := string -> nat -> nat -> R.

(** A tensor of the given size filled from a draw. *)
Definition rand_matrix (f : nat -> nat -> R) (rows cols : nat) : matrix :=
  map (fun i => map (fun j => f i j) (seq 0 cols)) (seq 0 rows).

Definition rand_vector (f : nat -> nat -> R) (n : nat) : vector :=
  map (fun i => f i 0) (seq 0 n).

(** [nn.Linear(in_features, out_features)]; [name] labels the draws. *)
Definition new_Linear (init : Init) (name : string) (n_in n_out : nat) : Linear :=
  {| in_features := n_in;
     out_features := n_out;
     weight := {| data := Mat (rand_matrix (init (weight_key name)) n_out n_in);
                  grad := None |};
     bias := {| data := Vec (rand_vector (init (bias_key name)) n_out);
                grad := None |} |}.

(** [x W^T + b] for one example. *)
Definition affine (w : matrix) (b : vector) (x : vector) : vector :=
  zip_with (fun wr bj => (dot x wr + bj)%R) w b.

(** [Linear.forward]: a batch whose width is not the weight's raises. *)
Definition linear (l : Linear) (x : matrix) : Result matrix :=
  match data (weight l), data (bias l) with
  | Mat w, Vec b =>
      if forallb (fun r => length r =? ncols w) x
      then ret (map (affine w b) x)
      else raise DimensionMismatch
  | _, _ => raise DimensionMismatch
  end.

(** [nn.ReLU]: elementwise [max(0, x)]. *)
Definition relu (x : matrix) : matrix := map (map (Rmax 0)) x.

(** Log-softmax of one row: [x_i - log (sum_j exp x_j)], in exact
    arithmetic.  (In float32 a row with an entry that has overflowed to
    [inf] comes out as [nan]; the model has no such rows.) *)
Definition log_softmax_row (r : vector) : vector :=
  let lse := ln (rsum (map exp r)) in
  map (fun v => (v - lse)%R) r.

(** [nn.LogSoftmax(dim)] on a 2-D tensor: [dim = 1] normalises each row,
    [dim = 0] each column. *)
Definition log_softmax (dim : nat) (x : matrix) : Result matrix :=
  match dim with
  | 1 => ret (map log_softmax_row x)
  | 0 => ret (transpose (length x) (map log_softmax_row (transpose (ncols x) x)))
  | _ => raise IndexError
  end.

Inductive Module :=
| MLinear (l : Linear)
| ReLU
| LogSoftmax (dim : nat).

(** [nn.Sequential(...)] *)
Definition Sequential := list Module.

Definition apply_module (m : Module) (x : matrix) : Result matrix :=
  match m with
  | MLinear l => linear l x
  | ReLU => ret (relu x)
  | LogSoftmax dim => log_softmax dim x
  end.

(** [model.forward(x)] of a [Sequential]. *)
Fixpoint forward (model : Sequential) (x : matrix) : Result matrix :=
  match model with
  | [] => ret x
  | m :: rest => y <- apply_module m x ;; forward rest y
  end.

(** [nn.NLLLoss()]: the mean over the batch of [- output[b][label_b]].
    A batch and labels of different lengths raise the size error; a label
    that is not a class index raises [IndexError].  For an empty batch,
    which a loader never yields, the mean is [0/0]: the code returns [nan],
    the model [inl NotANumber]. *)
Definition NLLLoss (output : matrix) (labels : list nat) : Result R :=
  if negb (length output =? length labels) then raise DimensionMismatch
  else if negb (forallb (fun p => snd p <? length (fst p)) (combine output labels))
       then raise IndexError
  else match output with
       | [] => inl NotANumber
       | _ => ret (rsum (zip_with (fun r c => (- nth c r 0)%R) output labels)
                   / INR (length output))%R
       end.

(** Shape of a layer's tensors against its declared widths. *)
Definition wf_linear (l : Linear) : bool :=
  (0 <? in_features l) && (0 <? out_features l) &&
  match data (weight l), data (bias l) with
  | Mat w, Vec b =>
      has_shape w (out_features l) (in_features l) &&
      (length b =? out_features l)
  | _, _ => false
  end.

(** A multilayer perceptron [D_in -> ... -> D_out]: [Linear, ReLU]
    repeated, then [Linear, LogSoftmax(dim=1)]. *)
Fixpoint is_mlp (D_in D_out : nat) (model : Sequential) : bool :=
  match model with
  | [MLinear l; LogSoftmax 1] =>
      wf_linear l && (in_features l =? D_in) && (out_features l =? D_out)
  | MLinear l :: ReLU :: rest =>
      wf_linear l && (in_features l =? D_in) && is_mlp (out_features l) D_out rest
  | _ => false
  end.

End nn.

Import nn.

(* ================================================================== *)
(** ** Part 4: the Fashion-MNIST classifier *)

Module Part4.

(** [model = nn.Sequential(nn.Linear(784,128), nn.ReLU(),
                           nn.Linear(128, 64), nn.ReLU(),
                           nn.Linear(64, 10), nn.LogSoftmax(dim=1))] *)
Definition model (init : Init) : Sequential :=
  [MLinear (new_Linear init "0" 784 128);
   ReLU;
   MLinear (new_Linear init "2" 128 64);
   ReLU;
   MLinear (new_Linear init "4" 64 10);
   LogSoftmax 1].

End Part4.

(* ================================================================== *)
(** ** Qualified parameter names *)

Definition string_of_nat (n : nat) : string :=
  NilEmpty.string_of_uint (Nat.to_uint n).

(** ["hidden_layers.<k>"] *)
Definition hidden_name (k : nat) : string :=
  ("hidden_layers." ++ string_of_nat k)%string.

(** The last character of a string (the zero character for the empty one). *)
Fixpoint last_char (s : string) : ascii :=
  match s with
  | EmptyString => zero
  | String c EmptyString => c
  | String _ t => last_char t
  end.

(** An ordered dictionary with string keys. *)
Definition Dict (V : Type) : Type := list (string * V).

Fixpoint lookup {V} (key : string) (d : Dict V) : option V :=
  match d with
  | [] => None
  | (k, v) :: rest => if String.eqb key k then Some v else lookup key rest
  end.

Definition keys {V} (d : Dict V) : list string := map fst d.

Definition mem (key : string) (l : list string) : bool :=
  existsb (String.eqb key) l.

Fixpoint list_eqb (l l' : list nat) : bool :=
  match l, l' with
  | [], [] => true
  | a :: t, b :: t' => (a =? b) && list_eqb t t'
  | _, _ => false
  end.

(* ================================================================== *)
(** ** fc_model: the Network class *)

Module fc_model.

(** Modelled from the spec: the [Network] class of [fc_model], whose file
    is not among the sources.  The fields are the three modules that the
    notebook prints for a constructed model. *)
Record Network := mkNetwork {
  hidden_layers : list Linear;   (* nn.ModuleList *)
  output : Linear;
  dropout : R                    (* nn.Dropout(p) *)
}.

(** The hidden layers [n_in -> h_1, h_1 -> h_2, ...], numbered from [k]. *)
Fixpoint new_hidden (init : Init) (k n_in : nat) (hs : list nat) : list Linear :=
  match hs with
  | [] => []
  | h :: rest => new_Linear init (hidden_name k) n_in h :: new_hidden init (S k) h rest
  end.

(** Modelled from the spec: [fc_model.Network(input_size, output_size,
    hidden_layers)], whose file is not among the sources.  Section 4.1:
    for widths [[h_1, ..., h_k]] the model has the [k + 1] layers
    [input -> h_1, ..., h_k -> output]; an empty list is legal and gives the
    single map [input -> output]; a non-positive dimension fails with
    [InvalidArchitecture].  The notebook prints the constructed model as a
    [ModuleList] named [hidden_layers], a layer named [output] and
    [Dropout(p=0.5)]. *)
Definition new_Network (init : Init) (input_size output_size : Z)
    (hidden : list Z) : Result Network :=
  if ((0 <? input_size)%Z && (0 <? output_size)%Z
      && forallb (fun h => (0 <? h)%Z) hidden)%bool
  then
    let n_in := Z.to_nat input_size in
    let hs := map Z.to_nat hidden in
    ret {| hidden_layers := new_hidden init 0 n_in hs;
           output := new_Linear init "output" (last hs n_in) (Z.to_nat output_size);
           dropout := (5 / 10)%R |}
  else raise InvalidArchitecture.

(** Dropout: a no-op during inference; during training the [k]-th
    application multiplies entry [(i, j)] by the drawn factor [mask k i j]
    (zero, or the rescaling [1 / (1 - p)]). *)
Inductive Mode :=
| Eval
| Train (mask : nat -> nat -> nat -> R).

Fixpoint imap {A B} (f : nat -> A -> B) (i : nat) (l : list A) : list B :=
  match l with
  | [] => []
  | a :: t => f i a :: imap f (S i) t
  end.

Definition apply_dropout (mode : Mode) (k : nat) (x : matrix) : matrix :=
  match mode with
  | Eval => x
  | Train mask => imap (fun i r => imap (fun j v => (v * mask k i j)%R) 0 r) 0 x
  end.

Fixpoint forward_hidden (mode : Mode) (k : nat) (layers : list Linear)
    (x : matrix) : Result matrix :=
  match layers with
  | [] => ret x
  | each :: rest =>
      y <- linear each x ;;
      forward_hidden mode (S k) rest (apply_dropout mode k (relu y))
  end.

(** Modelled from the spec: [Network.forward].  Section 4.1: each hidden
    layer applies ReLU to its affine output, then dropout; the final layer's
    affine output goes through log-softmax along the class dimension. *)
Definition forward (mode : Mode) (model : Network) (x : matrix) : Result matrix :=
  h <- forward_hidden mode 0 (hidden_layers model) x ;;
  y <- linear (output model) h ;;
  log_softmax 1 y.

(** *** state_dict and load_state_dict *)

Definition linear_state (prefix : string) (l : Linear) : Dict Tensor :=
  [(weight_key prefix, data (weight l));
   (bias_key prefix, data (bias l))].

Fixpoint hidden_state (k : nat) (layers : list Linear) : Dict Tensor :=
  match layers with
  | [] => []
  | l :: rest => linear_state (hidden_name k) l ++ hidden_state (S k) rest
  end.

(** [model.state_dict()]: qualified parameter name to values, in module
    order. *)
Definition state_dict (model : Network) : Dict Tensor :=
  hidden_state 0 (hidden_layers model) ++ linear_state "output" (output model).

(** What loading has reported so far: size-mismatch messages and missing
    keys. *)
Definition LoadLog : Type := (list LoadMsg * list string)%type.

Definition log_app (a b : LoadLog) : LoadLog := (fst a ++ fst b, snd a ++ snd b).

(** One parameter: copy the stored tensor when its size is the
    parameter's, report otherwise. *)
Definition load_param (sd : Dict Tensor) (name : string) (p : Param)
    : Param * LoadLog :=
  match lookup name sd with
  | Some t =>
      if list_eqb (size t) (size (data p))
      then ({| data := t; grad := grad p |}, ([], []))
      else (p, ([SizeMismatch name (size (data p)) (size t)], []))
  | None => (p, ([], [name]))
  end.

Definition load_linear (sd : Dict Tensor) (prefix : string) (l : Linear)
    : Linear * LoadLog :=
  let (w, lw) := load_param sd (weight_key prefix) (weight l) in
  let (b, lb) := load_param sd (bias_key prefix) (bias l) in
  ({| in_features := in_features l; out_features := out_features l;
      weight := w; bias := b |}, log_app lw lb).

Fixpoint load_hidden (sd : Dict Tensor) (k : nat) (layers : list Linear)
    : list Linear * LoadLog :=
  match layers with
  | [] => ([], ([], []))
  | l :: rest =>
      let (l', log) := load_linear sd (hidden_name k) l in
      let (rest', log') := load_hidden sd (S k) rest in
      (l' :: rest', log_app log log')
  end.

(** [model.load_state_dict(state_dict)] with the default [strict=True]:
    every parameter of the model is looked up by qualified name; stored
    keys the model does not have are unexpected; any report raises. *)
Definition load_state_dict (model : Network) (sd : Dict Tensor) : Result Network :=
  let (hidden', log_h) := load_hidden sd 0 (hidden_layers model) in
  let (output', log_o) := load_linear sd "output" (output model) in
  let log := log_app log_h log_o in
  let unexpected := filter (fun k => negb (mem k (keys (state_dict model)))) (keys sd) in
  let msgs :=
    (match snd log with [] => [] | missing => [MissingKeys missing] end)
    ++ (match unexpected with [] => [] | _ => [UnexpectedKeys unexpected] end)
    ++ fst log in
  match msgs with
  | [] => ret {| hidden_layers := hidden'; output := output';
                 dropout := dropout model |}
  | _ => raise (LoadStateDictError msgs)
  end.

(** A layer (a model) with the same values whose parameters carry no
    gradient: what a freshly constructed one is after the values have been
    copied in. *)
Definition copy_param (p : Param) : Param := {| data := data p; grad := None |}.

Definition copy_linear (l : Linear) : Linear :=
  {| in_features := in_features l; out_features := out_features l;
     weight := copy_param (weight l); bias := copy_param (bias l) |}.

Definition copy_network (p : R) (model : Network) : Network :=
  {| hidden_layers := map copy_linear (hidden_layers model);
     output := copy_linear (output model);
     dropout := p |}.

(** *** Validity of a model *)

Fixpoint chain (n_in : nat) (layers : list Linear) : bool :=
  match layers with
  | [] => true
  | l :: rest => wf_linear l && (in_features l =? n_in) && chain (out_features l) rest
  end.

Definition input_size (model : Network) : nat :=
  match hidden_layers model with
  | [] => in_features (output model)
  | l :: _ => in_features l
  end.

Definition output_size (model : Network) : nat := out_features (output model).

Definition widths (model : Network) : list nat :=
  map out_features (hidden_layers model).

(** Positive dimensions, tensors of the declared sizes, and consecutive
    layers that fit. *)
Definition valid (model : Network) : bool :=
  chain (input_size model) (hidden_layers model)
  && wf_linear (output model)
  && (in_features (output model) =? last (widths model) (input_size model)).

(** The layer widths of a model: [(in_features, out_features)] of every
    hidden layer and of the output layer. *)
Definition topology (model : Network) : list (nat * nat) * (nat * nat) :=
  (map (fun l => (in_features l, out_features l)) (hidden_layers model),
   (in_features (output model), out_features (output model))).

(** The tensor sizes stored under each key of a state dict. *)
Definition shapes (sd : Dict Tensor) : Dict (list nat) :=
  map (fun kv => (fst kv, size (snd kv))) sd.

End fc_model.

Import fc_model.

(* ================================================================== *)
(** ** Part 6: saving and loading checkpoints *)

Module Part6.

(** The Python values that the notebook stores in a checkpoint. *)
Inductive PyVal :=
| PyInt (z : Z)
| PyIntList (l : list Z)
| PyTensor (t : Tensor)
| PyStateDict (sd : Dict Tensor).

(** A pickled object: a plain value or a [dict] of values. *)
Inductive PyObj :=
| Plain (v : PyVal)
| PyDict (d : Dict PyVal).

(** The files written by [torch.save], by path. *)
Definition Files := Dict PyObj.

(** [torch.save(obj, path)] *)
Definition torch_save (obj : PyObj) (path : string) (fs : Files) : Files :=
  (path, obj) :: fs.

(** [torch.load(path)] *)
Definition torch_load (fs : Files) (path : string) : Result PyObj :=
  match lookup path fs with
  | Some obj => ret obj
  | None => raise (NotFound path)
  end.

(** [obj[key]] *)
Definition getitem (obj : PyObj) (key : string) : Result PyVal :=
  match obj with
  | PyDict d =>
      match lookup key d with
      | Some v => ret v
      | None => raise (KeyError key)
      end
  | Plain (PyStateDict sd) =>
      match lookup key sd with
      | Some t => ret (PyTensor t)
      | None => raise (KeyError key)
      end
  | Plain _ => raise TypeError
  end.

Definition as_int (v : PyVal) : Result Z :=
  match v with PyInt z => ret z | _ => raise TypeError end.

Definition as_int_list (v : PyVal) : Result (list Z) :=
  match v with PyIntList l => ret l | _ => raise TypeError end.

Definition as_state_dict (v : PyVal) : Result (Dict Tensor) :=
  match v with PyStateDict sd => ret sd | _ => raise TypeError end.

(** The entries of a [dict] as [load_state_dict] reads them for a model with
    parameters [names]: every key, and the value under a key only where the
    key names a parameter.  A value that is never read stands in the mapping
    as the empty tensor; a value under a parameter's name that is not a
    tensor cannot be copied. *)
Fixpoint entries_read (names : list string) (d : Dict PyVal) : Result (Dict Tensor) :=
  match d with
  | [] => ret []
  | (k, PyTensor t) :: rest =>
      rest' <- entries_read names rest ;; ret ((k, t) :: rest')
  | (k, _) :: rest =>
      if mem k names then raise TypeError
      else rest' <- entries_read names rest ;; ret ((k, Vec []) :: rest')
  end.

(** The object passed to [model.load_state_dict], read as a mapping from
    names to tensors: a state dict is one; a [dict] is read by its entries;
    anything else is not a mapping. *)
Definition as_mapping (model : Network) (obj : PyObj) : Result (Dict Tensor) :=
  match obj with
  | Plain (PyStateDict sd) => ret sd
  | Plain _ => raise TypeError
  | PyDict d => entries_read (keys (state_dict model)) d
  end.

(** [checkpoint = {'input_size': 784,
                   'output_size': 10,
                   'hidden_layers': [each.out_features for each in model.hidden_layers],
                   'state_dict': model.state_dict()}] *)
Definition checkpoint (model : Network) : PyObj :=
  PyDict
    [("input_size"%string, PyInt 784);
     ("output_size"%string, PyInt 10);
     ("hidden_layers"%string,
        PyIntList (map (fun each => Z.of_nat (out_features each)) (hidden_layers model)));
     ("state_dict"%string, PyStateDict (state_dict model))].

(** [torch.save(checkpoint, 'checkpoint.pth')] *)
Definition save (model : Network) (path : string) (fs : Files) : Files :=
  torch_save (checkpoint model) path fs.

(** [def load_checkpoint(filepath)]; [init] is the draw that initialises the
    freshly constructed network. *)
Definition load_checkpoint (init : Init) (fs : Files) (filepath : string)
    : Result Network :=
  checkpoint <- torch_load fs filepath ;;
  n_in <- (v <- getitem checkpoint "input_size" ;; as_int v) ;;
  n_out <- (v <- getitem checkpoint "output_size" ;; as_int v) ;;
  hidden <- (v <- getitem checkpoint "hidden_layers" ;; as_int_list v) ;;
  model <- new_Network init n_in n_out hidden ;;
  sd <- (v <- getitem checkpoint "state_dict" ;; as_state_dict v) ;;
  load_state_dict model sd.

(** The cell that loads a bare state dict into a network built with
    hard-coded widths:
    [model = fc_model.Network(784, 10, [400, 200, 100]);
     model.load_state_dict(state_dict)]. *)
Definition load_into_400_200_100 (init : Init) (fs : Files) (filepath : string)
    : Result Network :=
  state_dict <- torch_load fs filepath ;;
  model <- new_Network init 784 10 [400; 200; 100]%Z ;;
  mapping <- as_mapping model state_dict ;;
  load_state_dict model mapping.

End Part6.

Import Part6.

(* ================================================================== *)
(** ** torch.optim and the autodiff engine *)

Module optim.

(** [model.parameters()]: weight then bias of every [Linear], in module
    order.  The optimizer is built from this list and holds the same
    parameter objects as the model. *)
Fixpoint parameters (model : Sequential) : list Param :=
  match model with
  | [] => []
  | MLinear l :: rest => weight l :: bias l :: parameters rest
  | _ :: rest => parameters rest
  end.

(** The model after its parameter objects have been mutated to [ps]. *)
Fixpoint update_parameters (model : Sequential) (ps : list Param) : Sequential :=
  match model with
  | [] => []
  | MLinear l :: rest =>
      match ps with
      | w :: b :: ps' =>
          MLinear {| in_features := in_features l; out_features := out_features l;
                     weight := w; bias := b |} :: update_parameters rest ps'
      | _ => model
      end
  | m :: rest => m :: update_parameters rest ps
  end.

(** [optim.SGD(model.parameters(), lr=...)] with the defaults (no momentum,
    no dampening, no weight decay). *)
Record SGD := mkSGD { lr : R }.

Definition zero_grad_param (p : Param) : Param :=
  {| data := data p;
     grad := option_map (tmap (fun _ => 0%R)) (grad p) |}.

(** [optimizer.zero_grad()]: every gradient that exists is set to zero. *)
Definition zero_grad (model : Sequential) : Sequential :=
  update_parameters model (map zero_grad_param (parameters model)).

(** One parameter of [SGD.step]: skipped without a gradient, otherwise
    [p.data.add_(-lr, p.grad)]. *)
Definition step_param (lr : R) (p : Param) : Param :=
  match grad p with
  | None => p
  | Some d_p =>
      {| data := tmap2 (fun x d => (x + - lr * d)%R) (data p) d_p;
         grad := grad p |}
  end.

(** [optimizer.step()] *)
Definition step (optimizer : SGD) (model : Sequential) : Sequential :=
  update_parameters model (map (step_param (lr optimizer)) (parameters model)).

(** The autodiff engine, for a fixed architecture and criterion: from the
    parameter values and a batch, the gradient of the batch loss with
    respect to each parameter, in the order of [parameters]. *)
Definition Autograd := list Tensor -> matrix * list nat -> list Tensor.

(** The engine accumulates: a new gradient is added onto the stored one. *)
Definition accumulate (p : Param) (g : Tensor) : Param :=
  {| data := data p;
     grad := Some (match grad p with
                   | None => g
                   | Some old => tmap2 Rplus old g
                   end) |}.

(** [loss.backward()] *)
Definition backward (autograd : Autograd) (model : Sequential)
    (batch : matrix * list nat) : Sequential :=
  update_parameters model
    (zip_with accumulate (parameters model)
       (autograd (map data (parameters model)) batch)).

End optim.

Import optim.

(* ================================================================== *)
(** ** The data loader *)

Module data.

(** An image: channels of rows of pixels. *)
Definition image := list matrix.

Definition Batch : Type := (list image * list nat)%type.

(** [torch.utils.data.DataLoader(dataset, batch_size=..., shuffle=True)] *)
Record DataLoader := mkDataLoader {
  dataset : list (image * nat);
  batch_size : nat
}.

(** [len(trainloader)]: the number of batches, the last one possibly
    short. *)
Definition len (loader : DataLoader) : nat :=
  (length (dataset loader) + batch_size loader - 1) / batch_size loader.

(** The batch sampler: indices are appended to the current batch, which is
    yielded when it is full; a non-empty rest is yielded at the end. *)
Fixpoint batch_sampler (bs : nat) (batch : list nat) (sampler : list nat)
    : list (list nat) :=
  match sampler with
  | [] => match batch with [] => [] | _ => [batch] end
  | idx :: rest =>
      let batch' := batch ++ [idx] in
      if length batch' =? bs
      then batch' :: batch_sampler bs [] rest
      else batch_sampler bs batch' rest
  end.

Definition collate (ds : list (image * nat)) (idxs : list nat) : Batch :=
  (map (fun i => fst (nth i ds ([], 0))) idxs,
   map (fun i => snd (nth i ds ([], 0))) idxs).

(** One pass over the loader; [order] is the shuffled order of the dataset
    indices drawn for this pass. *)
Definition iter (loader : DataLoader) (order : list nat) : list Batch :=
  map (collate (dataset loader)) (batch_sampler (batch_size loader) [] order).

(** [images.view(images.shape[0], -1)] *)
Definition view_flat (images : list image) : matrix :=
  map (fun img => concat (concat img)) images.

End data.

Import data.

(* ================================================================== *)
(** ** The training loop *)

Module Training.

(** [criterion = nn.NLLLoss()] *)
Definition criterion : matrix -> list nat -> Result R := NLLLoss.

Section Loop.

Variable autograd : Autograd.
Variable optimizer : SGD.
Variable trainloader : DataLoader.
(** The shuffled order of each epoch. *)
Variable shuffle : nat -> list nat.

(** The body of [for images, labels in trainloader]; returns the updated
    model and [loss.item()]. *)
Definition train_step (model : Sequential) (batch : Batch) : Result (Sequential * R) :=
  let (images, labels) := batch in
  let images := view_flat images in
  let model := zero_grad model in
  output <- nn.forward model images ;;
  loss <- criterion output labels ;;
  let model := backward autograd model (images, labels) in
  let model := step optimizer model in
  ret (model, loss).

(** The inner loop, threading the model and [running_loss]. *)
Fixpoint train_batches (model : Sequential) (running_loss : R)
    (batches : list Batch) : Result (Sequential * R) :=
  match batches with
  | [] => ret (model, running_loss)
  | batch :: rest =>
      r <- train_step model batch ;;
      train_batches (fst r) (running_loss + snd r)%R rest
  end.

(** One epoch: [running_loss = 0], the inner loop, and the value printed
    by the [else] branch, [running_loss/len(trainloader)]. *)
Definition train_epoch (e : nat) (model : Sequential) : Result (Sequential * R) :=
  r <- train_batches model 0%R (iter trainloader (shuffle e)) ;;
  if len trainloader =? 0 then raise ZeroDivisionError
  else ret (fst r, (snd r / INR (len trainloader))%R).

(** [for e in range(epochs)], from epoch [e]; returns the trained model and
    the printed training losses. *)
Fixpoint train (epochs e : nat) (model : Sequential) : Result (Sequential * list R) :=
  match epochs with
  | 0 => ret (model, [])
  | S n =>
      r <- train_epoch e model ;;
      r' <- train n (S e) (fst r) ;;
      ret (fst r', snd r :: snd r')
  end.

(** The scalar losses of the batches of one pass, in order, each taken at
    the parameters current when its batch is processed; the model after the
    pass. *)
Fixpoint batch_losses (model : Sequential) (batches : list Batch)
    : Result (Sequential * list R) :=
  match batches with
  | [] => ret (model, [])
  | batch :: rest =>
      r <- train_step model batch ;;
      r' <- batch_losses (fst r) rest ;;
      ret (fst r', snd r :: snd r')
  end.

End Loop.

End Training.

Import Training.

(* ================================================================== *)
(** ** Part 6, cell by cell *)

Module Cells6.

(** A layer (a model) that has taken the values of another one and kept its
    own gradients: what [copy_] leaves in the parameters. *)
Definition take_param (p q : Param) : Param :=
  {| data := data q; grad := grad p |}.

Definition take_linear (f m : Linear) : Linear :=
  {| in_features := in_features f; out_features := out_features f;
     weight := take_param (weight f) (weight m);
     bias := take_param (bias f) (bias m) |}.

Definition take_network (f m : Network) : Network :=
  {| hidden_layers := zip_with take_linear (hidden_layers f) (hidden_layers m);
     output := take_linear (output f) (output m);
     dropout := dropout f |}.

(** The tensors of two layers have the same sizes. *)
Definition same_sizes (f m : Linear) : Prop :=
  size (data (weight m)) = size (data (weight f)) /\
  size (data (bias m)) = size (data (bias f)).

(** Both tensors of [m] have other sizes than those of [f]. *)
Definition other_sizes (f m : Linear) : Prop :=
  size (data (weight m)) <> size (data (weight f)) /\
  size (data (bias m)) <> size (data (bias f)).

(** The widths of a layer. *)
Definition io (l : Linear) : nat * nat := (in_features l, out_features l).

(** The model object after [model.load_state_dict(sd)], whether or not the
    call raised: the tensors whose sizes fit have been copied in before the
    collected report is raised. *)
Definition after_load_state_dict (model : Network) (sd : Dict Tensor) : Network :=
  {| hidden_layers := fst (load_hidden sd 0 (hidden_layers model));
     output := fst (load_linear sd "output" (output model));
     dropout := dropout model |}.

(** The variables of the notebook and the files on disk.  [state_dict] is
    unbound until the cell that loads it has run. *)
Record Session := mkSession {
  var_model : Network;
  var_state_dict : option PyObj;
  disk : Files
}.

(** A cell changes the session and may end with an exception; the notebook
    goes on with the next cell either way. *)
Definition Cell := Session -> Session * option Exception.

(** [torch.save(model.state_dict(), 'checkpoint.pth')] *)
Definition cell_save_state_dict : Cell := fun s =>
  ({| var_model := var_model s;
      var_state_dict := var_state_dict s;
      disk := torch_save (Plain (PyStateDict (state_dict (var_model s))))
                "checkpoint.pth" (disk s) |}, None).

(** [state_dict = torch.load('checkpoint.pth')] *)
Definition cell_load_state_dict : Cell := fun s =>
  match torch_load (disk s) "checkpoint.pth" with
  | inr obj => ({| var_model := var_model s; var_state_dict := Some obj;
                   disk := disk s |}, None)
  | inl e => (s, Some e)
  end.

(** [model.load_state_dict(state_dict)] on the session's variables. *)
Definition call_load_state_dict (s : Session) : Session * option Exception :=
  match var_state_dict s with
  | None => (s, Some (NameError "state_dict"))
  | Some obj =>
      match as_mapping (var_model s) obj with
      | inl e => (s, Some e)
      | inr sd =>
          ({| var_model := after_load_state_dict (var_model s) sd;
              var_state_dict := var_state_dict s;
              disk := disk s |},
           match load_state_dict (var_model s) sd with
           | inl e => Some e
           | inr _ => None
           end)
      end
  end.

(** [model.load_state_dict(state_dict)] *)
Definition cell_apply_state_dict : Cell := call_load_state_dict.

(** [model = fc_model.Network(784, 10, [400, 200, 100]);
     model.load_state_dict(state_dict)] *)
Definition cell_other_architecture (init : Init) : Cell := fun s =>
  match new_Network init 784 10 [400; 200; 100]%Z with
  | inl e => (s, Some e)
  | inr fresh =>
      call_load_state_dict
        {| var_model := fresh; var_state_dict := var_state_dict s; disk := disk s |}
  end.

(** [checkpoint = {...}; torch.save(checkpoint, 'checkpoint.pth')] *)
Definition cell_save_checkpoint : Cell := fun s =>
  ({| var_model := var_model s;
      var_state_dict := var_state_dict s;
      disk := save (var_model s) "checkpoint.pth" (disk s) |}, None).

(** [model = load_checkpoint('checkpoint.pth')] *)
Definition cell_load_checkpoint (init : Init) : Cell := fun s =>
  match load_checkpoint init (disk s) "checkpoint.pth" with
  | inr m => ({| var_model := m; var_state_dict := var_state_dict s;
                 disk := disk s |}, None)
  | inl e => (s, Some e)
  end.

(** Run cells in order; the outcome of each is recorded. *)
Fixpoint run_cells (cells : list Cell) (s : Session) : Session * list (option Exception) :=
  match cells with
  | [] => (s, [])
  | c :: rest =>
      let (s1, r) := c s in
      let (s2, rs) := run_cells rest s1 in
      (s2, r :: rs)
  end.

(** The cells of the notebook from the first save to the final load, in the
    order in which they were run. *)
Definition notebook (init init' : Init) : list Cell :=
  [cell_save_state_dict;
   cell_load_state_dict;
   cell_apply_state_dict;
   cell_other_architecture init;
   cell_save_checkpoint;
   cell_load_checkpoint init'].

End Cells6.

Import Cells6.

(* ================================================================== *)
(** ** More of torch: softmax and the cross-entropy loss *)

Module more_torch.

(** Softmax of one row: [exp x_i / sum_j exp x_j], in exact arithmetic.
    (In float32 an entry far below the largest underflows to zero.) *)
Definition softmax_row (r : vector) : vector :=
  let s := rsum (map exp r) in
  map (fun v => (exp v / s)%R) r.

(** [F.softmax(x, dim)] on a 2-D tensor. *)
Definition F_softmax (x : matrix) (dim : nat) : Result matrix :=
  match dim with
  | 1 => ret (map softmax_row x)
  | 0 => ret (transpose (length x) (map softmax_row (transpose (ncols x) x)))
  | _ => raise IndexError
  end.

(** [nn.CrossEntropyLoss()]: the mean over the batch of
    [- log (exp x[b][label_b] / sum_j exp x[b][j])], with the checks of
    [NLLLoss]. *)
Definition CrossEntropyLoss (input : matrix) (target : list nat) : Result R :=
  if negb (length input =? length target) then raise DimensionMismatch
  else if negb (forallb (fun p => snd p <? length (fst p)) (combine input target))
       then raise IndexError
  else match input with
       | [] => inl NotANumber
       | _ => ret (rsum (zip_with
                           (fun r c => (- ln (exp (nth c r 0) / rsum (map exp r)))%R)
                           input target)
                   / INR (length input))%R
       end.

End more_torch.

Import more_torch.

(* ================================================================== *)
(** ** Training notebook: the cells around the loop *)

Module TrainingCells.

(** [model = nn.Sequential(nn.Linear(784, 128), nn.ReLU(),
                           nn.Linear(128, 64), nn.ReLU(),
                           nn.Linear(64, 10))], the model of the first
    loss cell, without a final [LogSoftmax]. *)
Definition scores_model (init : Init) : Sequential :=
  [MLinear (new_Linear init "0" 784 128);
   ReLU;
   MLinear (new_Linear init "2" 128 64);
   ReLU;
   MLinear (new_Linear init "4" 64 10)].

(** [images = images.view(images.shape[0], -1); logits = model(images);
     loss = criterion(logits, labels)] *)
Definition loss_cell (criterion : matrix -> list nat -> Result R)
    (model : Sequential) (batch : Batch) : Result R :=
  let (images, labels) := batch in
  logits <- nn.forward model (view_flat images) ;;
  criterion logits labels.

(** A stored gradient has the shape of its parameter. *)
Definition grad_fits (p : Param) : Prop :=
  forall g, grad p = Some g -> same_shape (data p) g = true.

(** The parameters of [model'] have the shapes of those of [model]. *)
Definition same_parameter_shapes (model model' : Sequential) : Prop :=
  Forall2 (fun p q => same_shape (data p) (data q) = true)
    (parameters model) (parameters model').

(** The engine returns, for values of the shapes of the model's parameters,
    one gradient for each value and of its shape. *)
Definition engine_fits (autograd : Autograd) (model : Sequential) : Prop :=
  forall values batch,
    Forall2 (fun p v => same_shape (data p) v = true) (parameters model) values ->
    Forall2 (fun v g => same_shape v g = true) values (autograd values batch).

(** Every example is an image of [D_in] pixels with a label below
    [D_out]. *)
Definition dataset_fits (D_in D_out : nat) (ds : list (image * nat)) : Prop :=
  Forall (fun ex => length (concat (concat (fst ex))) = D_in /\ snd ex < D_out) ds.

(** What every iteration of the training loop keeps, for the model
    [model0] the loop starts from: the model is a perceptron of the same
    input and output widths, its stored gradients fit, and its parameters
    have the shapes of those of [model0]. *)
Definition loop_invariant (D_in D_out : nat) (model0 m : Sequential) : Prop :=
  is_mlp D_in D_out m = true /\
  Forall grad_fits (parameters m) /\
  same_parameter_shapes model0 m.

End TrainingCells.

Import TrainingCells.

(* ================================================================== *)
(** ** The autograd cells *)

Module AutogradCells.

(** [y = x**2] *)
Definition square (x : matrix) : matrix := map (map (fun a => (a ^ 2)%R)) x.

(** [z = y.mean()]: the sum of all entries over their number. *)
Definition mean (y : matrix) : R :=
  (rsum (concat y) / INR (length (concat y)))%R.

(** [z] as a function of [x]. *)
Definition z_of (x : matrix) : R := mean (square x).

(** [x / 2] *)
Definition halved (x : matrix) : matrix := map (map (fun a => (a / 2)%R)) x.

(** The list [l] with its entry [k] replaced by [a]. *)
Fixpoint set_nth {A} (k : nat) (a : A) (l : list A) : list A :=
  match l, k with
  | [], _ => []
  | _ :: t, 0 => a :: t
  | b :: t, S k' => b :: set_nth k' a t
  end.

(** The tensor [x] with its entry [(i, j)] replaced by [t]. *)
Definition set_entry (x : matrix) (i j : nat) (t : R) : matrix :=
  set_nth i (set_nth j t (nth i x [])) x.

End AutogradCells.

Import AutogradCells.

(* ================================================================== *)
(** ** Concrete models and data used as test inputs *)

Module Examples.

(** The draw that initialises every entry to zero. *)
Definition zero_init : Init := fun _ _ _ => 0%R.

(** [fc_model.Network(3, 2, [4])] *)
Definition tiny : Network :=
  {| hidden_layers := [new_Linear zero_init (hidden_name 0) 3 4];
     output := new_Linear zero_init "output" 4 2;
     dropout := (5 / 10)%R |}.

(** [fc_model.Network(100, 10, [16])] *)
Definition narrow : Network :=
  {| hidden_layers := [new_Linear zero_init (hidden_name 0) 100 16];
     output := new_Linear zero_init "output" 16 10;
     dropout := (5 / 10)%R |}.

(** [fc_model.Network(784, 3, [5])] *)
Definition three_classes : Network :=
  {| hidden_layers := [new_Linear zero_init (hidden_name 0) 784 5];
     output := new_Linear zero_init "output" 5 3;
     dropout := (5 / 10)%R |}.

(** [fc_model.Network(784, 10, [4])] *)
Definition mnist_small : Network :=
  {| hidden_layers := [new_Linear zero_init (hidden_name 0) 784 4];
     output := new_Linear zero_init "output" 4 10;
     dropout := (5 / 10)%R |}.

(** [fc_model.Network(784, 10, [512, 256, 128])] *)
Definition mnist_512 : Network :=
  {| hidden_layers := [new_Linear zero_init (hidden_name 0) 784 512;
                       new_Linear zero_init (hidden_name 1) 512 256;
                       new_Linear zero_init (hidden_name 2) 256 128];
     output := new_Linear zero_init "output" 128 10;
     dropout := (5 / 10)%R |}.

(** A batch of one flattened 28x28 image, all pixels zero. *)
Definition one_blank_image : matrix := [repeat 0%R 784].

(** A classifier of two pixels into two classes. *)
Definition toy_model : Sequential :=
  [MLinear (new_Linear zero_init "0" 2 2); LogSoftmax 1].

(** A one-pixel model whose weight carries a gradient left by an earlier
    backward pass. *)
Definition toy_with_grad : Sequential :=
  [MLinear {| in_features := 1; out_features := 1;
              weight := {| data := Mat [[2%R]]; grad := Some (Mat [[1%R]]) |};
              bias := {| data := Vec [3%R]; grad := None |} |};
   LogSoftmax 1].

(** A stand-in for the autodiff engine: the gradient of each parameter is
    the parameter's own value. *)
Definition toy_autograd : Autograd := fun values _ => values.

Definition toy_sgd : SGD := {| lr := (3 / 1000)%R |}.

(** Three images of one row of two pixels, in batches of two. *)
Definition toy_loader : DataLoader :=
  {| dataset := [([[[1%R; 2%R]]], 0); ([[[3%R; 4%R]]], 1); ([[[5%R; 6%R]]], 0)];
     batch_size := 2 |}.

Definition toy_shuffle (e : nat) : list nat :=
  match e with
  | 0 => [2; 0; 1]
  | _ => [1; 2; 0]
  end.

(** One image of a single pixel, labelled with class 0. *)
Definition one_pixel_batch : Batch := ([[[[5%R]]]], [0]).

End Examples.

Import Examples.

Module MoreExamples.

(** A 28x28 image of one channel, all pixels zero. *)
Definition blank_image : image := [repeat (repeat 0%R 28) 28].

(** A batch of two blank images with labels 3 and 7. *)
Definition blank_batch : Batch := ([blank_image; blank_image], [3; 7]).

End MoreExamples.

Import MoreExamples.

(* ================================================================== *)
(** * Properties *)

(** ** Lists and shapes *)

Lemma zip_with_length {A B C} (f : A -> B -> C) l l' :
  length (zip_with f l l') = Nat.min (length l) (length l').
Proof.
  revert l'; induction l as [|a l IH]; intros [|b l']; simpl; auto.
Qed.

Lemma has_shape_spec x B D :
  has_shape x B D = true <-> length x = B /\ Forall (fun r => length r = D) x.
Proof.
  unfold has_shape. rewrite andb_true_iff, Nat.eqb_eq, forallb_forall, Forall_forall.
  split; intros [H1 H2]; split; auto; intros r Hr.
  - apply Nat.eqb_eq; auto.
  - apply Nat.eqb_eq; auto.
Qed.

Lemma has_shape_map (f : vector -> vector) x B D D' :
  (forall r, length r = D -> length (f r) = D') ->
  has_shape x B D = true -> has_shape (map f x) B D' = true.
Proof.
  intros Hf H. apply has_shape_spec in H. destruct H as [HB HD].
  apply has_shape_spec. split.
  - now rewrite length_map.
  - apply Forall_map. eapply Forall_impl; [|exact HD]. auto.
Qed.

Lemma ncols_shape w n m : 0 < n -> has_shape w n m = true -> ncols w = m.
Proof.
  intros Hn H. apply has_shape_spec in H. destruct H as [Hl Hr].
  destruct w as [|r w]; simpl in *; [lia|].
  now inversion Hr.
Qed.

(** What [wf_linear] says, unfolded. *)
Lemma wf_linear_inv l :
  wf_linear l = true ->
  exists w b,
    data (weight l) = Mat w /\ data (bias l) = Vec b /\
    0 < in_features l /\ 0 < out_features l /\
    has_shape w (out_features l) (in_features l) = true /\
    length b = out_features l.
Proof.
  unfold wf_linear. intros H.
  apply andb_true_iff in H. destruct H as [H H3].
  apply andb_true_iff in H. destruct H as [H1 H2].
  apply Nat.ltb_lt in H1, H2.
  destruct (data (weight l)) as [|w]; try discriminate.
  destruct (data (bias l)) as [b|]; try discriminate.
  apply andb_true_iff in H3. destruct H3 as [H3 H4].
  apply Nat.eqb_eq in H4.
  exists w, b. auto 10.
Qed.

(** A well-formed layer maps a batch of its input width to one of its
    output width. *)
Lemma linear_shape l x B :
  wf_linear l = true ->
  has_shape x B (in_features l) = true ->
  exists y, linear l x = inr y /\ has_shape y B (out_features l) = true.
Proof.
  intros Hl Hx.
  destruct (wf_linear_inv l Hl) as (w & b & Hw & Hb & Hin & Hout & Hs & Hlb).
  unfold linear. rewrite Hw, Hb.
  rewrite (ncols_shape _ _ _ Hout Hs).
  assert (Hc : forallb (fun r => length r =? in_features l) x = true).
  { unfold has_shape in Hx. now apply andb_true_iff in Hx. }
  rewrite Hc. eexists; split; [reflexivity|].
  eapply has_shape_map; [|exact Hx].
  intros r _. unfold affine. rewrite zip_with_length.
  apply has_shape_spec in Hs. lia.
Qed.

Lemma relu_shape x B D : has_shape x B D = true -> has_shape (relu x) B D = true.
Proof.
  apply has_shape_map. intros r Hr. now rewrite length_map.
Qed.

Lemma log_softmax_row_length r : length (log_softmax_row r) = length r.
Proof. unfold log_softmax_row. now rewrite length_map. Qed.

(** ** Log-softmax is normalised *)

Lemma rsum_exp_pos r : r <> [] -> (0 < rsum (map exp r))%R.
Proof.
  induction r as [|a r IH]; [congruence|]. intros _. simpl.
  destruct r as [|b r].
  - simpl. pose proof (exp_pos a). lra.
  - assert (0 < rsum (map exp (b :: r)))%R by (apply IH; discriminate).
    pose proof (exp_pos a). unfold rsum in *. simpl in *. lra.
Qed.

Lemma rsum_map_scale (c : R) (f : R -> R) r :
  rsum (map (fun v => (f v * c)%R) r) = (rsum (map f r) * c)%R.
Proof.
  induction r as [|a r IH]; simpl.
  - unfold rsum; simpl; lra.
  - unfold rsum in *; simpl. rewrite IH. lra.
Qed.

Lemma log_softmax_row_normalised r :
  r <> [] -> rsum (map exp (log_softmax_row r)) = 1%R.
Proof.
  intros Hr. unfold log_softmax_row.
  pose proof (rsum_exp_pos r Hr) as Hpos.
  rewrite map_map.
  rewrite (map_ext _ (fun v => (exp v * / rsum (map exp r))%R)).
  - rewrite rsum_map_scale. apply Rinv_r. lra.
  - intros v. unfold Rminus. rewrite exp_plus, exp_Ropp, exp_ln; auto.
Qed.

(** Rows of a batch of positive width are normalised by [LogSoftmax(dim=1)]. *)
Lemma log_softmax_rows x B D :
  0 < D -> has_shape x B D = true ->
  exists y, log_softmax 1 x = inr y /\ has_shape y B D = true /\
            Forall (fun row => rsum (map exp row) = 1%R) y.
Proof.
  intros HD Hx. eexists; split; [reflexivity|]. split.
  - eapply has_shape_map; [|exact Hx]. intros r Hr.
    now rewrite log_softmax_row_length.
  - apply has_shape_spec in Hx. destruct Hx as [_ Hx].
    apply Forall_map. eapply Forall_impl; [|exact Hx].
    intros r Hr. apply log_softmax_row_normalised.
    intros ->. simpl in Hr. lia.
Qed.

(** ** Multilayer perceptrons built with [nn.Sequential] *)

Lemma is_mlp_inv D_in D_out model :
  is_mlp D_in D_out model = true ->
  (exists l, model = [MLinear l; LogSoftmax 1] /\ wf_linear l = true /\
             in_features l = D_in /\ out_features l = D_out)
  \/ (exists l rest, model = MLinear l :: ReLU :: rest /\ wf_linear l = true /\
                     in_features l = D_in /\
                     is_mlp (out_features l) D_out rest = true).
Proof.
  intros H. destruct model as [|m model]; [discriminate|].
  destruct m as [l| |]; try discriminate.
  destruct model as [|m' model]; [discriminate|].
  destruct m' as [| |dim]; try discriminate.
  - right. simpl in H.
    apply andb_true_iff in H. destruct H as [H H3].
    apply andb_true_iff in H. destruct H as [H1 H2].
    apply Nat.eqb_eq in H2. exists l, model. auto.
  - left. simpl in H.
    destruct dim as [|[|dim]]; try discriminate.
    destruct model; try discriminate.
    apply andb_true_iff in H. destruct H as [H H3].
    apply andb_true_iff in H. destruct H as [H1 H2].
    apply Nat.eqb_eq in H2, H3. exists l. auto.
Qed.

Lemma mlp_forward :
  forall n model D_in D_out B x,
    length model <= n ->
    is_mlp D_in D_out model = true ->
    has_shape x B D_in = true ->
    exists y, nn.forward model x = inr y /\ has_shape y B D_out = true /\
              Forall (fun row => rsum (map exp row) = 1%R) y.
Proof.
  induction n as [|n IH]; intros model D_in D_out B x Hn Hm Hx.
  - destruct model; [discriminate|]. simpl in Hn. lia.
  - destruct (is_mlp_inv _ _ _ Hm) as [(l & -> & Hl & Hi & Ho)|(l & rest & -> & Hl & Hi & Hr)].
    + subst. destruct (linear_shape l x B Hl Hx) as (y & Hy & Hs).
      destruct (wf_linear_inv l Hl) as (_ & _ & _ & _ & _ & Hout & _).
      destruct (log_softmax_rows _ _ _ Hout Hs) as (z & Hz & Hzs & Hnorm).
      exists z. cbn [nn.forward apply_module]. rewrite Hy. cbn [bind].
      rewrite Hz. cbn [bind ret]. auto.
    + subst. destruct (linear_shape l x B Hl Hx) as (y & Hy & Hs).
      apply relu_shape in Hs.
      destruct (IH rest _ _ _ _ ltac:(simpl in Hn; lia) Hr Hs) as (z & Hz & Hzs & Hnorm).
      exists z. cbn [nn.forward apply_module]. rewrite Hy. cbn [bind ret].
      auto.
Qed.

(** ** Qualified names are distinct *)

Lemma string_of_nat_inj a b : string_of_nat a = string_of_nat b -> a = b.
Proof.
  unfold string_of_nat. intros H.
  assert (Hu : Some (Nat.to_uint a) = Some (Nat.to_uint b)).
  { rewrite <- !NilEmpty.usu. now rewrite H. }
  injection Hu as Hu.
  rewrite <- (DecimalNat.Unsigned.of_to a), <- (DecimalNat.Unsigned.of_to b).
  now rewrite Hu.
Qed.

Lemma str_length_app (a b : string) :
  String.length (a ++ b) = String.length a + String.length b.
Proof. induction a as [|c a IH]; simpl; auto. Qed.

Lemma str_app_inv_tail (a b s : string) : (a ++ s = b ++ s)%string -> a = b.
Proof.
  revert b; induction a as [|c a IH]; intros [|d b] H; simpl in H.
  - reflexivity.
  - apply (f_equal String.length) in H. simpl in H.
    rewrite str_length_app in H. lia.
  - apply (f_equal String.length) in H. simpl in H.
    rewrite str_length_app in H. lia.
  - injection H as -> H. f_equal. now apply IH.
Qed.

Lemma last_char_app (a : string) (c : ascii) (t : string) :
  last_char (a ++ String c t) = last_char (String c t).
Proof.
  induction a as [|d a IH]; [reflexivity|].
  change (String d a ++ String c t)%string with (String d (a ++ String c t)).
  destruct (a ++ String c t)%string eqn:E.
  - destruct a; discriminate.
  - rewrite <- IH. reflexivity.
Qed.

Lemma weight_key_bias_key a b : weight_key a <> bias_key b.
Proof.
  unfold weight_key, bias_key. intros H.
  apply (f_equal last_char) in H. rewrite !last_char_app in H.
  discriminate.
Qed.

Lemma hidden_name_inj j k : hidden_name j = hidden_name k -> j = k.
Proof.
  unfold hidden_name. intros H. simpl in H.
  apply string_of_nat_inj. congruence.
Qed.

Lemma eqb_weight_weight j k :
  String.eqb (weight_key (hidden_name j)) (weight_key (hidden_name k)) = (j =? k).
Proof.
  destruct (Nat.eqb_spec j k) as [->|Hn].
  - apply String.eqb_refl.
  - apply String.eqb_neq. intros H. apply str_app_inv_tail in H.
    now apply hidden_name_inj in H.
Qed.

Lemma eqb_bias_bias j k :
  String.eqb (bias_key (hidden_name j)) (bias_key (hidden_name k)) = (j =? k).
Proof.
  destruct (Nat.eqb_spec j k) as [->|Hn].
  - apply String.eqb_refl.
  - apply String.eqb_neq. intros H. apply str_app_inv_tail in H.
    now apply hidden_name_inj in H.
Qed.

Lemma eqb_weight_bias a b : String.eqb (weight_key a) (bias_key b) = false.
Proof. apply String.eqb_neq, weight_key_bias_key. Qed.

Lemma eqb_bias_weight a b : String.eqb (bias_key a) (weight_key b) = false.
Proof.
  apply String.eqb_neq. intros H. symmetry in H.
  now apply weight_key_bias_key in H.
Qed.

Lemma eqb_output_hidden (s : string) k :
  String.eqb ("output" ++ s) (hidden_name k ++ s) = false.
Proof. reflexivity. Qed.

Lemma eqb_output_weight_hidden k :
  String.eqb (weight_key "output") (weight_key (hidden_name k)) = false.
Proof. reflexivity. Qed.

Lemma eqb_output_bias_hidden k :
  String.eqb (bias_key "output") (bias_key (hidden_name k)) = false.
Proof. reflexivity. Qed.

(** ** Freshly constructed layers *)

Lemma rand_matrix_shape f rows cols :
  has_shape (rand_matrix f rows cols) rows cols = true.
Proof.
  apply has_shape_spec. unfold rand_matrix. split.
  - now rewrite length_map, length_seq.
  - apply Forall_map, Forall_forall. intros i _.
    now rewrite length_map, length_seq.
Qed.

Lemma rand_vector_length f n : length (rand_vector f n) = n.
Proof. unfold rand_vector. now rewrite length_map, length_seq. Qed.

Lemma new_Linear_wf init name n_in n_out :
  0 < n_in -> 0 < n_out -> wf_linear (new_Linear init name n_in n_out) = true.
Proof.
  intros Hi Ho. unfold wf_linear, new_Linear; cbn [in_features out_features weight bias data].
  rewrite rand_matrix_shape, rand_vector_length, Nat.eqb_refl.
  apply Nat.ltb_lt in Hi, Ho. now rewrite Hi, Ho.
Qed.

Lemma wf_linear_sizes l :
  wf_linear l = true ->
  size (data (weight l)) = [out_features l; in_features l] /\
  size (data (bias l)) = [out_features l].
Proof.
  intros H. destruct (wf_linear_inv l H) as (w & b & Hw & Hb & Hi & Ho & Hs & Hlb).
  rewrite Hw, Hb. simpl. rewrite (ncols_shape _ _ _ Ho Hs), Hlb.
  apply has_shape_spec in Hs. destruct Hs as [-> _]. auto.
Qed.

Lemma list_eqb_refl l : list_eqb l l = true.
Proof. induction l; simpl; auto. now rewrite Nat.eqb_refl. Qed.

Lemma list_eqb_eq l l' : list_eqb l l' = true <-> l = l'.
Proof.
  split; [|intros ->; apply list_eqb_refl].
  revert l'; induction l as [|a l IH]; intros [|b l'] H; simpl in H;
    try discriminate; auto.
  apply andb_true_iff in H. destruct H as [H1 H2].
  apply Nat.eqb_eq in H1. f_equal; auto.
Qed.

(** ** Looking parameters up in a state dict *)

Lemma lookup_hidden_weight ls : forall j i m rest,
  nth_error ls i = Some m ->
  lookup (weight_key (hidden_name (j + i))) (hidden_state j ls ++ rest)
  = Some (data (weight m)).
Proof.
  induction ls as [|l ls IH]; intros j i m rest Hn.
  - destruct i; discriminate.
  - cbn [hidden_state linear_state app lookup].
    rewrite eqb_weight_weight. destruct i as [|i]; simpl in Hn.
    + injection Hn as ->. rewrite Nat.add_0_r, Nat.eqb_refl. reflexivity.
    + replace (j + S i =? j) with false by (symmetry; apply Nat.eqb_neq; lia).
      rewrite eqb_weight_bias.
      replace (j + S i) with (S j + i) by lia. now apply IH.
Qed.

Lemma lookup_hidden_bias ls : forall j i m rest,
  nth_error ls i = Some m ->
  lookup (bias_key (hidden_name (j + i))) (hidden_state j ls ++ rest)
  = Some (data (bias m)).
Proof.
  induction ls as [|l ls IH]; intros j i m rest Hn.
  - destruct i; discriminate.
  - cbn [hidden_state linear_state app lookup].
    rewrite eqb_bias_weight, eqb_bias_bias. destruct i as [|i]; simpl in Hn.
    + injection Hn as ->. rewrite Nat.add_0_r, Nat.eqb_refl. reflexivity.
    + replace (j + S i =? j) with false by (symmetry; apply Nat.eqb_neq; lia).
      replace (j + S i) with (S j + i) by lia. now apply IH.
Qed.

Lemma lookup_output_weight ls : forall j rest,
  lookup (weight_key "output") (hidden_state j ls ++ rest)
  = lookup (weight_key "output") rest.
Proof.
  induction ls as [|l ls IH]; intros j rest; [reflexivity|].
  cbn [hidden_state linear_state app lookup].
  rewrite eqb_output_weight_hidden, eqb_weight_bias. apply IH.
Qed.

Lemma lookup_output_bias ls : forall j rest,
  lookup (bias_key "output") (hidden_state j ls ++ rest)
  = lookup (bias_key "output") rest.
Proof.
  induction ls as [|l ls IH]; intros j rest; [reflexivity|].
  cbn [hidden_state linear_state app lookup].
  rewrite eqb_bias_weight, eqb_output_bias_hidden. apply IH.
Qed.

(** ** Loading a state dict into a model of the same architecture *)

Arguments new_Linear : simpl never.

Lemma load_linear_fresh sd init name name' m :
  wf_linear m = true ->
  lookup (weight_key name) sd = Some (data (weight m)) ->
  lookup (bias_key name) sd = Some (data (bias m)) ->
  load_linear sd name (new_Linear init name' (in_features m) (out_features m))
  = (copy_linear m, ([], [])).
Proof.
  intros Hwf Hw Hb.
  destruct (wf_linear_inv m Hwf) as (_ & _ & _ & _ & Hi & Ho & _).
  destruct (wf_linear_sizes m Hwf) as [Sw Sb].
  destruct (wf_linear_sizes _ (new_Linear_wf init name' _ _ Hi Ho)) as [Fw Fb].
  unfold load_linear, load_param. rewrite Hw, Hb.
  rewrite Sw, Sb, Fw, Fb.
  change (in_features (new_Linear init name' (in_features m) (out_features m)))
    with (in_features m).
  change (out_features (new_Linear init name' (in_features m) (out_features m)))
    with (out_features m).
  rewrite !list_eqb_refl. reflexivity.
Qed.

Lemma load_hidden_fresh sd init : forall ms j n_in,
  chain n_in ms = true ->
  (forall i m, nth_error ms i = Some m ->
     lookup (weight_key (hidden_name (j + i))) sd = Some (data (weight m)) /\
     lookup (bias_key (hidden_name (j + i))) sd = Some (data (bias m))) ->
  load_hidden sd j (new_hidden init j n_in (map out_features ms))
  = (map copy_linear ms, ([], [])).
Proof.
  induction ms as [|m ms IH]; intros j n_in Hc Hl; [reflexivity|].
  cbn [chain] in Hc.
  apply andb_true_iff in Hc. destruct Hc as [Hc Hrest].
  apply andb_true_iff in Hc. destruct Hc as [Hwf Hin].
  apply Nat.eqb_eq in Hin. subst n_in.
  cbn [map new_hidden load_hidden].
  destruct (Hl 0 m eq_refl) as [Hw Hb]. rewrite Nat.add_0_r in Hw, Hb.
  rewrite (load_linear_fresh sd init (hidden_name j) (hidden_name j) m Hwf Hw Hb).
  rewrite (IH (S j) (out_features m) Hrest).
  - reflexivity.
  - intros i m' Hn. replace (S j + i) with (j + S i) by lia. now apply Hl.
Qed.

Lemma keys_hidden_state ls ls' : forall j,
  length ls = length ls' ->
  keys (hidden_state j ls) = keys (hidden_state j ls').
Proof.
  revert ls'; induction ls as [|l ls IH]; intros [|l' ls'] j H;
    try discriminate; [reflexivity|].
  unfold keys in *. cbn [hidden_state linear_state app map fst].
  f_equal. f_equal. apply IH. simpl in H. lia.
Qed.

Lemma new_hidden_length init hs : forall j n_in,
  length (new_hidden init j n_in hs) = length hs.
Proof. induction hs; intros; simpl; auto. Qed.

Lemma mem_in k l : In k l -> mem k l = true.
Proof.
  intros H. unfold mem. apply existsb_exists. exists k. split; auto.
  apply String.eqb_refl.
Qed.

Lemma no_unexpected (own stored : list string) :
  incl stored own -> filter (fun k => negb (mem k own)) stored = [].
Proof.
  induction stored as [|k stored IH]; intros H; [reflexivity|].
  simpl. rewrite mem_in by (apply H; now left). simpl.
  apply IH. intros x Hx. apply H. now right.
Qed.

(** Loading the state dict of a valid model into a freshly constructed
    model of the same widths copies every tensor and reports nothing. *)
Lemma load_state_dict_fresh init p m :
  valid m = true ->
  load_state_dict
    {| hidden_layers := new_hidden init 0 (input_size m) (widths m);
       output := new_Linear init "output" (in_features (output m)) (output_size m);
       dropout := p |}
    (state_dict m)
  = inr (copy_network p m).
Proof.
  intros Hv. unfold valid in Hv.
  apply andb_true_iff in Hv. destruct Hv as [Hv Hlast].
  apply andb_true_iff in Hv. destruct Hv as [Hchain Hwf].
  unfold load_state_dict. cbn [hidden_layers output dropout].
  unfold widths. rewrite (load_hidden_fresh (state_dict m) init _ 0 _ Hchain).
  2:{ intros i l Hn. unfold state_dict. split.
      - now apply lookup_hidden_weight.
      - now apply lookup_hidden_bias. }
  unfold output_size.
  rewrite (load_linear_fresh (state_dict m) init "output" "output" (output m) Hwf).
  2:{ unfold state_dict. rewrite lookup_output_weight.
      cbn [linear_state lookup]. now rewrite String.eqb_refl. }
  2:{ unfold state_dict. rewrite lookup_output_bias.
      cbn [linear_state lookup]. rewrite eqb_bias_weight.
      now rewrite String.eqb_refl. }
  rewrite no_unexpected.
  - reflexivity.
  - unfold state_dict at 2. cbn [hidden_layers output].
    unfold keys. rewrite !map_app.
    fold (keys (hidden_state 0 (new_hidden init 0 (input_size m)
                                  (map out_features (hidden_layers m))))).
    rewrite (keys_hidden_state _ (hidden_layers m)).
    + unfold state_dict, keys. rewrite map_app. apply incl_refl.
    + now rewrite new_hidden_length, length_map.
Qed.

(** ** Constructing a network from positive dimensions *)

Lemma new_Network_positive init n_in n_out hs :
  (0 < n_in)%Z -> (0 < n_out)%Z -> Forall (fun h => (0 < h)%Z) hs ->
  new_Network init n_in n_out hs
  = inr {| hidden_layers := new_hidden init 0 (Z.to_nat n_in) (map Z.to_nat hs);
           output := new_Linear init "output"
                       (last (map Z.to_nat hs) (Z.to_nat n_in)) (Z.to_nat n_out);
           dropout := (5 / 10)%R |}.
Proof.
  intros Hi Ho Hh. unfold new_Network.
  apply Z.ltb_lt in Hi, Ho. rewrite Hi, Ho.
  assert (Hf : forallb (fun h => (0 <? h)%Z) hs = true).
  { apply forallb_forall. intros h Hin. apply Z.ltb_lt.
    rewrite Forall_forall in Hh. auto. }
  rewrite Hf. reflexivity.
Qed.

Lemma chain_widths_positive ms : forall n_in,
  chain n_in ms = true ->
  Forall (fun h => (0 < h)%Z) (map (fun each => Z.of_nat (out_features each)) ms).
Proof.
  induction ms as [|m ms IH]; intros n_in H; [constructor|].
  cbn [chain] in H.
  apply andb_true_iff in H. destruct H as [H Hrest].
  apply andb_true_iff in H. destruct H as [Hwf _].
  destruct (wf_linear_inv m Hwf) as (_ & _ & _ & _ & _ & Ho & _).
  simpl. constructor; [lia|]. eapply IH; eauto.
Qed.

Lemma to_nat_of_nat_widths (ms : list Linear) :
  map Z.to_nat (map (fun each => Z.of_nat (out_features each)) ms)
  = map out_features ms.
Proof.
  rewrite map_map. apply map_ext. intros l. apply Nat2Z.id.
Qed.

(** ** The checkpoint round trip *)

Lemma torch_load_saved obj path fs : torch_load (torch_save obj path fs) path = inr obj.
Proof.
  unfold torch_load, torch_save. cbn [lookup]. now rewrite String.eqb_refl.
Qed.

(** A checkpoint of a valid model with 784 inputs and 10 outputs loads, and
    the loaded model carries the saved values. *)
Lemma checkpoint_roundtrip init fs path m :
  valid m = true -> input_size m = 784 -> output_size m = 10 ->
  load_checkpoint init (save m path fs) path = inr (copy_network (5 / 10)%R m).
Proof.
  intros Hv Hi Ho.
  unfold load_checkpoint, save. rewrite torch_load_saved.
  unfold checkpoint.
  cbn [bind getitem lookup String.eqb Ascii.eqb Bool.eqb as_int as_int_list
       as_state_dict ret].
  assert (Hchain : chain (input_size m) (hidden_layers m) = true).
  { unfold valid in Hv. apply andb_true_iff in Hv. destruct Hv as [Hv _].
    now apply andb_true_iff in Hv. }
  rewrite new_Network_positive;
    [| lia | lia | exact (chain_widths_positive _ _ Hchain)].
  cbn [bind]. rewrite to_nat_of_nat_widths.
  change (Z.to_nat 784) with 784. change (Z.to_nat 10) with 10.
  rewrite <- Hi, <- Ho.
  assert (Hlast : last (map out_features (hidden_layers m)) (input_size m)
                  = in_features (output m)).
  { unfold valid in Hv. apply andb_true_iff in Hv. destruct Hv as [_ Hv].
    apply Nat.eqb_eq in Hv. now rewrite Hv. }
  rewrite Hlast. now apply load_state_dict_fresh.
Qed.

(** ** Forward passes read the values only *)

Lemma linear_copy l x : linear (copy_linear l) x = linear l x.
Proof. reflexivity. Qed.

Lemma forward_hidden_copy mode ls : forall k x,
  forward_hidden mode k (map copy_linear ls) x = forward_hidden mode k ls x.
Proof.
  induction ls as [|l ls IH]; intros k x; [reflexivity|].
  cbn [map forward_hidden]. rewrite linear_copy.
  destruct (linear l x) as [e|y]; cbn [bind]; auto.
Qed.

Lemma forward_copy p mode m x :
  fc_model.forward mode (copy_network p m) x = fc_model.forward mode m x.
Proof.
  unfold fc_model.forward, copy_network. cbn [hidden_layers output].
  rewrite forward_hidden_copy.
  destruct (forward_hidden mode 0 (hidden_layers m) x) as [e|h]; cbn [bind]; auto.
Qed.

Lemma hidden_state_copy ls : forall j,
  hidden_state j (map copy_linear ls) = hidden_state j ls.
Proof.
  induction ls as [|l ls IH]; intros j; [reflexivity|].
  cbn [map hidden_state]. now rewrite IH.
Qed.

Lemma state_dict_copy p m : state_dict (copy_network p m) = state_dict m.
Proof.
  unfold state_dict, copy_network. cbn [hidden_layers output].
  now rewrite hidden_state_copy.
Qed.

Lemma topology_copy p m : topology (copy_network p m) = topology m.
Proof.
  unfold topology, copy_network. cbn [hidden_layers output].
  rewrite map_map. reflexivity.
Qed.

(** ** Size mismatches raise *)

Lemma load_hidden_mismatch sd l rest j t :
  lookup (weight_key (hidden_name j)) sd = Some t ->
  list_eqb (size t) (size (data (weight l))) = false ->
  existsb is_size_mismatch (fst (snd (load_hidden sd j (l :: rest)))) = true.
Proof.
  intros Hl Hs. cbn [load_hidden]. unfold load_linear.
  unfold load_param at 1. rewrite Hl, Hs.
  destruct (load_param sd (bias_key (hidden_name j)) (bias l)) as [b lb].
  destruct (load_hidden sd (S j) rest) as [r lr].
  reflexivity.
Qed.

Lemma load_state_dict_raises model sd :
  existsb is_size_mismatch (fst (snd (load_hidden sd 0 (hidden_layers model)))) = true ->
  exists e, load_state_dict model sd = inl e /\ ArchitectureMismatch e = true.
Proof.
  intros H. unfold load_state_dict.
  destruct (load_hidden sd 0 (hidden_layers model)) as [h lh].
  destruct (load_linear sd "output" (output model)) as [o lo].
  cbn [snd fst] in H.
  match goal with
  | |- context [match ?msgs with [] => _ | _ :: _ => _ end] =>
      match type of msgs with
      | list LoadMsg => assert (Hm : existsb is_size_mismatch msgs = true)
      end
  end.
  { rewrite !existsb_app. unfold log_app. cbn [fst]. rewrite existsb_app, H.
    now rewrite !orb_true_r. }
  match goal with
  | |- context [match ?msgs with [] => _ | _ :: _ => _ end] =>
      match type of msgs with
      | list LoadMsg => destruct msgs as [|msg msgs'] eqn:E
      end
  end.
  - discriminate.
  - eexists; split; [reflexivity|]. exact Hm.
Qed.

(** ** The forward pass of a valid network *)

Lemma imap_length {A B} (f : nat -> A -> B) l : forall i, length (imap f i l) = length l.
Proof. induction l as [|a l IH]; intros i; simpl; auto. Qed.

Lemma imap_rows (g : nat -> vector -> vector) (x : matrix) D :
  (forall i r, length (g i r) = length r) ->
  Forall (fun r => length r = D) x ->
  forall i, Forall (fun r => length r = D) (imap g i x).
Proof.
  intros Hg HD. induction HD as [|r x Hr HD IH]; intros i; cbn [imap];
    constructor; auto.
  now rewrite Hg.
Qed.

Lemma dropout_shape mode k x B D :
  has_shape x B D = true -> has_shape (apply_dropout mode k x) B D = true.
Proof.
  destruct mode as [|mask]; [auto|]. cbn [apply_dropout]. intros H.
  apply has_shape_spec in H. destruct H as [HB HD]. apply has_shape_spec.
  split; [now rewrite imap_length|].
  apply imap_rows; [|exact HD]. intros i r. apply imap_length.
Qed.

Lemma last_cons {A} (a d : A) l : last (a :: l) d = last l a.
Proof.
  revert a d; induction l as [|b l IH]; intros a d; [reflexivity|].
  change (last (a :: b :: l) d) with (last (b :: l) d).
  rewrite (IH b d), (IH b a). reflexivity.
Qed.

Lemma forward_hidden_shape mode B : forall layers k n_in x,
  chain n_in layers = true ->
  has_shape x B n_in = true ->
  exists h,
    forward_hidden mode k layers x = inr h /\
    has_shape h B (last (map out_features layers) n_in) = true.
Proof.
  induction layers as [|l layers IH]; intros k n_in x Hc Hx.
  - exists x. auto.
  - cbn [chain] in Hc.
    apply andb_true_iff in Hc. destruct Hc as [Hc Hrest].
    apply andb_true_iff in Hc. destruct Hc as [Hwf Hin].
    apply Nat.eqb_eq in Hin. subst n_in.
    destruct (linear_shape l x B Hwf Hx) as (y & Hy & Hs).
    apply relu_shape in Hs. apply (dropout_shape mode k) in Hs.
    destruct (IH (S k) _ _ Hrest Hs) as (h & Hh & Hhs).
    exists h. cbn [forward_hidden map]. rewrite Hy. cbn [bind].
    rewrite last_cons. auto.
Qed.

(** A valid network maps a batch of its input width to log-probabilities
    over its classes, in every dropout mode. *)
Lemma Network_forward_shape mode m B x :
  valid m = true ->
  has_shape x B (input_size m) = true ->
  exists y,
    fc_model.forward mode m x = inr y /\
    has_shape y B (output_size m) = true /\
    Forall (fun row => rsum (map exp row) = 1%R) y.
Proof.
  intros Hv Hx. unfold valid in Hv.
  apply andb_true_iff in Hv. destruct Hv as [Hv Hlast].
  apply andb_true_iff in Hv. destruct Hv as [Hchain Hwf].
  apply Nat.eqb_eq in Hlast.
  destruct (forward_hidden_shape mode B _ 0 _ x Hchain Hx) as (h & Hh & Hhs).
  unfold widths in Hlast. rewrite <- Hlast in Hhs.
  destruct (linear_shape _ h B Hwf Hhs) as (y & Hy & Hys).
  destruct (wf_linear_inv _ Hwf) as (_ & _ & _ & _ & _ & Hout & _).
  destruct (log_softmax_rows _ _ _ Hout Hys) as (z & Hz & Hzs & Hnorm).
  exists z. unfold fc_model.forward. rewrite Hh. cbn [bind]. rewrite Hy.
  cbn [bind]. auto.
Qed.

(** ** Tensors, entry by entry *)

Lemma nth_zip_with {A B C} (f : A -> B -> C) (da : A) (db : B) (dc : C) l : forall l' i,
  i < length l -> length l = length l' ->
  nth i (zip_with f l l') dc = f (nth i l da) (nth i l' db).
Proof.
  induction l as [|a l IH]; intros [|b l'] i Hi Hl; simpl in *; try lia.
  destruct i as [|i]; [reflexivity|]. apply IH; lia.
Qed.

Lemma same_rows_length m : forall n, same_rows m n = true -> length m = length n.
Proof.
  induction m as [|r m IH]; intros [|s n] H; simpl in H; try discriminate; auto.
  apply andb_true_iff in H. destruct H as [_ H]. simpl. f_equal. auto.
Qed.

Lemma same_rows_nth m : forall n i,
  same_rows m n = true -> i < length m ->
  length (nth i m []) = length (nth i n []).
Proof.
  induction m as [|r m IH]; intros [|s n] i H Hi; simpl in *; try discriminate; try lia.
  apply andb_true_iff in H. destruct H as [H1 H2]. apply Nat.eqb_eq in H1.
  destruct i as [|i]; [exact H1|]. apply IH; auto. lia.
Qed.

Lemma same_rows_zip_with (f : R -> R -> R) m : forall n,
  same_rows m n = true -> same_rows (zip_with (zip_with f) m n) m = true.
Proof.
  induction m as [|r m IH]; intros [|s n] H; simpl in *; try discriminate; auto.
  apply andb_true_iff in H. destruct H as [H1 H2]. apply Nat.eqb_eq in H1.
  rewrite IH by assumption. rewrite zip_with_length, <- H1, Nat.min_id.
  now rewrite Nat.eqb_refl.
Qed.

Lemma same_shape_tmap2 f t u :
  same_shape t u = true -> same_shape (tmap2 f t u) t = true.
Proof.
  destruct t as [v|m], u as [w|n]; simpl; try discriminate.
  - intros H. apply Nat.eqb_eq in H.
    rewrite zip_with_length, <- H, Nat.min_id. apply Nat.eqb_refl.
  - apply same_rows_zip_with.
Qed.

(** On tensors of the same shape [tmap2] acts entry by entry. *)
Lemma entry_tmap2 f t u i j :
  same_shape t u = true -> in_range t i j = true ->
  entry (tmap2 f t u) i j = f (entry t i j) (entry u i j).
Proof.
  destruct t as [v|m], u as [w|n]; simpl; try discriminate; intros Hs Hr.
  - apply andb_true_iff in Hr. destruct Hr as [Hi _].
    apply Nat.ltb_lt in Hi. apply Nat.eqb_eq in Hs.
    now apply nth_zip_with.
  - apply andb_true_iff in Hr. destruct Hr as [Hi Hj].
    apply Nat.ltb_lt in Hi, Hj.
    unfold vector in *.
    rewrite (nth_zip_with (zip_with f) (@nil R) (@nil R) (@nil R) m n i Hi
               (same_rows_length m n Hs)).
    apply nth_zip_with; [exact Hj|]. now apply same_rows_nth.
Qed.

Lemma zip_with_zero_l (v : vector) : forall w,
  length v = length w -> zip_with Rplus (map (fun _ => 0%R) v) w = w.
Proof.
  induction v as [|a v IH]; intros [|b w] H; simpl in *; try discriminate; auto.
  rewrite Rplus_0_l. f_equal. apply IH. lia.
Qed.

(** Adding a gradient onto a zeroed one of the same shape gives the
    gradient. *)
Lemma tmap2_zero_l old g :
  same_shape old g = true -> tmap2 Rplus (tmap (fun _ => 0%R) old) g = g.
Proof.
  destruct old as [v|m], g as [w|n]; simpl; try discriminate; intros H.
  - apply Nat.eqb_eq in H. f_equal. now apply zip_with_zero_l.
  - f_equal. revert n H. induction m as [|r m IH]; intros [|s n] H;
      simpl in *; try discriminate; auto.
    apply andb_true_iff in H. destruct H as [H1 H2]. apply Nat.eqb_eq in H1.
    rewrite zip_with_zero_l by assumption. f_equal. auto.
Qed.

Lemma nth_map_zero (v : vector) i : nth i (map (fun _ => 0%R) v) 0%R = 0%R.
Proof.
  revert i; induction v as [|a v IH]; intros [|i]; simpl; auto.
Qed.

Lemma entry_zeroed t i j : entry (tmap (fun _ => 0%R) t) i j = 0%R.
Proof.
  destruct t as [v|m]; simpl.
  - apply nth_map_zero.
  - revert i; induction m as [|r m IH]; intros [|i]; simpl.
    + now destruct j.
    + now destruct j.
    + apply nth_map_zero.
    + apply IH.
Qed.

(** ** The optimizer acts on the model's parameters *)

Lemma parameters_update model : forall ps,
  length ps = length (parameters model) ->
  parameters (update_parameters model ps) = ps.
Proof.
  induction model as [|m model IH]; intros ps H.
  - destruct ps; [reflexivity|discriminate].
  - destruct m as [l| |dim]; cbn [parameters update_parameters] in *.
    + destruct ps as [|w [|b ps]]; try discriminate.
      cbn [parameters weight bias]. f_equal. f_equal. apply IH.
      simpl in H. lia.
    + cbn [parameters]. now apply IH.
    + cbn [parameters]. now apply IH.
Qed.

Lemma parameters_zero_grad model :
  parameters (zero_grad model) = map zero_grad_param (parameters model).
Proof. unfold zero_grad. apply parameters_update. now rewrite length_map. Qed.

Lemma parameters_step optimizer model :
  parameters (step optimizer model)
  = map (step_param (lr optimizer)) (parameters model).
Proof. unfold step. apply parameters_update. now rewrite length_map. Qed.

Lemma parameters_backward autograd model batch :
  length (autograd (map data (parameters model)) batch) = length (parameters model) ->
  parameters (backward autograd model batch)
  = zip_with accumulate (parameters model)
      (autograd (map data (parameters model)) batch).
Proof.
  intros H. unfold backward. apply parameters_update.
  rewrite zip_with_length, H. apply Nat.min_id.
Qed.

Lemma data_zero_grad model :
  map data (parameters (zero_grad model)) = map data (parameters model).
Proof. rewrite parameters_zero_grad, map_map. reflexivity. Qed.

Lemma nth_error_zip_with {A B C} (f : A -> B -> C) l : forall l' k a b,
  nth_error l k = Some a -> nth_error l' k = Some b ->
  nth_error (zip_with f l l') k = Some (f a b).
Proof.
  induction l as [|x l IH]; intros [|y l'] [|k] a b Ha Hb; simpl in *;
    try discriminate.
  - now injection Ha as ->; injection Hb as ->.
  - now apply IH.
Qed.

(** Zeroed, then accumulated once: the stored gradient is the new one. *)
Lemma accumulate_zeroed p g :
  (forall stale, grad p = Some stale -> same_shape stale g = true) ->
  accumulate (zero_grad_param p) g = {| data := data p; grad := Some g |}.
Proof.
  intros H. unfold accumulate, zero_grad_param. cbn [data grad].
  destruct (grad p) as [stale|]; cbn [option_map]; [|reflexivity].
  rewrite tmap2_zero_l; auto.
Qed.

(** ** The loader yields [len] batches *)

Lemma batch_sampler_length bs : forall sampler batch,
  0 < bs -> length batch < bs ->
  length (batch_sampler bs batch sampler)
  = (length batch + length sampler + bs - 1) / bs.
Proof.
  induction sampler as [|idx rest IH]; intros batch Hbs Hb.
  - cbn [batch_sampler length]. rewrite Nat.add_0_r.
    destruct batch as [|a batch].
    + simpl. symmetry. apply Nat.div_small. lia.
    + cbn [length] in *.
      apply (Nat.div_unique _ _ 1 (length batch)); lia.
  - cbn [batch_sampler]. rewrite length_app. cbn [length].
    destruct (Nat.eqb_spec (length batch + 1) bs) as [E|E].
    + cbn [length]. rewrite IH by (simpl; lia). cbn [length].
      replace (length batch + S (length rest) + bs - 1)
        with ((0 + length rest + bs - 1) + 1 * bs) by lia.
      rewrite Nat.div_add by lia. lia.
    + rewrite IH by (try rewrite length_app; simpl; lia).
      rewrite length_app. cbn [length]. f_equal. lia.
Qed.

(** With an order that covers the dataset, one pass yields
    [len(trainloader)] batches. *)
Lemma iter_length loader order :
  0 < batch_size loader ->
  length order = length (dataset loader) ->
  length (iter loader order) = len loader.
Proof.
  intros Hbs Ho. unfold iter, len. rewrite length_map.
  rewrite batch_sampler_length by (simpl; lia).
  simpl. now rewrite Ho.
Qed.

(** ** The inner loop sums the batch losses *)

Section LoopLemmas.

Variable autograd : Autograd.
Variable optimizer : SGD.

Lemma train_batches_sum : forall batches model acc,
  train_batches autograd optimizer model acc batches
  = (r <- batch_losses autograd optimizer model batches ;;
     ret (fst r, fold_left Rplus (snd r) acc)).
Proof.
  induction batches as [|b rest IH]; intros model acc; [reflexivity|].
  cbn [train_batches batch_losses].
  destruct (train_step autograd optimizer model b) as [e|[m1 loss]];
    cbn [bind fst snd]; [reflexivity|].
  rewrite IH.
  destruct (batch_losses autograd optimizer m1 rest) as [e|[m2 losses]];
    cbn [bind fst snd ret fold_left]; reflexivity.
Qed.

Lemma batch_losses_length : forall batches model model' losses,
  batch_losses autograd optimizer model batches = inr (model', losses) ->
  length losses = length batches.
Proof.
  induction batches as [|b rest IH]; intros model model' losses H.
  - cbn in H. injection H as _ <-. reflexivity.
  - cbn [batch_losses] in H.
    destruct (train_step autograd optimizer model b) as [e|[m1 loss]];
      cbn [bind fst snd] in H; [discriminate|].
    destruct (batch_losses autograd optimizer m1 rest) as [e|[m2 ls]] eqn:E;
      cbn [bind fst snd ret] in H; [discriminate|].
    injection H as _ <-. simpl. f_equal. eapply IH; eauto.
Qed.

Variable trainloader : DataLoader.
Variable shuffle : nat -> list nat.

(** An epoch is the pass over the loader, with the losses added one after
    the other onto 0 and the sum divided by the number of batches. *)
Lemma train_epoch_losses e model :
  train_epoch autograd optimizer trainloader shuffle e model
  = (r <- batch_losses autograd optimizer model (iter trainloader (shuffle e)) ;;
     if len trainloader =? 0 then raise ZeroDivisionError
     else ret (fst r, (fold_left Rplus (snd r) 0 / INR (len trainloader))%R)).
Proof.
  unfold train_epoch. rewrite train_batches_sum.
  destruct (batch_losses autograd optimizer model (iter trainloader (shuffle e)))
    as [err|[m losses]]; reflexivity.
Qed.

Lemma train_epoch_inv e model model' avg :
  train_epoch autograd optimizer trainloader shuffle e model = inr (model', avg) ->
  exists losses,
    batch_losses autograd optimizer model (iter trainloader (shuffle e))
    = inr (model', losses) /\
    avg = (fold_left Rplus losses 0 / INR (len trainloader))%R.
Proof.
  rewrite train_epoch_losses.
  destruct (batch_losses autograd optimizer model (iter trainloader (shuffle e)))
    as [err|[m losses]]; cbn [bind fst snd]; [discriminate|].
  destruct (len trainloader =? 0); [discriminate|].
  intros H. injection H as <- <-. exists losses. auto.
Qed.

End LoopLemmas.

(* ================================================================== *)
(** * The checkpoint serializer *)

(** C1 (as amended).  For every valid model with 784 inputs and 10 outputs,
    loading the checkpoint saved from it succeeds, and the loaded model has
    the same state dict and, on every input batch and in every dropout mode,
    exactly the forward output of the original model; on a batch of shape
    [[B, 784]] both return the same output of shape [[B, 10]].  (The
    checkpoint records the literal sizes 784 and 10, whatever the model.) *)
Theorem C1_roundtrip_forward (init : Init) (fs : Files) (path : string) (m : Network) :
  valid m = true -> input_size m = 784 -> output_size m = 10 ->
  exists m',
    load_checkpoint init (save m path fs) path = inr m' /\
    state_dict m' = state_dict m /\
    (forall mode x, fc_model.forward mode m' x = fc_model.forward mode m x) /\
    (forall mode B x,
       has_shape x B 784 = true ->
       exists y,
         fc_model.forward mode m x = inr y /\
         fc_model.forward mode m' x = inr y /\
         has_shape y B 10 = true).
Proof.
  intros Hv Hi Ho. exists (copy_network (5 / 10)%R m).
  split; [|split; [|split]].
  - now apply checkpoint_roundtrip.
  - apply state_dict_copy.
  - intros mode x. apply forward_copy.
  - intros mode B x Hx. rewrite <- Hi in Hx.
    destruct (Network_forward_shape mode m B x Hv Hx) as (y & Hy & Hs & _).
    exists y. rewrite forward_copy, <- Ho. auto.
Qed.

Lemma C1_roundtrip_forward_witness :
  exists m',
    load_checkpoint zero_init (save mnist_small "checkpoint.pth" []) "checkpoint.pth"
    = inr m' /\
    state_dict m' = state_dict mnist_small /\
    (forall mode x, fc_model.forward mode m' x = fc_model.forward mode mnist_small x) /\
    (forall mode B x,
       has_shape x B 784 = true ->
       exists y,
         fc_model.forward mode mnist_small x = inr y /\
         fc_model.forward mode m' x = inr y /\
         has_shape y B 10 = true).
Proof.
  apply (C1_roundtrip_forward zero_init [] "checkpoint.pth" mnist_small);
    vm_compute; reflexivity.
Defined.

(** C1 as stated fails for a valid model whose input size is not 784:
    [fc_model.Network(3, 2, [4])] is saved with the sizes 784 and 10, and
    loading that checkpoint raises instead of returning a model. *)
Lemma C1_counterexample_input_size_3 :
  new_Network zero_init 3 2 [4]%Z = inr tiny /\
  valid tiny = true /\
  ~ exists m',
      load_checkpoint zero_init (save tiny "checkpoint.pth" []) "checkpoint.pth"
      = inr m' /\
      forall mode x, fc_model.forward mode m' x = fc_model.forward mode tiny x.
Proof.
  split; [vm_compute; reflexivity|]. split; [vm_compute; reflexivity|].
  intros (m' & Hload & _).
  assert (E : load_checkpoint zero_init (save tiny "checkpoint.pth" []) "checkpoint.pth"
              = inl (LoadStateDictError
                       [SizeMismatch "hidden_layers.0.weight" [4; 784] [4; 3];
                        SizeMismatch "output.weight" [10; 4] [2; 4];
                        SizeMismatch "output.bias" [10] [2]]))
    by (vm_compute; reflexivity).
  rewrite E in Hload. discriminate.
Qed.

(** The first hidden layer of a skeleton with other widths does not fit the
    stored weight. *)
Lemma skeleton_400_raises init m :
  valid m = true -> input_size m = 784 -> widths m = [512; 256; 128] ->
  exists skeleton e,
    new_Network init 784 10 [400; 200; 100]%Z = inr skeleton /\
    load_state_dict skeleton (state_dict m) = inl e /\
    ArchitectureMismatch e = true.
Proof.
  intros Hv Hi Hw.
  rewrite new_Network_positive; [| lia | lia | repeat constructor; lia].
  match goal with
  | |- exists sk e, inr ?S = inr sk /\ _ =>
      destruct (load_state_dict_raises S (state_dict m)) as (e & He & Ha);
        [| exists S, e; auto]
  end.
  cbn [hidden_layers map new_hidden].
  unfold widths in Hw.
  destruct (hidden_layers m) as [|l0 ls] eqn:Eh; [discriminate|].
  injection Hw as H0 Hrest.
  assert (Hwf : wf_linear l0 = true /\ in_features l0 = 784).
  { unfold valid in Hv. rewrite Eh in Hv. unfold input_size in *.
    rewrite Eh in *. cbn [chain] in Hv.
    apply andb_true_iff in Hv. destruct Hv as [Hv _].
    apply andb_true_iff in Hv. destruct Hv as [Hv _].
    apply andb_true_iff in Hv. destruct Hv as [Hv _].
    apply andb_true_iff in Hv. destruct Hv as [Hv _]. auto. }
  destruct Hwf as [Hwf Hin].
  destruct (wf_linear_sizes l0 Hwf) as [Sw _].
  eapply load_hidden_mismatch.
  - unfold state_dict. rewrite Eh.
    apply (lookup_hidden_weight (l0 :: ls) 0 0 l0). reflexivity.
  - rewrite Sw, H0, Hin.
    assert (Hf : wf_linear (new_Linear init (hidden_name 0) (Z.to_nat 784) (Z.to_nat 400))
                 = true) by (apply new_Linear_wf; lia).
    destruct (wf_linear_sizes _ Hf) as [Fw _]. rewrite Fw.
    reflexivity.
Qed.

(** C2.  The values of a model with hidden widths [[512, 256, 128]], loaded
    into a network built with the hard-coded widths [[400, 200, 100]], raise
    with a size-mismatch report, both when the bare state dict was saved (the
    notebook's failing cell) and when the ['state_dict'] entry of the
    checkpoint is loaded without reading its other entries; the checkpoint of
    the same model loaded with [load_checkpoint], which reads the stored
    widths, gives a model of widths [[512, 256, 128]] with the saved values. *)
Theorem C2_hard_coded_widths_raise_documented_load_succeeds
    (init init' : Init) (fs : Files) (path : string) (m : Network) :
  valid m = true -> input_size m = 784 -> output_size m = 10 ->
  widths m = [512; 256; 128] ->
  (exists e,
     load_into_400_200_100 init
       (torch_save (Plain (PyStateDict (state_dict m))) path fs) path = inl e /\
     ArchitectureMismatch e = true) /\
  (exists skeleton e,
     new_Network init 784 10 [400; 200; 100]%Z = inr skeleton /\
     (checkpoint <- torch_load (save m path fs) path ;;
      v <- getitem checkpoint "state_dict" ;;
      sd <- as_state_dict v ;;
      load_state_dict skeleton sd) = inl e /\
     ArchitectureMismatch e = true) /\
  (exists m',
     load_checkpoint init' (save m path fs) path = inr m' /\
     widths m' = [512; 256; 128] /\
     state_dict m' = state_dict m).
Proof.
  intros Hv Hi Ho Hw.
  destruct (skeleton_400_raises init m Hv Hi Hw) as (sk & e & Hsk & Hl & Ha).
  split; [|split].
  - exists e. split; [|exact Ha].
    unfold load_into_400_200_100. rewrite torch_load_saved.
    cbn [bind as_state_dict ret]. rewrite Hsk. cbn [bind]. exact Hl.
  - exists sk, e. split; [exact Hsk|]. split; [|exact Ha].
    unfold save. rewrite torch_load_saved. exact Hl.
  - exists (copy_network (5 / 10)%R m). split; [|split].
    + now apply checkpoint_roundtrip.
    + rewrite <- Hw. unfold widths, copy_network. cbn [hidden_layers].
      now rewrite map_map.
    + apply state_dict_copy.
Qed.

Lemma C2_witness :
  (exists e,
     load_into_400_200_100 zero_init
       (torch_save (Plain (PyStateDict (state_dict mnist_512))) "checkpoint.pth" [])
       "checkpoint.pth" = inl e /\
     ArchitectureMismatch e = true) /\
  (exists skeleton e,
     new_Network zero_init 784 10 [400; 200; 100]%Z = inr skeleton /\
     (checkpoint <- torch_load (save mnist_512 "checkpoint.pth" []) "checkpoint.pth" ;;
      v <- getitem checkpoint "state_dict" ;;
      sd <- as_state_dict v ;;
      load_state_dict skeleton sd) = inl e /\
     ArchitectureMismatch e = true) /\
  (exists m',
     load_checkpoint zero_init (save mnist_512 "checkpoint.pth" []) "checkpoint.pth"
     = inr m' /\
     widths m' = [512; 256; 128] /\
     state_dict m' = state_dict mnist_512).
Proof.
  apply (C2_hard_coded_widths_raise_documented_load_succeeds
           zero_init zero_init [] "checkpoint.pth" mnist_512);
    vm_compute; reflexivity.
Defined.

(** The report of the notebook's failing cell: the seven tensors whose sizes
    differ, the first being ["hidden_layers.0.weight"] with [[400, 784]] in
    the model and [[512, 784]] in the checkpoint. *)
Example load_into_400_200_100_report :
  load_into_400_200_100 zero_init
    (torch_save (Plain (PyStateDict (state_dict mnist_512))) "checkpoint.pth" [])
    "checkpoint.pth"
  = inl (LoadStateDictError
           [SizeMismatch "hidden_layers.0.weight" [400; 784] [512; 784];
            SizeMismatch "hidden_layers.0.bias" [400] [512];
            SizeMismatch "hidden_layers.1.weight" [200; 400] [256; 512];
            SizeMismatch "hidden_layers.1.bias" [200] [256];
            SizeMismatch "hidden_layers.2.weight" [100; 200] [128; 256];
            SizeMismatch "hidden_layers.2.bias" [100] [128];
            SizeMismatch "output.weight" [10; 100] [10; 128]]).
Proof. vm_compute. reflexivity. Qed.

(** ** What a checkpoint holds *)

Lemma hidden_state_length ls : forall j, length (hidden_state j ls) = 2 * length ls.
Proof.
  induction ls as [|l ls IH]; intros j; [reflexivity|].
  cbn [hidden_state linear_state app length]. rewrite IH. lia.
Qed.

Lemma state_dict_length m : length (state_dict m) = 2 * S (length (hidden_layers m)).
Proof.
  unfold state_dict. rewrite length_app, hidden_state_length. simpl. lia.
Qed.

Lemma state_dict_output m :
  lookup "output.weight" (state_dict m) = Some (data (weight (output m))) /\
  lookup "output.bias" (state_dict m) = Some (data (bias (output m))).
Proof.
  unfold state_dict. split.
  - change "output.weight"%string with (weight_key "output").
    rewrite lookup_output_weight. cbn [linear_state lookup].
    now rewrite String.eqb_refl.
  - change "output.bias"%string with (bias_key "output").
    rewrite lookup_output_bias. cbn [linear_state lookup].
    rewrite eqb_bias_weight. now rewrite String.eqb_refl.
Qed.

(** C7 (as amended).  A checkpoint is a dictionary of exactly four entries:
    ['input_size'], the integer 784; ['output_size'], the integer 10;
    ['hidden_layers'], the list of the hidden layers' [out_features] in
    order; ['state_dict'], which maps the qualified name of every parameter
    of the model, and nothing else, to that parameter's current values.  For
    a valid model with 784 inputs and 10 outputs, loading the checkpoint
    rebuilds a model of the same topology from these entries alone. *)
Theorem C7_checkpoint_entries (m : Network) :
  exists (n_in n_out : Z) (hs : list Z) (sd : Dict Tensor),
    checkpoint m
    = PyDict [("input_size"%string, PyInt n_in);
              ("output_size"%string, PyInt n_out);
              ("hidden_layers"%string, PyIntList hs);
              ("state_dict"%string, PyStateDict sd)] /\
    n_in = 784%Z /\ n_out = 10%Z /\
    hs = map Z.of_nat (widths m) /\
    length sd = 2 * S (length (hidden_layers m)) /\
    (forall k l, nth_error (hidden_layers m) k = Some l ->
       lookup (weight_key (hidden_name k)) sd = Some (data (weight l)) /\
       lookup (bias_key (hidden_name k)) sd = Some (data (bias l))) /\
    lookup "output.weight" sd = Some (data (weight (output m))) /\
    lookup "output.bias" sd = Some (data (bias (output m))) /\
    (valid m = true -> input_size m = 784 -> output_size m = 10 ->
     forall init fs path,
     exists m', load_checkpoint init (save m path fs) path = inr m' /\
                topology m' = topology m).
Proof.
  exists 784%Z, 10%Z, (map Z.of_nat (widths m)), (state_dict m).
  split; [|split; [|split; [|split; [|split; [|split; [|split; [|split]]]]]]].
  - unfold checkpoint, widths. now rewrite map_map.
  - reflexivity.
  - reflexivity.
  - reflexivity.
  - apply state_dict_length.
  - intros k l Hn. unfold state_dict. split.
    + now apply (lookup_hidden_weight (hidden_layers m) 0 k l).
    + now apply (lookup_hidden_bias (hidden_layers m) 0 k l).
  - apply state_dict_output.
  - apply state_dict_output.
  - intros Hv Hi Ho init fs path.
    exists (copy_network (5 / 10)%R m). split.
    + now apply checkpoint_roundtrip.
    + apply topology_copy.
Qed.

Lemma C7_checkpoint_entries_witness :
  exists m',
    load_checkpoint zero_init (save mnist_small "checkpoint.pth" []) "checkpoint.pth"
    = inr m' /\
    topology m' = topology mnist_small.
Proof.
  destruct (C7_checkpoint_entries mnist_small)
    as (n_in & n_out & hs & sd & _ & _ & _ & _ & _ & _ & _ & _ & H).
  apply (H ltac:(vm_compute; reflexivity) ltac:(vm_compute; reflexivity)
           ltac:(vm_compute; reflexivity) zero_init [] "checkpoint.pth"%string).
Defined.

(** C7 as stated fails for a valid model with other than 10 outputs:
    the entries written for [fc_model.Network(784, 3, [5])] describe a
    network with 10 outputs, and loading does not rebuild the model. *)
Lemma C7_counterexample_three_classes :
  new_Network zero_init 784 3 [5]%Z = inr three_classes /\
  valid three_classes = true /\
  getitem (checkpoint three_classes) "output_size" = inr (PyInt 10) /\
  (exists fresh, new_Network zero_init 784 10 [5]%Z = inr fresh /\
                 topology fresh <> topology three_classes) /\
  ~ exists m',
      load_checkpoint zero_init (save three_classes "checkpoint.pth" [])
        "checkpoint.pth" = inr m' /\
      topology m' = topology three_classes.
Proof.
  split; [vm_compute; reflexivity|]. split; [vm_compute; reflexivity|].
  split; [reflexivity|]. split.
  - eexists. split; [vm_compute; reflexivity|].
    vm_compute. intros H. discriminate H.
  - intros (m' & Hload & _).
    assert (E : load_checkpoint zero_init (save three_classes "checkpoint.pth" [])
                  "checkpoint.pth"
                = inl (LoadStateDictError
                         [SizeMismatch "output.weight" [10; 5] [3; 5];
                          SizeMismatch "output.bias" [10] [3]]))
      by (vm_compute; reflexivity).
    rewrite E in Hload. discriminate.
Qed.

(** ** Stored sizes against the recorded architecture *)

Lemma shapes_linear_fresh init name name' m :
  wf_linear m = true ->
  shapes (linear_state name (new_Linear init name' (in_features m) (out_features m)))
  = shapes (linear_state name m).
Proof.
  intros Hwf.
  destruct (wf_linear_inv m Hwf) as (_ & _ & _ & _ & Hi & Ho & _).
  destruct (wf_linear_sizes m Hwf) as [Sw Sb].
  destruct (wf_linear_sizes _ (new_Linear_wf init name' _ _ Hi Ho)) as [Fw Fb].
  unfold shapes, linear_state. cbn [map fst snd].
  rewrite Sw, Sb, Fw, Fb. reflexivity.
Qed.

Lemma shapes_app (a b : Dict Tensor) : shapes (a ++ b) = shapes a ++ shapes b.
Proof. unfold shapes. apply map_app. Qed.

Lemma shapes_hidden_fresh init : forall ms j n_in,
  chain n_in ms = true ->
  shapes (hidden_state j (new_hidden init j n_in (map out_features ms)))
  = shapes (hidden_state j ms).
Proof.
  induction ms as [|m ms IH]; intros j n_in Hc; [reflexivity|].
  cbn [chain] in Hc.
  apply andb_true_iff in Hc. destruct Hc as [Hc Hrest].
  apply andb_true_iff in Hc. destruct Hc as [Hwf Hin].
  apply Nat.eqb_eq in Hin. subst n_in.
  cbn [map new_hidden hidden_state]. rewrite !shapes_app.
  rewrite shapes_linear_fresh by exact Hwf.
  now rewrite IH.
Qed.

(** C10 (as amended).  The ['hidden_layers'] entry of every checkpoint is
    the list of [out_features] of the live model's hidden layers.  For a
    valid model with 784 inputs and 10 outputs, a network constructed from
    the recorded sizes has, under every key, a tensor of the size stored in
    the checkpoint's state dict, and loading the checkpoint returns a model
    without raising. *)
Theorem C10_checkpoint_self_consistent (init : Init) (fs : Files) (path : string)
    (m : Network) :
  getitem (checkpoint m) "hidden_layers"
  = inr (PyIntList (map (fun each => Z.of_nat (out_features each)) (hidden_layers m))) /\
  (valid m = true -> input_size m = 784 -> output_size m = 10 ->
   (exists fresh,
      new_Network init 784 10 (map Z.of_nat (widths m)) = inr fresh /\
      shapes (state_dict fresh) = shapes (state_dict m)) /\
   (exists m', load_checkpoint init (save m path fs) path = inr m')).
Proof.
  split; [reflexivity|]. intros Hv Hi Ho. split.
  - assert (Hv' := Hv). unfold valid in Hv'.
    apply andb_true_iff in Hv'. destruct Hv' as [Hv' Hlast].
    apply andb_true_iff in Hv'. destruct Hv' as [Hchain Hwf].
    apply Nat.eqb_eq in Hlast.
    unfold widths. rewrite map_map.
    rewrite new_Network_positive;
      [| lia | lia | exact (chain_widths_positive _ _ Hchain)].
    eexists. split; [reflexivity|].
    rewrite to_nat_of_nat_widths.
    change (Z.to_nat 784) with 784. change (Z.to_nat 10) with 10.
    rewrite <- Hi, <- Ho. unfold widths in Hlast. rewrite <- Hlast.
    unfold state_dict. cbn [hidden_layers output]. rewrite !shapes_app.
    rewrite shapes_hidden_fresh by exact Hchain.
    unfold output_size. now rewrite shapes_linear_fresh.
  - exists (copy_network (5 / 10)%R m). now apply checkpoint_roundtrip.
Qed.

Lemma C10_checkpoint_self_consistent_witness :
  (exists fresh,
     new_Network zero_init 784 10 (map Z.of_nat (widths mnist_512)) = inr fresh /\
     shapes (state_dict fresh) = shapes (state_dict mnist_512)) /\
  exists m',
    load_checkpoint zero_init (save mnist_512 "checkpoint.pth" []) "checkpoint.pth"
    = inr m'.
Proof.
  apply (proj2 (C10_checkpoint_self_consistent zero_init [] "checkpoint.pth"
                  mnist_512));
    vm_compute; reflexivity.
Defined.

(** C10 as stated fails for a valid model whose input size is not 784:
    the state dict of [fc_model.Network(100, 10, [16])] stores a
    [[16, 100]] weight where the recorded sizes imply [[16, 784]], and
    loading the checkpoint raises with that size mismatch. *)
Lemma C10_counterexample_input_size_100 :
  new_Network zero_init 100 10 [16]%Z = inr narrow /\
  valid narrow = true /\
  lookup "hidden_layers.0.weight" (shapes (state_dict narrow)) = Some [16; 100] /\
  (exists fresh,
     new_Network zero_init 784 10 [16]%Z = inr fresh /\
     lookup "hidden_layers.0.weight" (shapes (state_dict fresh)) = Some [16; 784]) /\
  exists e,
    load_checkpoint zero_init (save narrow "checkpoint.pth" []) "checkpoint.pth"
    = inl e /\
    ArchitectureMismatch e = true.
Proof.
  split; [vm_compute; reflexivity|]. split; [vm_compute; reflexivity|].
  split; [vm_compute; reflexivity|]. split.
  - eexists. split; vm_compute; reflexivity.
  - exists (LoadStateDictError
              [SizeMismatch "hidden_layers.0.weight" [16; 784] [16; 100]]).
    split; vm_compute; reflexivity.
Qed.

(* ================================================================== *)
(** * The feed-forward classifier *)

(** The model of part 4 is a multilayer perceptron 784 -> 128 -> 64 -> 10,
    whatever the initial draw. *)
Lemma Part4_model_is_mlp init : is_mlp 784 10 (Part4.model init) = true.
Proof.
  unfold Part4.model. cbn [is_mlp].
  rewrite !new_Linear_wf by lia. reflexivity.
Qed.

(** Construction of a [Network] from positive dimensions succeeds and gives
    a valid model of the requested sizes. *)
Lemma new_hidden_chain init hs : forall j n_in,
  0 < n_in -> Forall (fun h => 0 < h) hs ->
  chain n_in (new_hidden init j n_in hs) = true /\
  map out_features (new_hidden init j n_in hs) = hs.
Proof.
  induction hs as [|h hs IH]; intros j n_in Hn Hh; [split; reflexivity|].
  inversion Hh as [|? ? Hh1 Hh2]; subst.
  cbn [new_hidden chain map].
  destruct (IH (S j) h Hh1 Hh2) as [Hc Hm].
  rewrite new_Linear_wf by assumption.
  change (in_features (new_Linear init (hidden_name j) n_in h)) with n_in.
  change (out_features (new_Linear init (hidden_name j) n_in h)) with h.
  rewrite Nat.eqb_refl, Hc, Hm. split; reflexivity.
Qed.

Lemma last_positive (hs : list nat) d :
  0 < d -> Forall (fun h => 0 < h) hs -> 0 < last hs d.
Proof.
  intros Hd Hh. induction Hh as [|h hs Hh1 Hh2 IH]; [exact Hd|].
  destruct hs; [exact Hh1|exact IH].
Qed.

Lemma new_Network_valid init n_in n_out hs :
  (0 < n_in)%Z -> (0 < n_out)%Z -> Forall (fun h => (0 < h)%Z) hs ->
  exists m,
    new_Network init n_in n_out hs = inr m /\
    valid m = true /\
    input_size m = Z.to_nat n_in /\
    output_size m = Z.to_nat n_out /\
    widths m = map Z.to_nat hs.
Proof.
  intros Hi Ho Hh. rewrite new_Network_positive by assumption.
  eexists. split; [reflexivity|].
  assert (Hi' : 0 < Z.to_nat n_in) by lia.
  assert (Ho' : 0 < Z.to_nat n_out) by lia.
  assert (Hh' : Forall (fun h => 0 < h) (map Z.to_nat hs)).
  { apply Forall_map. eapply Forall_impl; [|exact Hh]. simpl. lia. }
  destruct (new_hidden_chain init (map Z.to_nat hs) 0 (Z.to_nat n_in) Hi' Hh')
    as [Hc Hm].
  assert (His : input_size
                  {| hidden_layers := new_hidden init 0 (Z.to_nat n_in) (map Z.to_nat hs);
                     output := new_Linear init "output"
                                 (last (map Z.to_nat hs) (Z.to_nat n_in)) (Z.to_nat n_out);
                     dropout := (5 / 10)%R |} = Z.to_nat n_in).
  { unfold input_size. cbn [hidden_layers output].
    destruct (map Z.to_nat hs); reflexivity. }
  split; [|split; [exact His|split; [reflexivity|exact Hm]]].
  unfold valid. rewrite His. unfold widths. cbn [hidden_layers output].
  rewrite Hc, Hm.
  rewrite new_Linear_wf by (auto using last_positive).
  change (in_features (new_Linear init "output" (last (map Z.to_nat hs) (Z.to_nat n_in))
                         (Z.to_nat n_out)))
    with (last (map Z.to_nat hs) (Z.to_nat n_in)).
  now rewrite Nat.eqb_refl.
Qed.

(** C8.  Constructing a [Network] with an empty list of hidden widths and
    positive input and output sizes succeeds: the model has no hidden layer
    and its forward pass is the single affine map from input to output
    followed by log-softmax.  Constructing one with a non-positive input
    size, output size or hidden width fails with [InvalidArchitecture]. *)
Theorem C8_constructor (init : Init) (D_in D_out : Z) (hs : list Z) :
  ((0 < D_in)%Z -> (0 < D_out)%Z -> hs = [] ->
   exists m,
     new_Network init D_in D_out hs = inr m /\
     hidden_layers m = [] /\
     in_features (output m) = Z.to_nat D_in /\
     out_features (output m) = Z.to_nat D_out /\
     valid m = true /\
     forall mode x,
       fc_model.forward mode m x = (y <- linear (output m) x ;; log_softmax 1 y)) /\
  ((D_in <= 0)%Z \/ (D_out <= 0)%Z \/ Exists (fun h => (h <= 0)%Z) hs ->
   new_Network init D_in D_out hs = inl InvalidArchitecture).
Proof.
  split.
  - intros Hi Ho ->.
    destruct (new_Network_valid init D_in D_out [] Hi Ho (Forall_nil _))
      as (m & Hm & Hv & _).
    exists m. split; [exact Hm|].
    rewrite new_Network_positive in Hm by (auto using Forall_nil).
    injection Hm as <-. cbn [hidden_layers output map new_hidden last].
    repeat split; try reflexivity. exact Hv.
  - intros H. unfold new_Network.
    destruct H as [H|[H|H]].
    + apply Z.ltb_ge in H. now rewrite H.
    + apply Z.ltb_ge in H. rewrite H. now rewrite andb_false_r.
    + assert (Hf : forallb (fun h => (0 <? h)%Z) hs = false).
      { apply Exists_exists in H. destruct H as (h & Hin & Hle).
        destruct (forallb (fun h => (0 <? h)%Z) hs) eqn:E; [|reflexivity].
        rewrite forallb_forall in E. specialize (E h Hin).
        apply Z.ltb_lt in E. lia. }
      rewrite Hf. now rewrite andb_false_r.
Qed.

Lemma C8_constructor_witness :
  (exists m,
     new_Network zero_init 784 10 [] = inr m /\
     hidden_layers m = [] /\
     in_features (output m) = 784 /\
     out_features (output m) = 10 /\
     valid m = true /\
     forall mode x,
       fc_model.forward mode m x = (y <- linear (output m) x ;; log_softmax 1 y)) /\
  new_Network zero_init 784 10 [512; 0; 128]%Z = inl InvalidArchitecture /\
  new_Network zero_init (-1) 10 [512]%Z = inl InvalidArchitecture /\
  new_Network zero_init 784 0 []%Z = inl InvalidArchitecture.
Proof.
  split; [|split; [|split]].
  - apply (proj1 (C8_constructor zero_init 784 10 [])); [lia | lia | reflexivity].
  - apply (proj2 (C8_constructor zero_init 784 10 [512; 0; 128]%Z)).
    right; right. apply Exists_cons_tl, Exists_cons_hd. lia.
  - apply (proj2 (C8_constructor zero_init (-1) 10 [512]%Z)). left. lia.
  - apply (proj2 (C8_constructor zero_init 784 0 []%Z)). right; left. lia.
Defined.

(* ================================================================== *)
(** * The training loop *)

(** Evaluate the program and leave the real-number expressions as they
    are. *)
Ltac run :=
  cbv -[exp ln Rmax Rdiv Rminus Rplus Rmult Ropp Rinv INR IZR].

(** C5.  [optimizer.step()] keeps the list of parameters; a parameter
    without a gradient is left as it is; for a parameter with a gradient of
    its shape, every entry becomes the entry minus the learning rate times
    the gradient's entry, the shape is kept, and the stored gradient is
    unchanged. *)
Theorem C5_sgd_step (optimizer : SGD) (model : Sequential) :
  length (parameters (step optimizer model)) = length (parameters model) /\
  forall k p,
    nth_error (parameters model) k = Some p ->
    exists p',
      nth_error (parameters (step optimizer model)) k = Some p' /\
      grad p' = grad p /\
      (grad p = None -> data p' = data p) /\
      (forall g, grad p = Some g -> same_shape (data p) g = true ->
         same_shape (data p') (data p) = true /\
         forall i j, in_range (data p) i j = true ->
           entry (data p') i j
           = (entry (data p) i j - lr optimizer * entry g i j)%R).
Proof.
  rewrite parameters_step. split; [apply length_map|].
  intros k p Hk. exists (step_param (lr optimizer) p). split.
  - now apply map_nth_error.
  - unfold step_param. destruct (grad p) as [g|] eqn:Eg; cbn [data grad].
    + split; [reflexivity|]. split; [discriminate|].
      intros g' Hg' Hs. injection Hg' as <-. split.
      * now apply same_shape_tmap2.
      * intros i j Hr. rewrite entry_tmap2 by assumption. lra.
    + split; [exact Eg|]. split; [reflexivity|]. discriminate.
Qed.

Lemma C5_sgd_step_witness :
  exists p',
    nth_error (parameters (step toy_sgd toy_with_grad)) 0 = Some p' /\
    grad p' = Some (Mat [[1%R]]) /\
    entry (data p') 0 0 = (2 - 3 / 1000 * 1)%R.
Proof.
  destruct (proj2 (C5_sgd_step toy_sgd toy_with_grad) 0
              {| data := Mat [[2%R]]; grad := Some (Mat [[1%R]]) |} eq_refl)
    as (p' & Hn & Hg & _ & Hd).
  exists p'. split; [exact Hn|]. split; [exact Hg|].
  apply (proj2 (Hd (Mat [[1%R]]) eq_refl eq_refl) 0 0 eq_refl).
Defined.

(** C6.  [optimizer.zero_grad()] keeps every parameter's values and leaves
    no non-zero entry in any stored gradient.  In a training iteration that
    completes, whatever gradients the parameters carried on entry, each
    parameter ends with exactly the gradient that the engine computes for
    the current values and the current batch, and its values are updated
    with that gradient alone. *)
Theorem C6_gradient_is_current_batch_only
    (autograd : Autograd) (optimizer : SGD) (model : Sequential) :
  (forall k p,
     nth_error (parameters model) k = Some p ->
     exists p0,
       nth_error (parameters (zero_grad model)) k = Some p0 /\
       data p0 = data p /\
       forall z, grad p0 = Some z -> forall i j, entry z i j = 0%R) /\
  (forall images labels model' loss,
     train_step autograd optimizer model (images, labels) = inr (model', loss) ->
     length (autograd (map data (parameters model)) (view_flat images, labels))
     = length (parameters model) ->
     forall k p g,
       nth_error (parameters model) k = Some p ->
       nth_error (autograd (map data (parameters model)) (view_flat images, labels)) k
       = Some g ->
       same_shape (data p) g = true ->
       (forall stale, grad p = Some stale -> same_shape stale g = true) ->
       exists p',
         nth_error (parameters model') k = Some p' /\
         grad p' = Some g /\
         forall i j, in_range (data p) i j = true ->
           entry (data p') i j
           = (entry (data p) i j - lr optimizer * entry g i j)%R).
Proof.
  split.
  - intros k p Hk. exists (zero_grad_param p). split; [|split].
    + rewrite parameters_zero_grad. now apply map_nth_error.
    + reflexivity.
    + unfold zero_grad_param. cbn [grad]. intros z Hz i j.
      destruct (grad p) as [old|]; cbn [option_map] in Hz; [|discriminate].
      injection Hz as <-. apply entry_zeroed.
  - intros images labels model' loss Hstep Hlen k p g Hk Hg Hshape Hstale.
    unfold train_step in Hstep.
    destruct (nn.forward (zero_grad model) (view_flat images)) as [e|output];
      cbn [bind] in Hstep; [discriminate|].
    destruct (criterion output labels) as [e|l]; cbn [bind ret] in Hstep;
      [discriminate|].
    injection Hstep as <- _.
    rewrite parameters_step, parameters_backward;
      rewrite data_zero_grad, parameters_zero_grad;
      [|now rewrite length_map].
    eexists. split.
    + apply map_nth_error. eapply nth_error_zip_with; [|exact Hg].
      apply map_nth_error. exact Hk.
    + rewrite accumulate_zeroed by exact Hstale.
      unfold step_param. cbn [data grad]. split; [reflexivity|].
      intros i j Hr. rewrite entry_tmap2 by assumption. lra.
Qed.

Lemma C6_gradient_is_current_batch_only_witness :
  exists model' loss p',
    train_step toy_autograd toy_sgd toy_with_grad one_pixel_batch = inr (model', loss) /\
    nth_error (parameters model') 0 = Some p' /\
    grad p' = Some (Mat [[2%R]]) /\
    entry (data p') 0 0 = (2 - 3 / 1000 * 2)%R.
Proof.
  assert (H : {r | train_step toy_autograd toy_sgd toy_with_grad one_pixel_batch = inr r})
    by (eexists; run; reflexivity).
  destruct H as [[model' loss] H].
  destruct (proj2 (C6_gradient_is_current_batch_only toy_autograd toy_sgd toy_with_grad)
              [[[[5%R]]]] [0] model' loss H eq_refl
              0 {| data := Mat [[2%R]]; grad := Some (Mat [[1%R]]) |} (Mat [[2%R]])
              eq_refl eq_refl eq_refl)
    as (p' & Hn & Hg & Hd).
  { intros stale Hs. injection Hs as <-. reflexivity. }
  exists model', loss, p'. split; [exact H|]. split; [exact Hn|].
  split; [exact Hg|]. apply (Hd 0 0 eq_refl).
Defined.

(** C4.  An epoch of the training loop returns what the pass over the
    loader returns, with the printed loss equal to the batch losses added
    one after the other onto an accumulator that starts at 0, divided by
    [len(trainloader)]; the pass yields [len(trainloader)] losses when the
    shuffled order covers the dataset; and in a run of several epochs the
    [k]-th printed value is that quotient for the losses of the [k]-th epoch
    alone, taken from the model that the first [k] epochs produced. *)
Theorem C4_running_loss
    (autograd : Autograd) (optimizer : SGD) (trainloader : DataLoader)
    (shuffle : nat -> list nat) :
  (forall e model,
     train_epoch autograd optimizer trainloader shuffle e model
     = (r <- batch_losses autograd optimizer model (iter trainloader (shuffle e)) ;;
        if len trainloader =? 0 then raise ZeroDivisionError
        else ret (fst r, (fold_left Rplus (snd r) 0 / INR (len trainloader))%R))) /\
  (forall e model model' losses,
     0 < batch_size trainloader ->
     length (shuffle e) = length (dataset trainloader) ->
     batch_losses autograd optimizer model (iter trainloader (shuffle e))
     = inr (model', losses) ->
     length losses = len trainloader) /\
  (forall epochs e model model' printed,
     train autograd optimizer trainloader shuffle epochs e model = inr (model', printed) ->
     length printed = epochs /\
     forall k, k < epochs ->
       exists m_k m_k' losses,
         train autograd optimizer trainloader shuffle k e model
         = inr (m_k, firstn k printed) /\
         batch_losses autograd optimizer m_k (iter trainloader (shuffle (e + k)))
         = inr (m_k', losses) /\
         nth k printed 0%R = (fold_left Rplus losses 0 / INR (len trainloader))%R).
Proof.
  split; [|split].
  - apply train_epoch_losses.
  - intros e model model' losses Hbs Hlen H.
    rewrite (batch_losses_length _ _ _ _ _ _ H). now apply iter_length.
  - induction epochs as [|n IH]; intros e model model' printed H.
    + cbn in H. injection H as _ <-. split; [reflexivity|]. intros k Hk. lia.
    + cbn [train] in H.
      destruct (train_epoch autograd optimizer trainloader shuffle e model)
        as [err|[m1 avg]] eqn:E1; cbn [bind fst snd] in H; [discriminate|].
      destruct (train autograd optimizer trainloader shuffle n (S e) m1)
        as [err|[m2 rest]] eqn:E2; cbn [bind fst snd ret] in H; [discriminate|].
      injection H as <- <-.
      destruct (IH (S e) m1 m2 rest E2) as [Hl Hk]. split; [simpl; now rewrite Hl|].
      intros [|k] Hlt.
      * destruct (train_epoch_inv _ _ _ _ _ _ _ _ E1) as (losses & Hb & Ha).
        exists model, m1, losses. split; [reflexivity|].
        rewrite Nat.add_0_r. auto.
      * destruct (Hk k ltac:(lia)) as (m_k & m_k' & losses & Ht & Hb & Ha).
        exists m_k, m_k', losses. split; [|split].
        -- cbn [train firstn]. rewrite E1. cbn [bind fst snd]. rewrite Ht.
           reflexivity.
        -- replace (e + S k) with (S e + k) by lia. exact Hb.
        -- exact Ha.
Qed.

Lemma C4_running_loss_witness :
  exists model' printed,
    train toy_autograd toy_sgd toy_loader toy_shuffle 2 0 toy_model
    = inr (model', printed) /\
    length printed = 2 /\
    exists m_1 m_1' losses,
      train toy_autograd toy_sgd toy_loader toy_shuffle 1 0 toy_model
      = inr (m_1, firstn 1 printed) /\
      batch_losses toy_autograd toy_sgd m_1 (iter toy_loader (toy_shuffle 1))
      = inr (m_1', losses) /\
      nth 1 printed 0%R = (fold_left Rplus losses 0 / INR (len toy_loader))%R /\
      length losses = len toy_loader.
Proof.
  assert (H : {r | train toy_autograd toy_sgd toy_loader toy_shuffle 2 0 toy_model = inr r})
    by (eexists; run; reflexivity).
  destruct H as [[model' printed] H].
  pose proof (C4_running_loss toy_autograd toy_sgd toy_loader toy_shuffle)
    as (_ & Hlen & Hrun).
  destruct (Hrun 2 0 toy_model model' printed H) as [Hl Hk].
  destruct (Hk 1 ltac:(lia)) as (m_1 & m_1' & losses & Ht & Hb & Ha).
  exists model', printed. split; [exact H|]. split; [exact Hl|].
  exists m_1, m_1', losses. split; [exact Ht|]. split; [exact Hb|].
  split; [exact Ha|].
  apply (Hlen 1 m_1 m_1' losses); [simpl; lia | reflexivity | exact Hb].
Defined.

(* ================================================================== *)
(** * The model against the notebooks' printed outputs *)

(** The keys that the notebook prints for the state dict of
    [fc_model.Network(784, 10, [512, 256, 128])]. *)
Example state_dict_keys_printed :
  keys (state_dict mnist_512)
  = ["hidden_layers.0.weight"; "hidden_layers.0.bias";
     "hidden_layers.1.weight"; "hidden_layers.1.bias";
     "hidden_layers.2.weight"; "hidden_layers.2.bias";
     "output.weight"; "output.bias"]%string.
Proof. vm_compute. reflexivity. Qed.

(** The single training step of the "Training Neural Networks" notebook
    ([lr=0.01]): from the first entries of three printed rows of the initial
    weights and of the gradient, the step gives the printed updated weights
    up to the printed precision. *)
Example sgd_step_matches_printed_weights :
  let p := {| data := Vec [(-14681 / 1000000)%R; (-41686 / 10000000)%R;
                           (12855 / 1000000)%R];
              grad := Some (Vec [(-27 / 1000000)%R; (-263 / 1000000)%R;
                                 (-4548 / 1000000)%R]) |} in
  let p' := step_param (1 / 100)%R p in
  (Rabs (entry (data p') 0 0 - -14681 / 1000000) <= 1 / 1000000)%R /\
  (Rabs (entry (data p') 1 0 - -41660 / 10000000) <= 1 / 1000000)%R /\
  (Rabs (entry (data p') 2 0 - 12900 / 1000000) <= 1 / 1000000)%R.
Proof.
  run. repeat split; apply Rabs_le; lra.
Qed.

(** Without zeroing, a backward pass adds its gradient onto the stored
    one. *)
Example backward_accumulates :
  grad (accumulate {| data := Vec [1%R]; grad := Some (Vec [2%R]) |} (Vec [3%R]))
  = Some (Vec [(2 + 3)%R]).
Proof. reflexivity. Qed.

(** Three samples in batches of two: two batches, the last one short. *)
Example toy_loader_batches :
  len toy_loader = 2 /\
  iter toy_loader [2; 0; 1]
  = [([[[[5%R; 6%R]]]; [[[1%R; 2%R]]]], [0; 0]);
     ([[[[3%R; 4%R]]]], [1])].
Proof. split; reflexivity. Qed.

(** [LogSoftmax(dim=0)] works on the columns. *)
Example transpose_2_by_3 :
  transpose 3 [[1%R; 2%R; 3%R]; [4%R; 5%R; 6%R]]
  = [[1%R; 4%R]; [2%R; 5%R]; [3%R; 6%R]].
Proof. reflexivity. Qed.

(** Passing the whole checkpoint [dict] to [load_state_dict] raises that
    method's error, with no size mismatch in it: every parameter of the
    model is missing and the entries of the [dict] are unexpected. *)
Example checkpoint_dict_is_not_a_state_dict :
  exists unexpected,
    load_into_400_200_100 zero_init (save mnist_small "checkpoint.pth" [])
      "checkpoint.pth"
    = inl (LoadStateDictError
             [MissingKeys ["hidden_layers.0.weight"; "hidden_layers.0.bias";
                           "hidden_layers.1.weight"; "hidden_layers.1.bias";
                           "hidden_layers.2.weight"; "hidden_layers.2.bias";
                           "output.weight"; "output.bias"]%string;
              UnexpectedKeys unexpected]).
Proof. eexists. vm_compute. reflexivity. Qed.

(** [NLLLoss] at its edges: a label that is not a class index, labels that
    are not as many as the rows, and the empty batch. *)
Example NLLLoss_edges :
  NLLLoss [[0%R; 0%R]] [5] = inl IndexError /\
  NLLLoss [[0%R; 0%R]] [] = inl DimensionMismatch /\
  NLLLoss [] [] = inl NotANumber.
Proof. repeat split; vm_compute; reflexivity. Qed.

(* ================================================================== *)
(** * Further properties of the checkpoint cells *)

(** ** Loading values into a model whose tensors have the stored sizes *)

Lemma load_param_values sd name p t :
  lookup name sd = Some t -> size t = size (data p) ->
  load_param sd name p = ({| data := t; grad := grad p |}, ([], [])).
Proof.
  intros Hl Hs. unfold load_param. rewrite Hl, Hs, list_eqb_refl. reflexivity.
Qed.

Lemma load_linear_values sd name f m :
  lookup (weight_key name) sd = Some (data (weight m)) ->
  lookup (bias_key name) sd = Some (data (bias m)) ->
  same_sizes f m ->
  load_linear sd name f = (take_linear f m, ([], [])).
Proof.
  intros Hw Hb [Sw Sb]. unfold load_linear.
  rewrite (load_param_values sd _ (weight f) _ Hw Sw).
  rewrite (load_param_values sd _ (bias f) _ Hb Sb).
  reflexivity.
Qed.

Lemma load_hidden_values sd : forall fs ms j,
  Forall2 same_sizes fs ms ->
  (forall i m, nth_error ms i = Some m ->
     lookup (weight_key (hidden_name (j + i))) sd = Some (data (weight m)) /\
     lookup (bias_key (hidden_name (j + i))) sd = Some (data (bias m))) ->
  load_hidden sd j fs = (zip_with take_linear fs ms, ([], [])).
Proof.
  intros fs ms j HF. revert j.
  induction HF as [|f m fs ms Hfm HF IH]; intros j Hl; [reflexivity|].
  cbn [load_hidden zip_with].
  destruct (Hl 0 m eq_refl) as [Hw Hb]. rewrite Nat.add_0_r in Hw, Hb.
  rewrite (load_linear_values sd _ f m Hw Hb Hfm).
  rewrite (IH (S j)).
  - reflexivity.
  - intros i m' Hn. replace (S j + i) with (j + S i) by lia. now apply Hl.
Qed.

Lemma state_dict_lookups m : forall i l,
  nth_error (hidden_layers m) i = Some l ->
  lookup (weight_key (hidden_name (0 + i))) (state_dict m) = Some (data (weight l)) /\
  lookup (bias_key (hidden_name (0 + i))) (state_dict m) = Some (data (bias l)).
Proof.
  intros i l Hn. unfold state_dict. split.
  - now apply lookup_hidden_weight.
  - now apply lookup_hidden_bias.
Qed.

Lemma keys_state_dict_length f m :
  length (hidden_layers f) = length (hidden_layers m) ->
  keys (state_dict f) = keys (state_dict m).
Proof.
  intros H. unfold state_dict, keys. rewrite !map_app. f_equal.
  now apply keys_hidden_state.
Qed.

Lemma load_hidden_state_dict f m :
  Forall2 same_sizes (hidden_layers f) (hidden_layers m) ->
  load_hidden (state_dict m) 0 (hidden_layers f)
  = (zip_with take_linear (hidden_layers f) (hidden_layers m), ([], [])).
Proof.
  intros H. apply load_hidden_values; [exact H|]. apply state_dict_lookups.
Qed.

Lemma load_output_state_dict f m :
  same_sizes (output f) (output m) ->
  load_linear (state_dict m) "output" (output f)
  = (take_linear (output f) (output m), ([], [])).
Proof.
  intros H. destruct (state_dict_output m) as [Hw Hb].
  now apply load_linear_values.
Qed.

(** When every tensor of the model has the size stored under its name, and
    the stored dict comes from a model with as many hidden layers, loading
    copies all values and reports nothing. *)
Lemma load_state_dict_values f m :
  Forall2 same_sizes (hidden_layers f) (hidden_layers m) ->
  same_sizes (output f) (output m) ->
  load_state_dict f (state_dict m) = inr (take_network f m) /\
  after_load_state_dict f (state_dict m) = take_network f m.
Proof.
  intros Hh Ho. unfold load_state_dict, after_load_state_dict.
  rewrite (load_hidden_state_dict f m Hh), (load_output_state_dict f m Ho).
  rewrite (keys_state_dict_length f m (Forall2_length Hh)).
  rewrite no_unexpected by apply incl_refl.
  split; reflexivity.
Qed.

Lemma take_linear_self l : take_linear l l = l.
Proof. destruct l as [i o [wd wg] [bd bg]]. reflexivity. Qed.

Lemma zip_with_take_self ls : zip_with take_linear ls ls = ls.
Proof.
  induction ls as [|l ls IH]; [reflexivity|].
  cbn [zip_with]. now rewrite take_linear_self, IH.
Qed.

Lemma take_network_self m : take_network m m = m.
Proof.
  destruct m as [hs o p]. unfold take_network. cbn [hidden_layers output dropout].
  now rewrite zip_with_take_self, take_linear_self.
Qed.

Lemma same_sizes_refl_all ls : Forall2 same_sizes ls ls.
Proof. induction ls; constructor; auto. split; reflexivity. Qed.

(** X1.  Saving a model's state dict to the file, loading the file and
    loading the dict into the same model raises nothing and leaves the model
    as it was, for every model. *)
Theorem own_state_dict_reloads (s : Session) :
  run_cells [cell_save_state_dict; cell_load_state_dict; cell_apply_state_dict] s
  = ({| var_model := var_model s;
        var_state_dict := Some (Plain (PyStateDict (state_dict (var_model s))));
        disk := torch_save (Plain (PyStateDict (state_dict (var_model s))))
                  "checkpoint.pth" (disk s) |},
     [None; None; None]).
Proof.
  unfold run_cells, cell_save_state_dict, cell_load_state_dict,
    cell_apply_state_dict.
  cbn [var_model var_state_dict disk]. rewrite torch_load_saved.
  unfold call_load_state_dict. cbn [var_model var_state_dict disk as_mapping].
  unfold ret.
  destruct (load_state_dict_values (var_model s) (var_model s)
              (same_sizes_refl_all _) (conj eq_refl eq_refl)) as [H1 H2].
  rewrite H1, H2, take_network_self. reflexivity.
Qed.

(** ** State dicts of models of the same topology *)

Lemma chain_wf ls : forall n_in i l,
  chain n_in ls = true -> nth_error ls i = Some l -> wf_linear l = true.
Proof.
  induction ls as [|a ls IH]; intros n_in i l Hc Hn; [destruct i; discriminate|].
  cbn [chain] in Hc.
  apply andb_true_iff in Hc. destruct Hc as [Hc Hrest].
  apply andb_true_iff in Hc. destruct Hc as [Hwf _].
  destruct i as [|i]; simpl in Hn.
  - now injection Hn as <-.
  - eapply IH; eauto.
Qed.

Lemma valid_inv m :
  valid m = true ->
  chain (input_size m) (hidden_layers m) = true /\
  wf_linear (output m) = true /\
  in_features (output m) = last (widths m) (input_size m).
Proof.
  unfold valid. intros H.
  apply andb_true_iff in H. destruct H as [H H3].
  apply andb_true_iff in H. destruct H as [H1 H2].
  apply Nat.eqb_eq in H3. auto.
Qed.

Lemma same_sizes_of_widths f m :
  wf_linear f = true -> wf_linear m = true ->
  in_features f = in_features m -> out_features f = out_features m ->
  same_sizes f m.
Proof.
  intros Hf Hm Hi Ho.
  destruct (wf_linear_sizes f Hf) as [Fw Fb].
  destruct (wf_linear_sizes m Hm) as [Mw Mb].
  unfold same_sizes. rewrite Fw, Fb, Mw, Mb, Hi, Ho. auto.
Qed.

Lemma widths_of_same_sizes f m :
  wf_linear f = true -> wf_linear m = true -> same_sizes f m ->
  in_features f = in_features m /\ out_features f = out_features m.
Proof.
  intros Hf Hm [Sw Sb].
  destruct (wf_linear_sizes f Hf) as [Fw Fb].
  destruct (wf_linear_sizes m Hm) as [Mw Mb].
  rewrite Fw, Mw in Sw. injection Sw as -> ->. auto.
Qed.

Lemma same_topology_sizes fs : forall ms n n',
  chain n fs = true -> chain n' ms = true ->
  map io fs = map io ms ->
  Forall2 same_sizes fs ms.
Proof.
  induction fs as [|f fs IH]; intros [|m ms] n n' Hf Hm He; try discriminate;
    [constructor|].
  cbn [chain] in Hf, Hm.
  apply andb_true_iff in Hf. destruct Hf as [Hf Hfr].
  apply andb_true_iff in Hf. destruct Hf as [Hfw _].
  apply andb_true_iff in Hm. destruct Hm as [Hm Hmr].
  apply andb_true_iff in Hm. destruct Hm as [Hmw _].
  cbn [map] in He. injection He as Hi Ho He.
  constructor.
  - now apply same_sizes_of_widths.
  - eapply IH; eauto.
Qed.

Lemma linear_take f m x : linear (take_linear f m) x = linear m x.
Proof. reflexivity. Qed.

Lemma forward_hidden_take mode : forall fs ms k x,
  length fs = length ms ->
  forward_hidden mode k (zip_with take_linear fs ms) x = forward_hidden mode k ms x.
Proof.
  induction fs as [|f fs IH]; intros [|m ms] k x H; try discriminate;
    [reflexivity|].
  cbn [zip_with forward_hidden]. rewrite linear_take.
  destruct (linear m x) as [e|y]; cbn [bind]; [reflexivity|].
  apply IH. simpl in H. lia.
Qed.

Lemma hidden_state_take : forall fs ms j,
  length fs = length ms ->
  hidden_state j (zip_with take_linear fs ms) = hidden_state j ms.
Proof.
  induction fs as [|f fs IH]; intros [|m ms] j H; try discriminate;
    [reflexivity|].
  cbn [zip_with hidden_state]. rewrite IH by (simpl in H; lia). reflexivity.
Qed.

Lemma load_same_topology (f m : Network) :
  valid f = true -> valid m = true -> topology f = topology m ->
  load_state_dict f (state_dict m) = inr (take_network f m) /\
  length (hidden_layers f) = length (hidden_layers m).
Proof.
  intros Hf Hm Ht.
  destruct (valid_inv f Hf) as (Hfc & Hfo & _).
  destruct (valid_inv m Hm) as (Hmc & Hmo & _).
  unfold topology in Ht. injection Ht as Hh Hi Ho.
  assert (HF : Forall2 same_sizes (hidden_layers f) (hidden_layers m))
    by (eapply same_topology_sizes; eauto).
  assert (HO : same_sizes (output f) (output m))
    by (now apply same_sizes_of_widths).
  split; [apply (load_state_dict_values f m HF HO)|].
  eapply Forall2_length; eauto.
Qed.

(** X2.  Loading the state dict of a valid model into any valid model of
    the same topology, whatever the sizes, returns a model with the saved
    state dict whose forward pass is the saved model's. *)
Theorem same_topology_loads (f m : Network) :
  valid f = true -> valid m = true -> topology f = topology m ->
  exists m',
    load_state_dict f (state_dict m) = inr m' /\
    state_dict m' = state_dict m /\
    topology m' = topology m /\
    forall mode x, fc_model.forward mode m' x = fc_model.forward mode m x.
Proof.
  intros Hf Hm Ht.
  destruct (load_same_topology f m Hf Hm Ht) as [Hload HL].
  unfold topology in Ht. injection Ht as Hh Hi Ho.
  exists (take_network f m). split; [exact Hload|split; [|split]].
  - unfold state_dict, take_network. cbn [hidden_layers output].
    now rewrite hidden_state_take.
  - unfold topology, take_network. cbn [hidden_layers output take_linear
      in_features out_features].
    rewrite <- Hi, <- Ho. f_equal. rewrite <- Hh.
    clear -HL. revert HL. generalize (hidden_layers m).
    induction (hidden_layers f) as [|a fs IH]; intros [|b ms] H;
      try discriminate; [reflexivity|].
    cbn [zip_with map]. f_equal. apply IH. simpl in H. lia.
  - intros mode x. unfold fc_model.forward, take_network.
    cbn [hidden_layers output]. rewrite forward_hidden_take by exact HL.
    destruct (forward_hidden mode 0 (hidden_layers m) x) as [e|h]; reflexivity.
Qed.

Lemma same_topology_loads_witness :
  exists m',
    load_state_dict tiny (state_dict tiny) = inr m' /\
    state_dict m' = state_dict tiny /\
    topology m' = topology tiny /\
    forall mode x, fc_model.forward mode m' x = fc_model.forward mode tiny x.
Proof.
  apply (same_topology_loads tiny tiny); vm_compute; reflexivity.
Defined.

(** ** A load that raises nothing found every tensor with the right size *)

Lemma log_app_nil (a b : LoadLog) :
  log_app a b = ([], []) -> a = ([], []) /\ b = ([], []).
Proof.
  destruct a as [a1 a2], b as [b1 b2]. unfold log_app. cbn [fst snd].
  intros H. injection H as H1 H2.
  apply app_eq_nil in H1, H2. destruct H1 as [-> ->], H2 as [-> ->]. auto.
Qed.

Lemma load_param_clean sd name p :
  snd (load_param sd name p) = ([], []) ->
  exists t, lookup name sd = Some t /\ size t = size (data p).
Proof.
  unfold load_param. destruct (lookup name sd) as [t|]; [|discriminate].
  destruct (list_eqb (size t) (size (data p))) eqn:E; [|discriminate].
  intros _. exists t. split; [reflexivity|]. now apply list_eqb_eq.
Qed.

Lemma load_linear_clean sd name l :
  snd (load_linear sd name l) = ([], []) ->
  exists t, lookup (weight_key name) sd = Some t /\
            size t = size (data (weight l)).
Proof.
  unfold load_linear.
  destruct (load_param sd (weight_key name) (weight l)) as [w lw] eqn:Ew.
  destruct (load_param sd (bias_key name) (bias l)) as [b lb] eqn:Eb.
  cbn [snd]. intros H. apply log_app_nil in H. destruct H as [-> _].
  apply load_param_clean. now rewrite Ew.
Qed.

Lemma load_hidden_clean sd : forall ls j,
  snd (load_hidden sd j ls) = ([], []) ->
  forall i l, nth_error ls i = Some l ->
  exists t, lookup (weight_key (hidden_name (j + i))) sd = Some t /\
            size t = size (data (weight l)).
Proof.
  induction ls as [|a ls IH]; intros j H i l Hn; [destruct i; discriminate|].
  cbn [load_hidden] in H.
  destruct (load_linear sd (hidden_name j) a) as [a' la] eqn:Ea.
  destruct (load_hidden sd (S j) ls) as [ls' lls] eqn:El.
  cbn [snd] in H. apply log_app_nil in H. destruct H as [-> ->].
  destruct i as [|i]; simpl in Hn.
  - injection Hn as <-. rewrite Nat.add_0_r.
    apply load_linear_clean. now rewrite Ea.
  - replace (j + S i) with (S j + i) by lia.
    apply (IH (S j)); [now rewrite El|exact Hn].
Qed.

Lemma load_state_dict_clean f sd m' :
  load_state_dict f sd = inr m' ->
  snd (load_hidden sd 0 (hidden_layers f)) = ([], []) /\
  snd (load_linear sd "output" (output f)) = ([], []) /\
  filter (fun k => negb (mem k (keys (state_dict f)))) (keys sd) = [].
Proof.
  unfold load_state_dict.
  destruct (load_hidden sd 0 (hidden_layers f)) as [h [h1 h2]].
  destruct (load_linear sd "output" (output f)) as [o [o1 o2]].
  unfold log_app. cbn [fst snd].
  destruct (h2 ++ o2) as [|k2 r2] eqn:E2.
  - destruct (filter (fun k => negb (mem k (keys (state_dict f)))) (keys sd))
      as [|u us] eqn:Eu.
    + cbn [app]. destruct (h1 ++ o1) as [|k1 r1] eqn:E1; [|discriminate].
      intros _. apply app_eq_nil in E1, E2.
      destruct E1 as [-> ->], E2 as [-> ->]. auto.
    + discriminate.
  - discriminate.
Qed.

Lemma lookup_hidden_weight_inv ls : forall j k rest t,
  lookup (weight_key (hidden_name k)) (hidden_state j ls ++ rest) = Some t ->
  (exists i l, k = j + i /\ nth_error ls i = Some l /\ t = data (weight l)) \/
  lookup (weight_key (hidden_name k)) rest = Some t.
Proof.
  induction ls as [|a ls IH]; intros j k rest t H; [now right|].
  cbn [hidden_state linear_state app lookup] in H.
  rewrite eqb_weight_weight, eqb_weight_bias in H.
  destruct (Nat.eqb_spec k j) as [->|Hne].
  - injection H as <-. left. exists 0, a. rewrite Nat.add_0_r. auto.
  - destruct (IH (S j) k rest t H) as [(i & l & -> & Hn & ->)|Hr]; [|now right].
    left. exists (S i), l. split; [lia|]. auto.
Qed.

Lemma lookup_hidden_in_output k o :
  lookup (weight_key (hidden_name k)) (linear_state "output" o) = None.
Proof. reflexivity. Qed.

Lemma state_dict_hidden_weight_inv m k t :
  lookup (weight_key (hidden_name k)) (state_dict m) = Some t ->
  exists l, nth_error (hidden_layers m) k = Some l /\ t = data (weight l).
Proof.
  unfold state_dict. intros H.
  apply lookup_hidden_weight_inv in H.
  destruct H as [(i & l & -> & Hn & ->)|H].
  - exists l. auto.
  - rewrite lookup_hidden_in_output in H. discriminate.
Qed.

Lemma filter_nil_inv {A} (f : A -> bool) l :
  filter f l = [] -> forall x, In x l -> f x = false.
Proof.
  induction l as [|a l IH]; intros H x Hx; [destruct Hx|].
  simpl in H. destruct (f a) eqn:E; [discriminate|].
  destruct Hx as [<-|Hx]; auto.
Qed.

Lemma mem_lookup {V} k (d : Dict V) :
  mem k (keys d) = true -> exists v, lookup k d = Some v.
Proof.
  induction d as [|[k' v'] d IH]; [discriminate|].
  unfold mem, keys. cbn [map fst existsb lookup].
  destruct (String.eqb k k'); [intros _; eauto|]. exact IH.
Qed.

Lemma lookup_in_keys {V} k (d : Dict V) v : lookup k d = Some v -> In k (keys d).
Proof.
  induction d as [|[k' v'] d IH]; [discriminate|].
  cbn [lookup keys map fst]. destruct (String.eqb_spec k k') as [->|Hne].
  - intros _. now left.
  - intros H. right. now apply IH.
Qed.

Lemma widths_of_weight_size f m :
  wf_linear f = true -> wf_linear m = true ->
  size (data (weight m)) = size (data (weight f)) -> io f = io m.
Proof.
  intros Hf Hm Sw.
  destruct (wf_linear_sizes f Hf) as [Fw _].
  destruct (wf_linear_sizes m Hm) as [Mw _].
  rewrite Fw, Mw in Sw. injection Sw as Ho Hi. unfold io. congruence.
Qed.

(** X3.  For valid models, loading the state dict of one into the other
    succeeds exactly when the two have the same topology: the same number of
    hidden layers and the same widths throughout. *)
Theorem loads_iff_same_topology (f m : Network) :
  valid f = true -> valid m = true ->
  ((exists m', load_state_dict f (state_dict m) = inr m')
   <-> topology f = topology m).
Proof.
  intros Hf Hm. split.
  2:{ intros Ht. destruct (load_same_topology f m Hf Hm Ht) as [H _].
      now exists (take_network f m). }
  intros [m' H].
  destruct (valid_inv f Hf) as (Hfc & Hfo & _).
  destruct (valid_inv m Hm) as (Hmc & Hmo & _).
  destruct (load_state_dict_clean f _ m' H) as (Hh & Ho & Hu).
  unfold topology. f_equal.
  - apply nth_error_ext. intros n. rewrite !nth_error_map.
    destruct (nth_error (hidden_layers f) n) as [lf|] eqn:Ef;
      destruct (nth_error (hidden_layers m) n) as [lm|] eqn:Em; cbn [option_map].
    + f_equal.
      destruct (load_hidden_clean _ _ 0 Hh n lf Ef) as (t & Hl & Hs).
      cbn [Nat.add] in Hl.
      destruct (state_dict_hidden_weight_inv m n t Hl) as (l & Hn & ->).
      rewrite Em in Hn. injection Hn as <-.
      apply widths_of_weight_size; eauto using chain_wf.
    + exfalso.
      destruct (load_hidden_clean _ _ 0 Hh n lf Ef) as (t & Hl & _).
      cbn [Nat.add] in Hl.
      destruct (state_dict_hidden_weight_inv m n t Hl) as (l & Hn & _).
      congruence.
    + exfalso.
      destruct (state_dict_lookups m n lm Em) as [Hl _]. cbn [Nat.add] in Hl.
      apply lookup_in_keys in Hl.
      pose proof (filter_nil_inv _ _ Hu _ Hl) as Hmem.
      apply negb_false_iff in Hmem. apply mem_lookup in Hmem.
      destruct Hmem as [v Hv].
      destruct (state_dict_hidden_weight_inv f n v Hv) as (l & Hn & _).
      congruence.
    + reflexivity.
  - destruct (load_linear_clean _ _ _ Ho) as (t & Hl & Hs).
    destruct (state_dict_output m) as [Hw _].
    change (weight_key "output") with "output.weight"%string in Hl.
    rewrite Hw in Hl. injection Hl as <-.
    now apply (widths_of_weight_size (output f) (output m)).
Qed.

Lemma loads_iff_same_topology_witness :
  ((exists m', load_state_dict tiny (state_dict narrow) = inr m')
   <-> topology tiny = topology narrow).
Proof.
  apply (loads_iff_same_topology tiny narrow); vm_compute; reflexivity.
Defined.

(** ** What [load_checkpoint] raises *)

Lemma lookup_input_size_hidden ls : forall j rest,
  lookup "input_size" (hidden_state j ls ++ rest) = lookup "input_size" rest.
Proof.
  induction ls as [|l ls IH]; intros j rest; [reflexivity|].
  cbn [hidden_state linear_state app lookup].
  change (String.eqb "input_size" (weight_key (hidden_name j))) with false.
  change (String.eqb "input_size" (bias_key (hidden_name j))) with false.
  apply IH.
Qed.

(** X4.  [load_checkpoint] raises [NotFound] for a path that was never
    written.  For a file that holds a bare state dict, as written by
    [torch.save(model.state_dict(), 'checkpoint.pth')], it raises
    [KeyError('input_size')], whatever the model. *)
Theorem load_checkpoint_errors (init : Init) (fs : Files) (path : string) :
  (lookup path fs = None -> load_checkpoint init fs path = inl (NotFound path)) /\
  (forall m,
     load_checkpoint init (torch_save (Plain (PyStateDict (state_dict m))) path fs) path
     = inl (KeyError "input_size")).
Proof.
  split.
  - intros H. unfold load_checkpoint, torch_load. now rewrite H.
  - intros m. unfold load_checkpoint. rewrite torch_load_saved.
    cbn [bind getitem]. unfold state_dict. rewrite lookup_input_size_hidden.
    reflexivity.
Qed.

Lemma load_checkpoint_errors_witness :
  load_checkpoint zero_init [] "checkpoint.pth" = inl (NotFound "checkpoint.pth").
Proof.
  apply (proj1 (load_checkpoint_errors zero_init [] "checkpoint.pth")).
  reflexivity.
Defined.

(** ** The state dict is a mapping *)

Lemma weight_key_hidden_inj j k :
  weight_key (hidden_name j) = weight_key (hidden_name k) -> j = k.
Proof.
  intros H. apply Nat.eqb_eq. rewrite <- eqb_weight_weight.
  now apply String.eqb_eq.
Qed.

Lemma bias_key_hidden_inj j k :
  bias_key (hidden_name j) = bias_key (hidden_name k) -> j = k.
Proof.
  intros H. apply Nat.eqb_eq. rewrite <- eqb_bias_bias.
  now apply String.eqb_eq.
Qed.

Lemma in_keys_hidden ls : forall j k,
  In k (keys (hidden_state j ls)) ->
  exists i, j <= i /\ (k = weight_key (hidden_name i) \/ k = bias_key (hidden_name i)).
Proof.
  induction ls as [|l ls IH]; intros j k H; [destruct H|].
  unfold keys in *. cbn [hidden_state linear_state app map fst] in H.
  destruct H as [<-|[<-|H]].
  - exists j. auto.
  - exists j. auto.
  - destruct (IH (S j) k H) as (i & Hi & Hk). exists i. split; [lia|exact Hk].
Qed.

Lemma NoDup_keys_hidden ls : forall j, NoDup (keys (hidden_state j ls)).
Proof.
  induction ls as [|l ls IH]; intros j; [constructor|].
  unfold keys in *. cbn [hidden_state linear_state app map fst].
  constructor; [|constructor; [|apply IH]].
  - intros [H|H].
    + symmetry in H. now apply weight_key_bias_key in H.
    + destruct (in_keys_hidden ls (S j) _ H) as (i & Hi & [Hk|Hk]).
      * apply weight_key_hidden_inj in Hk. lia.
      * now apply weight_key_bias_key in Hk.
  - intros H.
    destruct (in_keys_hidden ls (S j) _ H) as (i & Hi & [Hk|Hk]).
    + symmetry in Hk. now apply weight_key_bias_key in Hk.
    + apply bias_key_hidden_inj in Hk. lia.
Qed.

Lemma lookup_NoDup {V} (d : Dict V) k v :
  NoDup (keys d) -> In (k, v) d -> lookup k d = Some v.
Proof.
  induction d as [|[k' v'] d IH]; intros Hn Hi; [destruct Hi|].
  unfold keys in Hn. cbn [map fst] in Hn. inversion Hn as [|? ? Hk Hn']; subst.
  cbn [lookup]. destruct Hi as [E|Hi].
  - injection E as -> ->. now rewrite String.eqb_refl.
  - destruct (String.eqb_spec k k') as [->|Hne].
    + exfalso. apply Hk. change k' with (fst (k', v)). now apply in_map.
    + now apply IH.
Qed.

(** X5.  The qualified names in a model's state dict are pairwise distinct,
    so every stored entry is the one found under its name. *)
Theorem state_dict_is_a_mapping (m : Network) :
  NoDup (keys (state_dict m)) /\
  forall k t, In (k, t) (state_dict m) -> lookup k (state_dict m) = Some t.
Proof.
  assert (H : NoDup (keys (state_dict m))).
  { unfold state_dict, keys. rewrite map_app. apply NoDup_app.
    - apply NoDup_keys_hidden.
    - cbn [linear_state map fst]. constructor; [|constructor; [|constructor]].
      + intros [E|[]]. symmetry in E. now apply weight_key_bias_key in E.
      + intros [].
    - intros k Hk Ho.
      destruct (in_keys_hidden _ _ _ Hk) as (i & _ & [-> | ->]);
        cbn [linear_state map fst] in Ho;
        destruct Ho as [E|[E|[]]]; discriminate E. }
  split; [exact H|]. intros k t. now apply lookup_NoDup.
Qed.

(** ** The notebook, run in order *)

Lemma load_param_mismatch sd name p t :
  lookup name sd = Some t -> size t <> size (data p) ->
  load_param sd name p = (p, ([SizeMismatch name (size (data p)) (size t)], [])).
Proof.
  intros Hl Hs. unfold load_param. rewrite Hl.
  destruct (list_eqb (size t) (size (data p))) eqn:E; [|reflexivity].
  apply list_eqb_eq in E. contradiction.
Qed.

Lemma load_hidden_other_sizes sd : forall fs ms j,
  Forall2 other_sizes fs ms ->
  (forall i m, nth_error ms i = Some m ->
     lookup (weight_key (hidden_name (j + i))) sd = Some (data (weight m)) /\
     lookup (bias_key (hidden_name (j + i))) sd = Some (data (bias m))) ->
  fst (load_hidden sd j fs) = fs.
Proof.
  intros fs ms j HF. revert j.
  induction HF as [|f m fs ms [Hw Hb] HF IH]; intros j Hl; [reflexivity|].
  cbn [load_hidden]. unfold load_linear.
  destruct (Hl 0 m eq_refl) as [Lw Lb]. rewrite Nat.add_0_r in Lw, Lb.
  rewrite (load_param_mismatch sd _ (weight f) _ Lw Hw).
  rewrite (load_param_mismatch sd _ (bias f) _ Lb Hb).
  specialize (IH (S j)).
  destruct (load_hidden sd (S j) fs) as [fs' lg]. cbn [fst] in *.
  rewrite IH.
  - destruct f as [i o w b]. reflexivity.
  - intros i m' Hn. replace (S j + i) with (j + S i) by lia. now apply Hl.
Qed.

Lemma lookup_app {V} k (a b : Dict V) :
  lookup k (a ++ b) = match lookup k a with Some v => Some v | None => lookup k b end.
Proof.
  induction a as [|[k' v'] a IH]; [reflexivity|].
  cbn [app lookup]. destruct (String.eqb k k'); auto.
Qed.

Lemma other_sizes_of_widths fs : forall ms n n',
  chain n fs = true -> chain n' ms = true ->
  Forall2 (fun f m => out_features f <> out_features m) fs ms ->
  Forall2 other_sizes fs ms.
Proof.
  induction fs as [|f fs IH]; intros ms n n' Hf Hm HF; inversion HF; subst;
    [constructor|].
  cbn [chain] in Hf, Hm.
  apply andb_true_iff in Hf. destruct Hf as [Hf Hfr].
  apply andb_true_iff in Hf. destruct Hf as [Hfw _].
  apply andb_true_iff in Hm. destruct Hm as [Hm Hmr].
  apply andb_true_iff in Hm. destruct Hm as [Hmw _].
  constructor; [|eapply IH; eauto].
  destruct (wf_linear_sizes _ Hfw) as [Fw Fb].
  destruct (wf_linear_sizes _ Hmw) as [Mw Mb].
  unfold other_sizes. rewrite Fw, Fb, Mw, Mb. split; congruence.
Qed.

(** The model [f] after its output bias has taken the values of [m]'s. *)
Lemma valid_take_output_bias f m :
  valid f = true -> wf_linear (output m) = true ->
  out_features (output f) = out_features (output m) ->
  let left :=
    {| hidden_layers := hidden_layers f;
       output := {| in_features := in_features (output f);
                    out_features := out_features (output f);
                    weight := weight (output f);
                    bias := {| data := data (bias (output m));
                               grad := grad (bias (output f)) |} |};
       dropout := dropout f |} in
  valid left = true /\ input_size left = input_size f /\
  output_size left = output_size f /\ topology left = topology f /\
  widths left = widths f.
Proof.
  intros Hv Hm Ho left.
  assert (Hi : input_size left = input_size f).
  { unfold input_size, left. cbn [hidden_layers output in_features]. reflexivity. }
  repeat split; try reflexivity; try exact Hi.
  destruct (valid_inv f Hv) as (Hc & Hw & Hl).
  unfold valid. rewrite Hi. unfold widths, left.
  cbn [hidden_layers output in_features]. rewrite Hc. cbn [andb].
  apply andb_true_iff. split.
  - destruct (wf_linear_inv _ Hw) as (w & b & Dw & Db & Pi & Po & Sw & Lb).
    destruct (wf_linear_inv _ Hm) as (w' & b' & Dw' & Db' & _ & _ & _ & Lb').
    unfold wf_linear. cbn [in_features out_features weight bias data].
    rewrite Dw, Db', Sw, Lb', <- Ho, Nat.eqb_refl.
    apply Nat.ltb_lt in Pi, Po. now rewrite Pi, Po.
  - apply Nat.eqb_eq. exact Hl.
Qed.

(** X6.  Run in order from a trained 784-[512, 256, 128]-10 model, the
    cells from the first save to the final load end as follows: the cell
    that builds [Network(784, 10, [400, 200, 100])] raises the size
    mismatch and leaves that network in [model]; the checkpoint is then
    written from it; [load_checkpoint] therefore returns a network with the
    topology of [Network(784, 10, [400, 200, 100])], whose values are
    those of the fresh network except for the output bias, the only tensor
    of the trained model that fitted. *)
Theorem notebook_checkpoint_is_of_the_other_architecture
    (init init' : Init) (fs : Files) (m : Network) :
  valid m = true -> input_size m = 784 -> output_size m = 10 ->
  widths m = [512; 256; 128] ->
  exists e s_end fresh,
    run_cells (notebook init init')
      {| var_model := m; var_state_dict := None; disk := fs |}
    = (s_end, [None; None; None; Some e; None; None]) /\
    ArchitectureMismatch e = true /\
    new_Network init 784 10 [400; 200; 100]%Z = inr fresh /\
    topology (var_model s_end) = topology fresh /\
    widths (var_model s_end) = [400; 200; 100] /\
    lookup "output.bias" (state_dict (var_model s_end))
    = Some (data (bias (output m))) /\
    forall k, k <> "output.bias"%string ->
      lookup k (state_dict (var_model s_end)) = lookup k (state_dict fresh).
Proof.
  intros Hv Hi Ho Hw.
  destruct (skeleton_400_raises init m Hv Hi Hw) as (fresh & e & Hfresh & Hraise & Hmis).
  destruct (new_Network_valid init 784 10 [400; 200; 100]%Z
              ltac:(lia) ltac:(lia) ltac:(repeat constructor; lia))
    as (fresh' & Hfresh' & Hfv & Hfi & Hfo & Hfw).
  rewrite Hfresh in Hfresh'. injection Hfresh' as <-.
  change (Z.to_nat 784) with 784 in Hfi. change (Z.to_nat 10) with 10 in Hfo.
  change (map Z.to_nat [400; 200; 100]%Z) with [400; 200; 100] in Hfw.
  destruct (valid_inv m Hv) as (Hmc & Hmo & Hml).
  destruct (valid_inv fresh Hfv) as (Hfc & Hfow & Hfl).
  assert (HF : Forall2 other_sizes (hidden_layers fresh) (hidden_layers m)).
  { eapply other_sizes_of_widths; eauto.
    clear -Hw Hfw. unfold widths in *.
    destruct (hidden_layers m) as [|m0 [|m1 [|m2 [|]]]]; try discriminate.
    destruct (hidden_layers fresh) as [|f0 [|f1 [|f2 [|]]]]; try discriminate.
    injection Hw as Hm0 Hm1 Hm2. injection Hfw as Hf0 Hf1 Hf2.
    repeat constructor; lia. }
  set (sd := state_dict m) in *.
  (* the model kept by the failing cell *)
  assert (Hafter : after_load_state_dict fresh sd
                   = {| hidden_layers := hidden_layers fresh;
                        output := {| in_features := in_features (output fresh);
                                     out_features := out_features (output fresh);
                                     weight := weight (output fresh);
                                     bias := {| data := data (bias (output m));
                                                grad := grad (bias (output fresh)) |} |};
                        dropout := dropout fresh |}).
  { unfold after_load_state_dict.
    rewrite (load_hidden_other_sizes sd _ _ 0 HF) by apply state_dict_lookups.
    f_equal. unfold load_linear.
    destruct (state_dict_output m) as [Lw Lb].
    destruct (wf_linear_sizes _ Hmo) as [Mw Mb].
    destruct (wf_linear_sizes _ Hfow) as [Fw Fb].
    rewrite (load_param_mismatch sd (weight_key "output") (weight (output fresh)) _ Lw).
    2:{ rewrite Mw, Fw, Hml, Hfl, Hw, Hfw, Hi, Hfi. cbn [last]. congruence. }
    rewrite (load_param_values sd (bias_key "output") (bias (output fresh)) _ Lb).
    2:{ rewrite Mb, Fb. unfold output_size in *. congruence. }
    reflexivity. }
  destruct (valid_take_output_bias fresh m Hfv Hmo
              ltac:(unfold output_size in *; congruence))
    as (Hlv & Hli & Hlo & Hlt & Hlw).
  rewrite <- Hafter in Hlv, Hli, Hlo, Hlt, Hlw.
  set (kept := after_load_state_dict fresh sd) in *.
  exists e, {| var_model := copy_network (5 / 10)%R kept;
               var_state_dict := Some (Plain (PyStateDict sd));
               disk := save kept "checkpoint.pth"
                         (torch_save (Plain (PyStateDict sd)) "checkpoint.pth" fs) |},
         fresh.
  split; [|split; [exact Hmis|split; [exact Hfresh|]]].
  - unfold notebook, run_cells, cell_save_state_dict, cell_load_state_dict,
      cell_apply_state_dict, cell_other_architecture, cell_save_checkpoint,
      cell_load_checkpoint.
    cbn [var_model var_state_dict disk]. rewrite torch_load_saved.
    unfold call_load_state_dict. cbn [var_model var_state_dict disk as_mapping].
    unfold ret. fold sd.
    destruct (load_state_dict_values m m (same_sizes_refl_all _) (conj eq_refl eq_refl))
      as [H1 H2].
    fold sd in H1, H2. rewrite H1, H2, take_network_self.
    rewrite Hfresh. cbn [var_model var_state_dict disk as_mapping].
    unfold ret. rewrite Hraise. fold kept.
    rewrite (checkpoint_roundtrip init' _ "checkpoint.pth" kept Hlv
               ltac:(congruence) ltac:(congruence)).
    reflexivity.
  - cbn [var_model]. rewrite topology_copy, state_dict_copy.
    assert (Hst : forall k,
              lookup k (state_dict kept)
              = if String.eqb k "output.bias" then Some (data (bias (output m)))
                else lookup k (state_dict fresh)).
    { intros k. subst kept. rewrite Hafter. unfold state_dict.
      cbn [hidden_layers output]. rewrite !lookup_app.
      destruct (lookup k (hidden_state 0 (hidden_layers fresh))) as [v|] eqn:El.
      - destruct (String.eqb_spec k "output.bias") as [->|_]; [|reflexivity].
        apply lookup_in_keys in El.
        destruct (in_keys_hidden _ _ _ El) as (i & _ & [E|E]); discriminate E.
      - cbn [linear_state lookup weight bias data].
        destruct (String.eqb k (weight_key "output")) eqn:E1.
        + apply String.eqb_eq in E1. subst k. reflexivity.
        + change (bias_key "output") with "output.bias"%string.
          destruct (String.eqb k "output.bias"); reflexivity. }
    split; [exact Hlt|split; [|split]].
    + unfold widths, copy_network. cbn [hidden_layers].
      rewrite map_map. unfold widths in Hlw, Hfw. rewrite <- Hfw, <- Hlw.
      apply map_ext. reflexivity.
    + rewrite Hst. reflexivity.
    + intros k Hk. rewrite Hst.
      destruct (String.eqb_spec k "output.bias"); [contradiction|reflexivity].
Qed.

Lemma notebook_checkpoint_is_of_the_other_architecture_witness :
  exists e s_end fresh,
    run_cells (notebook zero_init zero_init)
      {| var_model := mnist_512; var_state_dict := None; disk := [] |}
    = (s_end, [None; None; None; Some e; None; None]) /\
    ArchitectureMismatch e = true /\
    new_Network zero_init 784 10 [400; 200; 100]%Z = inr fresh /\
    topology (var_model s_end) = topology fresh /\
    widths (var_model s_end) = [400; 200; 100] /\
    lookup "output.bias" (state_dict (var_model s_end))
    = Some (data (bias (output mnist_512))) /\
    forall k, k <> "output.bias"%string ->
      lookup k (state_dict (var_model s_end)) = lookup k (state_dict fresh).
Proof.
  apply (notebook_checkpoint_is_of_the_other_architecture zero_init zero_init []
           mnist_512); vm_compute; reflexivity.
Defined.

(* ================================================================== *)
(** * Further properties of the losses and of softmax *)

Lemma forward_app a : forall b x,
  nn.forward (a ++ b) x = (y <- nn.forward a x ;; nn.forward b y).
Proof.
  induction a as [|m a IH]; intros b x; [reflexivity|].
  cbn [app nn.forward].
  destruct (apply_module m x) as [e|y]; cbn [bind]; [reflexivity|]. apply IH.
Qed.

(** ** Softmax *)

Lemma exp_log_softmax_row r :
  map exp (log_softmax_row r) = softmax_row r.
Proof.
  destruct r as [|a r]; [reflexivity|].
  assert (Hpos : (0 < rsum (map exp (a :: r)))%R) by (apply rsum_exp_pos; discriminate).
  unfold log_softmax_row, softmax_row. rewrite map_map.
  apply map_ext. intros v.
  unfold Rminus, Rdiv. rewrite exp_plus, exp_Ropp, exp_ln; auto.
Qed.

Lemma softmax_log_softmax_row r :
  softmax_row (log_softmax_row r) = softmax_row r.
Proof.
  destruct r as [|a r]; [reflexivity|].
  unfold softmax_row at 1.
  rewrite log_softmax_row_normalised by discriminate.
  rewrite <- exp_log_softmax_row.
  apply map_ext. intros v. lra.
Qed.

(** X7.  For a model that ends in [LogSoftmax(dim=1)], the cell's
    [F.softmax(logits, dim=1)] of the model's output is the softmax of the
    scores that enter the last module, and it is the exponential of the
    output, entry by entry: taking softmax of the log-probabilities changes
    nothing. *)
Theorem softmax_of_log_probabilities (body : Sequential) (x : matrix) :
  (logits <- nn.forward (body ++ [LogSoftmax 1]) x ;; F_softmax logits 1)
  = (scores <- nn.forward body x ;; F_softmax scores 1) /\
  forall logits,
    nn.forward (body ++ [LogSoftmax 1]) x = inr logits ->
    F_softmax logits 1 = inr (map (map exp) logits).
Proof.
  rewrite forward_app.
  destruct (nn.forward body x) as [e|scores]; cbn [bind nn.forward apply_module
    log_softmax ret F_softmax].
  - split; [reflexivity|]. discriminate.
  - split.
    + f_equal. rewrite map_map. apply map_ext. apply softmax_log_softmax_row.
    + intros logits H. injection H as <-. unfold ret. f_equal. rewrite !map_map.
      apply map_ext. intros r. rewrite softmax_log_softmax_row.
      symmetry. apply exp_log_softmax_row.
Qed.

(** ** Cross entropy *)

Lemma nth_map_in_range (f : R -> R) (r : vector) c :
  c < length r -> nth c (map f r) 0%R = f (nth c r 0%R).
Proof.
  revert c; induction r as [|a r IH]; intros [|c] H; simpl in *; try lia; auto.
  apply IH. lia.
Qed.

Lemma ln_exp_div a s : (0 < s)%R -> ln (exp a / s) = (a - ln s)%R.
Proof.
  intros Hs. unfold Rdiv.
  rewrite ln_mult by (auto using exp_pos, Rinv_0_lt_compat).
  rewrite ln_exp, ln_Rinv by assumption. lra.
Qed.

Lemma labels_check_log_softmax s : forall y,
  forallb (fun p : vector * nat => snd p <? length (fst p))
    (combine (map log_softmax_row s) y)
  = forallb (fun p : vector * nat => snd p <? length (fst p)) (combine s y).
Proof.
  induction s as [|r s IH]; intros [|c y]; try reflexivity.
  cbn [map combine forallb fst snd]. now rewrite log_softmax_row_length, IH.
Qed.

Lemma cross_entropy_terms s : forall y,
  forallb (fun p : vector * nat => snd p <? length (fst p)) (combine s y) = true ->
  zip_with (fun r c => (- ln (exp (nth c r 0) / rsum (map exp r)))%R) s y
  = zip_with (fun r c => (- nth c r 0)%R) (map log_softmax_row s) y.
Proof.
  induction s as [|r s IH]; intros [|c y] H; try reflexivity.
  cbn [combine forallb fst snd] in H.
  apply andb_true_iff in H. destruct H as [Hc H]. apply Nat.ltb_lt in Hc.
  cbn [map zip_with]. rewrite IH by exact H. f_equal.
  unfold log_softmax_row. rewrite nth_map_in_range by exact Hc.
  rewrite ln_exp_div; [reflexivity|].
  apply rsum_exp_pos. intros ->. simpl in Hc. lia.
Qed.

Lemma cross_entropy_is_nll s y :
  CrossEntropyLoss s y = NLLLoss (map log_softmax_row s) y.
Proof.
  unfold CrossEntropyLoss, NLLLoss.
  rewrite length_map, labels_check_log_softmax. unfold vector.
  match goal with
  | |- context [negb (?a =? ?b)] => destruct (a =? b)
  end; cbn [negb]; [|reflexivity].
  match goal with
  | |- (if negb ?c then _ else _) = (if negb ?c' then _ else _) =>
      change c with c'; destruct c' eqn:E
  end; cbn [negb]; [|reflexivity].
  rewrite cross_entropy_terms by exact E.
  destruct s; reflexivity.
Qed.

(** X8.  [nn.CrossEntropyLoss] on the scores of a model is [nn.NLLLoss] on
    the output of the same model followed by [LogSoftmax(dim=1)], for every
    batch, errors included; so the two loss cells of the notebook compute
    the same loss from the same parameters. *)
Theorem cross_entropy_is_nll_of_log_softmax (body : Sequential) (batch : Batch) :
  loss_cell CrossEntropyLoss body batch
  = loss_cell NLLLoss (body ++ [LogSoftmax 1]) batch /\
  forall init,
    loss_cell CrossEntropyLoss (scores_model init) batch
    = loss_cell NLLLoss (Part4.model init) batch.
Proof.
  assert (H : forall b, loss_cell CrossEntropyLoss b batch
                        = loss_cell NLLLoss (b ++ [LogSoftmax 1]) batch).
  { intros b. unfold loss_cell. destruct batch as [images labels].
    rewrite forward_app.
    destruct (nn.forward b (view_flat images)) as [e|s];
      cbn [bind nn.forward apply_module log_softmax ret]; [reflexivity|].
    apply cross_entropy_is_nll. }
  split; [apply H|]. intros init. apply (H (scores_model init)).
Qed.

(** ** The loss of log-probabilities *)

Lemma rsum_nonneg r : Forall (fun v => (0 <= v)%R) r -> (0 <= rsum r)%R.
Proof.
  induction 1 as [|v r Hv Hr IH]; unfold rsum in *; simpl; lra.
Qed.

Lemma elem_le_rsum r v :
  Forall (fun u => (0 <= u)%R) r -> In v r -> (v <= rsum r)%R.
Proof.
  induction 1 as [|u r Hu Hr IH]; intros Hin; [destruct Hin|].
  pose proof (rsum_nonneg r Hr) as Hs. unfold rsum in *. simpl.
  destruct Hin as [->|Hin]; [lra|]. specialize (IH Hin). lra.
Qed.

Lemma log_probability_nonpos row v :
  rsum (map exp row) = 1%R -> In v row -> (v <= 0)%R.
Proof.
  intros Hs Hin.
  assert (He : (exp v <= 1)%R).
  { rewrite <- Hs. apply elem_le_rsum.
    - apply Forall_forall. intros u Hu. apply in_map_iff in Hu.
      destruct Hu as (w & <- & _). left. apply exp_pos.
    - now apply in_map. }
  destruct (Rle_or_lt v 0) as [H|H]; [exact H|].
  apply exp_increasing in H. rewrite exp_0 in H. lra.
Qed.

Lemma nth_log_probability_nonpos row c :
  rsum (map exp row) = 1%R -> (nth c row 0 <= 0)%R.
Proof.
  intros Hs. destruct (Nat.lt_ge_cases c (length row)) as [H|H].
  - eapply log_probability_nonpos; eauto. now apply nth_In.
  - rewrite nth_overflow by exact H. lra.
Qed.

Lemma nll_terms_nonneg (out : matrix) : forall labels,
  Forall (fun row => rsum (map exp row) = 1%R) out ->
  Forall (fun v => (0 <= v)%R) (zip_with (fun r c => (- nth c r 0)%R) out labels).
Proof.
  induction out as [|r out IH]; intros [|c labels] Hn; cbn [zip_with];
    try constructor; inversion Hn as [|? ? Hr Ho]; subst.
  - pose proof (nth_log_probability_nonpos r c Hr). lra.
  - now apply IH.
Qed.

Lemma NLLLoss_nonneg output labels loss :
  Forall (fun row => rsum (map exp row) = 1%R) output ->
  NLLLoss output labels = inr loss -> (0 <= loss)%R.
Proof.
  intros Hn H. unfold NLLLoss in H.
  repeat match type of H with
         | context [if negb ?c then _ else _] => destruct c; cbn [negb] in H
         end; try discriminate.
  destruct output as [|r0 output]; [discriminate|].
  unfold ret in H. injection H as <-.
  apply Rmult_le_pos.
  - apply rsum_nonneg. exact (nll_terms_nonneg (r0 :: output) labels Hn).
  - left. apply Rinv_0_lt_compat. apply (lt_0_INR (S (Datatypes.length output))). lia.
Qed.

Lemma NLLLoss_returns output labels B D :
  has_shape output B D = true -> length labels = B -> 0 < B ->
  forallb (fun c => c <? D) labels = true ->
  exists loss, NLLLoss output labels = inr loss.
Proof.
  intros Hs Hl HB Hc. apply has_shape_spec in Hs. destruct Hs as [HB' HD].
  unfold NLLLoss. rewrite HB', Hl, Nat.eqb_refl. cbn [negb].
  assert (Hf : forallb (fun p : vector * nat => snd p <? length (fst p))
                 (combine output labels) = true).
  { clear -HD Hc. revert labels Hc.
    induction HD as [|r out Hr HD IH]; intros [|c labels] Hc; try reflexivity.
    cbn [forallb] in Hc. apply andb_true_iff in Hc. destruct Hc as [H1 H2].
    cbn [combine forallb fst snd]. rewrite Hr, H1. now apply IH. }
  match goal with
  | |- context [if negb ?c then _ else _] =>
      replace c with true by (symmetry; exact Hf)
  end.
  cbn [negb].
  destruct output; [simpl in HB'; lia|]. eexists. reflexivity.
Qed.



(* ================================================================== *)
(** * The forward pass *)

Lemma wf_linear_ncols l w :
  wf_linear l = true -> data (weight l) = Mat w -> ncols w = in_features l.
Proof.
  intros Hl Hw.
  destruct (wf_linear_inv l Hl) as (w' & b & Hw' & Hb & Hin & Hout & Hs & Hlb).
  rewrite Hw in Hw'. injection Hw' as <-.
  now apply (ncols_shape _ _ _ Hout Hs).
Qed.

(** A [Linear] layer accepts exactly the batches of its input width. *)
Lemma linear_rejects l x :
  wf_linear l = true ->
  forallb (fun r => length r =? in_features l) x = false ->
  linear l x = inl DimensionMismatch.
Proof.
  intros Hl Hx.
  destruct (wf_linear_inv l Hl) as (w & b & Hw & Hb & Hin & Hout & Hs & Hlb).
  unfold linear. rewrite Hw, Hb, (wf_linear_ncols l w Hl Hw).
  unfold vector in *. now rewrite Hx.
Qed.

(** X10.  A perceptron with input width [D_in] returns an output for a
    batch exactly when every row of the batch has [D_in] entries; a batch
    with a row of another width raises the size error of the first
    [Linear], so the images have to be flattened first. *)
Theorem forward_accepts_exactly_the_input_width
    (D_in D_out : nat) (model : Sequential) (x : matrix) :
  is_mlp D_in D_out model = true ->
  (forallb (fun r => length r =? D_in) x = true ->
     exists y, nn.forward model x = inr y /\ has_shape y (length x) D_out = true) /\
  (forallb (fun r => length r =? D_in) x = false ->
     nn.forward model x = inl DimensionMismatch).
Proof.
  intros Hm. split; intros Hx.
  - assert (Hs : has_shape x (length x) D_in = true).
    { unfold has_shape. now rewrite Nat.eqb_refl, Hx. }
    destruct (mlp_forward (length model) model D_in D_out _ _ (le_n _) Hm Hs)
      as (y & Hy & Hsy & _).
    now exists y.
  - destruct (is_mlp_inv _ _ _ Hm) as [(l & -> & Hl & Hin & _)
                                      |(l & rest & -> & Hl & Hin & _)];
      subst D_in; cbn [nn.forward apply_module];
      now rewrite (linear_rejects l x Hl Hx).
Qed.

Lemma forward_accepts_exactly_the_input_width_witness :
  (exists y, nn.forward (Part4.model zero_init) (view_flat [blank_image]) = inr y /\
             has_shape y 1 10 = true) /\
  nn.forward (Part4.model zero_init) (concat blank_image) = inl DimensionMismatch.
Proof.
  split.
  - apply (proj1 (forward_accepts_exactly_the_input_width 784 10
                    (Part4.model zero_init) (view_flat [blank_image]) eq_refl)).
    vm_compute. reflexivity.
  - apply (proj2 (forward_accepts_exactly_the_input_width 784 10
                    (Part4.model zero_init) (concat blank_image) eq_refl)).
    vm_compute. reflexivity.
Defined.

(** Every module of a perceptron works on each row of the batch by
    itself. *)
Lemma apply_module_rows m x y :
  (forall d, m = LogSoftmax d -> d = 1) ->
  apply_module m x = inr y ->
  Forall2 (fun r o => apply_module m [r] = inr [o]) x y.
Proof.
  intros Hd H. destruct m as [l| |d]; cbn [apply_module] in *.
  - unfold linear in *.
    destruct (data (weight l)) as [|w]; [discriminate|].
    destruct (data (bias l)) as [b|]; [|discriminate].
    match type of H with
    | (if ?c then _ else _) = _ => destruct c eqn:E; [|discriminate]
    end.
    unfold ret in H. injection H as <-.
    induction x as [|r x IH]; cbn [map]; constructor.
    + cbn [forallb] in *. apply andb_true_iff in E. destruct E as [E1 _].
      now rewrite E1.
    + apply IH. cbn [forallb] in E. now apply andb_true_iff in E.
  - unfold ret in H. injection H as <-. unfold relu.
    induction x as [|r x IH]; cbn [map]; constructor; [reflexivity|exact IH].
  - rewrite (Hd d eq_refl) in *. cbn [log_softmax] in *.
    unfold ret in H. injection H as <-.
    induction x as [|r x IH]; cbn [map]; constructor; [reflexivity|exact IH].
Qed.

Lemma forward_rows model : forall x y,
  Forall (fun m => forall d, m = LogSoftmax d -> d = 1) model ->
  nn.forward model x = inr y ->
  Forall2 (fun r o => nn.forward model [r] = inr [o]) x y.
Proof.
  induction model as [|m model IH]; intros x y Hd H.
  - cbn [nn.forward] in *. unfold ret in H. injection H as <-.
    induction x; constructor; [reflexivity|assumption].
  - cbn [nn.forward] in H. inversion Hd as [|? ? Hm Hrest]; subst.
    destruct (apply_module m x) as [e|x1] eqn:E; cbn [bind] in H; [discriminate|].
    pose proof (apply_module_rows m x x1 Hm E) as H1.
    pose proof (IH x1 y Hrest H) as H2.
    clear E H. revert y H2.
    induction H1 as [|r o x x1 Hro H1 IH1]; intros y H2.
    + inversion H2; subst. constructor.
    + inversion H2 as [|? o' ? y' Ho' H2']; subst. constructor.
      * cbn [nn.forward]. rewrite Hro. cbn [bind]. exact Ho'.
      * now apply IH1.
Qed.

Lemma is_mlp_rowwise : forall n model D_in D_out,
  length model <= n ->
  is_mlp D_in D_out model = true ->
  Forall (fun m => forall d, m = LogSoftmax d -> d = 1) model.
Proof.
  induction n as [|n IH]; intros model D_in D_out Hn Hm.
  - destruct model; [discriminate|simpl in Hn; lia].
  - destruct (is_mlp_inv _ _ _ Hm) as [(l & -> & _)
                                      |(l & rest & -> & _ & _ & Hrest)].
    + repeat constructor; try discriminate. intros d Hd. now injection Hd as <-.
    + constructor; [discriminate|]. constructor; [discriminate|].
      apply (IH rest (out_features l) D_out); [simpl in Hn; lia|exact Hrest].
Qed.

(** X11.  The output row of an example does not depend on the other
    examples of its batch: when a perceptron ending in [LogSoftmax(dim=1)]
    returns [y] for the batch [x], each row of [y] is what the model returns
    for the matching row of [x] passed alone; in particular [y] has one row
    for each row of [x]. *)
Theorem forward_is_row_by_row
    (D_in D_out : nat) (model : Sequential) (x y : matrix) :
  is_mlp D_in D_out model = true ->
  nn.forward model x = inr y ->
  length y = length x /\
  Forall2 (fun r o => nn.forward model [r] = inr [o]) x y.
Proof.
  intros Hm H.
  pose proof (forward_rows model x y
                (is_mlp_rowwise (length model) model D_in D_out (le_n _) Hm) H) as HF.
  split; [|exact HF]. symmetry. eapply Forall2_length; eauto.
Qed.

Lemma forward_is_row_by_row_witness :
  exists y,
    nn.forward toy_model [[1; 2]; [3; 4]]%R = inr y /\
    length y = 2 /\
    Forall2 (fun r o => nn.forward toy_model [r] = inr [o]) [[1; 2]; [3; 4]]%R y.
Proof.
  assert (H : {y | nn.forward toy_model [[1; 2]; [3; 4]]%R = inr y})
    by (eexists; run; reflexivity).
  destruct H as [y Hy]. exists y. split; [exact Hy|].
  exact (forward_is_row_by_row 2 2 toy_model _ y eq_refl Hy).
Defined.

(** ** The loss of a model that has learnt nothing *)

Lemma rsum_repeat c n : rsum (repeat c n) = (INR n * c)%R.
Proof.
  induction n as [|n IH].
  - cbn. lra.
  - change (rsum (repeat c (S n))) with (c + rsum (repeat c n))%R.
    rewrite IH, S_INR. lra.
Qed.

Lemma map_repeat {A B} (f : A -> B) a n : map f (repeat a n) = repeat (f a) n.
Proof. induction n; cbn; congruence. Qed.

Lemma nth_repeat_lt (c : R) n k : k < n -> nth k (repeat c n) 0%R = c.
Proof.
  revert k; induction n as [|n IH]; intros [|k] H; cbn; try lia; auto.
  apply IH. lia.
Qed.

Lemma uniform_term c D k :
  0 < D -> k < D ->
  (- ln (exp (nth k (repeat c D) 0) / rsum (map exp (repeat c D))))%R = ln (INR D).
Proof.
  intros HD Hk. rewrite nth_repeat_lt by assumption.
  rewrite map_repeat, rsum_repeat.
  assert (HI : (0 < INR D)%R) by now apply lt_0_INR.
  pose proof (exp_pos c) as He.
  replace (exp c / (INR D * exp c))%R with (/ INR D)%R by (field; lra).
  rewrite ln_Rinv by assumption. lra.
Qed.

Lemma uniform_terms D (x : matrix) : forall labels,
  0 < D ->
  Forall (fun r => exists c, r = repeat c D) x ->
  length x = length labels ->
  forallb (fun c => c <? D) labels = true ->
  forallb (fun p : list R * nat => snd p <? length (fst p)) (combine x labels) = true /\
  rsum (zip_with (fun r c => (- ln (exp (nth c r 0) / rsum (map exp r)))%R) x labels)
  = (INR (length x) * ln (INR D))%R.
Proof.
  intros labels HD Hx. revert labels.
  induction Hx as [|r x [c ->] Hx IH]; intros [|k labels] Hl Hk; try discriminate.
  - cbn. split; [reflexivity|lra].
  - cbn [forallb] in Hk. apply andb_true_iff in Hk. destruct Hk as [Hk1 Hk2].
    injection Hl as Hl. destruct (IH labels Hl Hk2) as [IH1 IH2].
    cbn [combine forallb fst snd zip_with]. split.
    + rewrite repeat_length, Hk1. exact IH1.
    + change (rsum (?a :: ?l)) with (a + rsum l)%R.
      rewrite IH2. apply Nat.ltb_lt in Hk1.
      rewrite (uniform_term c D k HD Hk1).
      change (length (repeat c D :: x)) with (S (length x)). rewrite S_INR.
      unfold vector in *. ring.
Qed.

(** X13.  When the model gives every class the same score on every
    example of a batch, the cross-entropy loss of the batch is [ln D] for
    [D] classes, whatever the labels: [ln 10], about 2.30, for the ten
    classes of the notebooks. *)
Theorem loss_of_uniform_scores
    (D : nat) (scores : matrix) (labels : list nat) :
  0 < D ->
  Forall (fun r => exists c, r = repeat c D) scores ->
  labels <> [] ->
  length scores = length labels ->
  forallb (fun c => c <? D) labels = true ->
  CrossEntropyLoss scores labels = inr (ln (INR D)).
Proof.
  intros HD Hx Hne Hl Hk.
  destruct (uniform_terms D scores labels HD Hx Hl Hk) as [Hc Hs].
  unfold CrossEntropyLoss. rewrite Hl, Nat.eqb_refl. cbn [negb].
  match goal with
  | |- context [if negb ?c then _ else _] =>
      replace c with true by (symmetry; exact Hc)
  end.
  cbn [negb].
  destruct scores as [|r scores]; [destruct labels; [congruence|discriminate]|].
  unfold ret. f_equal. unfold vector in *. rewrite Hs, <- Hl.
  field. apply not_0_INR. discriminate.
Qed.

Lemma loss_of_uniform_scores_witness :
  CrossEntropyLoss [repeat 0%R 10; repeat 0%R 10] [3; 7] = inr (ln (INR 10)).
Proof.
  apply (loss_of_uniform_scores 10 [repeat 0%R 10; repeat 0%R 10] [3; 7]).
  - lia.
  - repeat constructor; exists 0%R; reflexivity.
  - discriminate.
  - reflexivity.
  - reflexivity.
Defined.

(* ================================================================== *)
(** * The data loader *)

Lemma batch_sampler_concat bs : forall sampler batch,
  concat (batch_sampler bs batch sampler) = batch ++ sampler.
Proof.
  induction sampler as [|idx rest IH]; intros batch; cbn [batch_sampler].
  - destruct batch; cbn [concat]; now rewrite ?app_nil_r.
  - destruct (length (batch ++ [idx]) =? bs).
    + cbn [concat]. rewrite IH. cbn [app]. now rewrite <- app_assoc.
    + rewrite IH. now rewrite <- app_assoc.
Qed.

Lemma batch_sampler_sizes bs : forall sampler batch,
  0 < bs -> length batch < bs ->
  Forall (fun b => 0 < length b <= bs) (batch_sampler bs batch sampler).
Proof.
  induction sampler as [|idx rest IH]; intros batch Hbs Hb; cbn [batch_sampler].
  - destruct batch as [|a batch]; constructor; [|constructor].
    simpl in *. lia.
  - destruct (length (batch ++ [idx]) =? bs) eqn:E.
    + apply Nat.eqb_eq in E. constructor; [lia|]. apply IH; simpl; lia.
    + apply Nat.eqb_neq in E. apply IH; [lia|].
      rewrite length_app in *. simpl in *. lia.
Qed.

(** Every batch but possibly the last is full. *)
Lemma batch_sampler_full bs : forall sampler batch,
  0 < bs -> length batch < bs ->
  exists full rest,
    batch_sampler bs batch sampler = full ++ rest /\
    Forall (fun b => length b = bs) full /\
    (rest = [] \/ exists b, rest = [b] /\ 0 < length b < bs).
Proof.
  induction sampler as [|idx rest IH]; intros batch Hbs Hb; cbn [batch_sampler].
  - destruct batch as [|a batch].
    + exists [], []. repeat split; auto.
    + exists [], [a :: batch]. repeat split; auto. right. eexists. split; [reflexivity|].
      simpl in *. lia.
  - destruct (length (batch ++ [idx]) =? bs) eqn:E.
    + apply Nat.eqb_eq in E.
      destruct (IH [] Hbs ltac:(simpl; lia)) as (full & last & -> & Hf & Hl).
      exists ((batch ++ [idx]) :: full), last. repeat split; auto.
    + apply Nat.eqb_neq in E. apply IH; [lia|].
      rewrite length_app in *. simpl in *. lia.
Qed.

Lemma map_nth_seq {A} (d : A) (l : list A) :
  map (fun i => nth i l d) (seq 0 (length l)) = l.
Proof.
  induction l as [|a l IH]; [reflexivity|].
  cbn [length seq map nth]. f_equal.
  rewrite <- seq_shift, map_map. exact IH.
Qed.

Lemma combine_collate (ds : list (image * nat)) idxs :
  combine (fst (collate ds idxs)) (snd (collate ds idxs))
  = map (fun i => nth i ds ([], 0)) idxs.
Proof.
  unfold collate. cbn [fst snd].
  induction idxs as [|i idxs IH]; [reflexivity|].
  cbn [map combine]. rewrite IH. f_equal. now destruct (nth i ds ([], 0)).
Qed.

Lemma examples_of_batches (ds : list (image * nat)) bl :
  concat (map (fun b : Batch => combine (fst b) (snd b)) (map (collate ds) bl))
  = map (fun i => nth i ds ([], 0)) (concat bl).
Proof.
  induction bl as [|b bl IH]; [reflexivity|].
  cbn [map concat]. now rewrite IH, combine_collate, map_app.
Qed.

(** X14.  One pass over a loader with a positive batch size, in the
    shuffled order of the epoch (a permutation of the dataset's indices):
    the number of batches is [len(trainloader)]; the examples of the
    batches, taken together, are the examples of the dataset, each one
    exactly once; every batch has as many labels as images, at least one
    and at most [batch_size]; and every batch except possibly the last has
    exactly [batch_size] examples. *)
Theorem epoch_visits_every_example_once (loader : DataLoader) (order : list nat) :
  0 < batch_size loader ->
  Permutation order (seq 0 (length (dataset loader))) ->
  length (iter loader order) = len loader /\
  Permutation
    (concat (map (fun b : Batch => combine (fst b) (snd b)) (iter loader order)))
    (dataset loader) /\
  Forall (fun b : Batch => length (fst b) = length (snd b) /\
                           0 < length (snd b) <= batch_size loader)
    (iter loader order) /\
  exists full rest,
    iter loader order = full ++ rest /\
    Forall (fun b : Batch => length (snd b) = batch_size loader) full /\
    (rest = [] \/
     exists b, rest = [b] /\ 0 < length (snd b) < batch_size loader).
Proof.
  intros Hbs Hp. split; [|split; [|split]].
  - apply iter_length; [exact Hbs|].
    rewrite (Permutation_length Hp). apply length_seq.
  - unfold iter. rewrite examples_of_batches, batch_sampler_concat. cbn [app].
    eapply Permutation_trans; [apply Permutation_map; exact Hp|].
    rewrite map_nth_seq. apply Permutation_refl.
  - unfold iter. apply Forall_map.
    eapply Forall_impl; [|apply batch_sampler_sizes; [exact Hbs|simpl; lia]].
    intros b Hb. unfold collate. cbn [fst snd]. rewrite !length_map.
    cbv beta in Hb. lia.
  - unfold iter.
    destruct (batch_sampler_full (batch_size loader) order [] Hbs ltac:(simpl; lia))
      as (full & rest & -> & Hf & Hr).
    exists (map (collate (dataset loader)) full), (map (collate (dataset loader)) rest).
    split; [apply map_app|]. split.
    + apply Forall_map. eapply Forall_impl; [|exact Hf].
      intros b Hb. unfold collate. cbn [snd]. rewrite length_map. exact Hb.
    + destruct Hr as [->|(b & -> & Hb)]; [now left|]. right.
      exists (collate (dataset loader) b). split; [reflexivity|].
      unfold collate. cbn [snd]. now rewrite length_map.
Qed.

Lemma epoch_visits_every_example_once_witness :
  length (iter toy_loader (toy_shuffle 0)) = len toy_loader /\
  Permutation
    (concat (map (fun b : Batch => combine (fst b) (snd b))
               (iter toy_loader (toy_shuffle 0))))
    (dataset toy_loader).
Proof.
  assert (Hp : Permutation (toy_shuffle 0) (seq 0 (length (dataset toy_loader)))).
  { cbn. apply Permutation_sym.
    apply (Permutation_cons_app [2] [1] 0). apply perm_swap. }
  destruct (epoch_visits_every_example_once toy_loader (toy_shuffle 0)
              ltac:(cbn; lia) Hp) as (H1 & H2 & _).
  split; assumption.
Defined.

(* ================================================================== *)
(** * The training loop keeps the model well formed *)

Lemma same_rows_refl m : same_rows m m = true.
Proof.
  induction m as [|r m IH]; [reflexivity|]. simpl. now rewrite Nat.eqb_refl.
Qed.

Lemma same_rows_sym m : forall n, same_rows m n = true -> same_rows n m = true.
Proof.
  induction m as [|r m IH]; intros [|s n] H; simpl in *; try discriminate; auto.
  apply andb_true_iff in H. destruct H as [H1 H2]. apply Nat.eqb_eq in H1.
  rewrite H1, Nat.eqb_refl. now apply IH.
Qed.

Lemma same_rows_trans m : forall n o,
  same_rows m n = true -> same_rows n o = true -> same_rows m o = true.
Proof.
  induction m as [|r m IH]; intros [|s n] [|t o] H1 H2; simpl in *;
    try discriminate; auto.
  apply andb_true_iff in H1, H2. destruct H1 as [A1 A2], H2 as [B1 B2].
  apply Nat.eqb_eq in A1, B1. rewrite A1, B1, Nat.eqb_refl. now apply (IH n o).
Qed.

Lemma same_shape_refl t : same_shape t t = true.
Proof. destruct t; simpl; [apply Nat.eqb_refl|apply same_rows_refl]. Qed.

Lemma same_shape_sym t u : same_shape t u = true -> same_shape u t = true.
Proof.
  destruct t, u; simpl; try discriminate.
  - intros H. apply Nat.eqb_eq in H. rewrite H. apply Nat.eqb_refl.
  - apply same_rows_sym.
Qed.

Lemma same_shape_trans t u v :
  same_shape t u = true -> same_shape u v = true -> same_shape t v = true.
Proof.
  destruct t, u, v; simpl; try discriminate.
  - intros H1 H2. apply Nat.eqb_eq in H1, H2. rewrite H1, H2. apply Nat.eqb_refl.
  - apply same_rows_trans.
Qed.

Lemma same_shape_tmap f t : same_shape t (tmap f t) = true.
Proof.
  destruct t as [v|m]; simpl.
  - rewrite length_map. apply Nat.eqb_refl.
  - induction m as [|r m IH]; [reflexivity|]. simpl.
    now rewrite length_map, Nat.eqb_refl.
Qed.

Lemma has_shape_same_rows w : forall w' r c,
  has_shape w r c = true -> same_rows w w' = true -> has_shape w' r c = true.
Proof.
  intros w' r c H Hs. apply has_shape_spec in H. destruct H as [Hr Hc].
  apply has_shape_spec. split.
  - now rewrite <- (same_rows_length w w' Hs).
  - clear Hr. revert w' Hs. induction Hc as [|x w Hx Hc IH]; intros [|y w'] Hs;
      simpl in Hs; try discriminate; constructor.
    + apply andb_true_iff in Hs. destruct Hs as [H1 _]. apply Nat.eqb_eq in H1. lia.
    + apply IH. now apply andb_true_iff in Hs.
Qed.

(** Well-formedness of a layer depends on the shapes of its tensors
    only. *)
Lemma wf_linear_same_shape l w b :
  wf_linear l = true ->
  same_shape (data (weight l)) (data w) = true ->
  same_shape (data (bias l)) (data b) = true ->
  wf_linear {| in_features := in_features l; out_features := out_features l;
               weight := w; bias := b |} = true.
Proof.
  intros Hl Hw Hb.
  destruct (wf_linear_inv l Hl) as (w0 & b0 & Hw0 & Hb0 & Hin & Hout & Hs & Hlb).
  rewrite Hw0 in Hw. rewrite Hb0 in Hb.
  unfold wf_linear. cbn [in_features out_features weight bias].
  destruct (data w) as [|w1]; [discriminate|].
  destruct (data b) as [b1|]; [|discriminate].
  simpl in Hw, Hb. apply Nat.eqb_eq in Hb.
  rewrite (has_shape_same_rows w0 w1 _ _ Hs Hw).
  apply Nat.ltb_lt in Hin, Hout. rewrite Hin, Hout. cbn [andb].
  apply Nat.eqb_eq. lia.
Qed.

Lemma is_mlp_update : forall n model D_in D_out ps,
  length model <= n ->
  is_mlp D_in D_out model = true ->
  Forall2 (fun p q => same_shape (data p) (data q) = true) (parameters model) ps ->
  is_mlp D_in D_out (update_parameters model ps) = true.
Proof.
  induction n as [|n IH]; intros model D_in D_out ps Hn Hm Hps.
  - destruct model; [discriminate|simpl in Hn; lia].
  - destruct (is_mlp_inv _ _ _ Hm) as [(l & -> & Hl & Hi & Ho)
                                      |(l & rest & -> & Hl & Hi & Hrest)].
    + cbn [parameters] in Hps.
      inversion Hps as [|? w ? ps1 Hw Hps1]; subst.
      inversion Hps1 as [|? b ? ps2 Hb Hps2]; subst.
      inversion Hps2; subst.
      cbn [update_parameters is_mlp in_features out_features].
      rewrite (wf_linear_same_shape l w b Hl Hw Hb), !Nat.eqb_refl. reflexivity.
    + cbn [parameters] in Hps.
      inversion Hps as [|? w ? ps1 Hw Hps1]; subst.
      inversion Hps1 as [|? b ? ps2 Hb Hps2]; subst.
      cbn [update_parameters is_mlp in_features out_features].
      rewrite (wf_linear_same_shape l w b Hl Hw Hb), Nat.eqb_refl. cbn [andb].
      apply IH; [simpl in Hn; lia|exact Hrest|exact Hps2].
Qed.

Lemma Forall2_same_shape_trans (l0 l1 l2 : list Param) :
  Forall2 (fun p q => same_shape (data p) (data q) = true) l0 l1 ->
  Forall2 (fun p q => same_shape (data p) (data q) = true) l1 l2 ->
  Forall2 (fun p q => same_shape (data p) (data q) = true) l0 l2.
Proof.
  intros H. revert l2. induction H as [|p q l0 l1 Hpq H IH]; intros l2 H2;
    inversion H2; subst; constructor.
  - eapply same_shape_trans; eauto.
  - now apply IH.
Qed.

Lemma Forall2_same_shape_refl (l : list Param) :
  Forall2 (fun p q => same_shape (data p) (data q) = true) l l.
Proof. induction l; constructor; [apply same_shape_refl|assumption]. Qed.

Section Invariant.

Variable autograd : Autograd.
Variable optimizer : SGD.
Variables D_in D_out : nat.
Variable model0 : Sequential.
Hypothesis engine : engine_fits autograd model0.


Lemma update_keeps_invariant m ps :
  loop_invariant D_in D_out model0 m ->
  Forall2 (fun p q => same_shape (data p) (data q) = true) (parameters m) ps ->
  Forall grad_fits ps ->
  loop_invariant D_in D_out model0 (update_parameters m ps).
Proof.
  intros (Hm & Hg & Hs) Hps Hgs.
  assert (Hp : parameters (update_parameters m ps) = ps).
  { apply parameters_update. symmetry. eapply Forall2_length; eauto. }
  split; [|split].
  - now apply (is_mlp_update (length m)).
  - now rewrite Hp.
  - unfold same_parameter_shapes. rewrite Hp.
    eapply Forall2_same_shape_trans; eauto.
Qed.

Lemma zero_grad_param_fits p : grad_fits p -> grad_fits (zero_grad_param p).
Proof.
  unfold grad_fits, zero_grad_param. cbn [data grad]. intros H g Hg.
  destruct (grad p) as [old|]; [|discriminate]. cbn [option_map] in Hg.
  injection Hg as <-.
  eapply same_shape_trans; [apply H; reflexivity|apply same_shape_tmap].
Qed.

Lemma zero_grad_keeps_invariant m :
  loop_invariant D_in D_out model0 m ->
  loop_invariant D_in D_out model0 (zero_grad m).
Proof.
  intros H. unfold zero_grad. apply update_keeps_invariant; [exact H| |].
  - induction (parameters m); cbn [map]; constructor;
      [apply same_shape_refl|assumption].
  - destruct H as (_ & Hg & _). apply Forall_map.
    eapply Forall_impl; [|exact Hg]. apply zero_grad_param_fits.
Qed.

Lemma accumulate_fits p g :
  grad_fits p -> same_shape (data p) g = true -> grad_fits (accumulate p g).
Proof.
  unfold grad_fits, accumulate. cbn [data grad]. intros H Hg g' Hg'.
  injection Hg' as <-. destruct (grad p) as [old|]; [|exact Hg].
  specialize (H old eq_refl).
  assert (Ho : same_shape old g = true).
  { eapply same_shape_trans; [apply same_shape_sym; exact H|exact Hg]. }
  eapply same_shape_trans; [exact H|].
  apply same_shape_sym. now apply same_shape_tmap2.
Qed.

Lemma backward_keeps_invariant m batch :
  loop_invariant D_in D_out model0 m ->
  loop_invariant D_in D_out model0 (backward autograd m batch).
Proof.
  intros H. pose proof H as (Hm & Hg & Hs).
  assert (He : Forall2 (fun p g => same_shape (data p) g = true) (parameters m)
                 (autograd (map data (parameters m)) batch)).
  { assert (H1 : Forall2 (fun p v => same_shape (data p) v = true)
                   (parameters model0) (map data (parameters m))).
    { unfold same_parameter_shapes in Hs. clear -Hs.
      induction Hs; cbn [map]; constructor; assumption. }
    pose proof (engine _ batch H1) as H2. clear -H2.
    remember (map data (parameters m)) as vs eqn:E.
    revert E. generalize (parameters m).
    induction H2 as [|v g vs gs Hvg H2 IH]; intros [|p ps] E;
      try discriminate; constructor.
    - cbn [map] in E. injection E as -> _. exact Hvg.
    - apply IH. cbn [map] in E. now injection E. }
  unfold backward. apply update_keeps_invariant; [exact H| |].
  - clear -He. induction He; cbn [zip_with]; constructor;
      [apply same_shape_refl|assumption].
  - clear -He Hg. induction He as [|p g ps gs Hpg He IH]; cbn [zip_with];
      [constructor|]. inversion Hg; subst.
    constructor; [now apply accumulate_fits|now apply IH].
Qed.

Lemma step_param_fits lr p :
  grad_fits p ->
  same_shape (data p) (data (step_param lr p)) = true /\
  grad_fits (step_param lr p).
Proof.
  unfold grad_fits, step_param. intros H.
  destruct (grad p) as [g|] eqn:Eg.
  - specialize (H g eq_refl). cbn [data grad].
    assert (Hd : same_shape (tmap2 (fun x d => (x + - lr * d)%R) (data p) g) (data p)
                 = true) by now apply same_shape_tmap2.
    split; [now apply same_shape_sym|].
    intros g' Hg'. try rewrite Eg in Hg'. injection Hg' as <-.
    eapply same_shape_trans; eauto.
  - split; [apply same_shape_refl|]. intros g' Hg'. try rewrite Eg in Hg'. discriminate.
Qed.

Lemma step_keeps_invariant m :
  loop_invariant D_in D_out model0 m ->
  loop_invariant D_in D_out model0 (step optimizer m).
Proof.
  intros H. pose proof H as (Hm & Hg & Hs).
  unfold step. apply update_keeps_invariant; [exact H| |].
  - clear -Hg. induction Hg; cbn [map]; constructor;
      [now apply step_param_fits|assumption].
  - apply Forall_map. eapply Forall_impl; [|exact Hg].
    intros p Hp. now apply step_param_fits.
Qed.

(** One iteration on a batch that fits the model returns a loss that is
    not negative and keeps the invariant. *)
Lemma train_step_keeps_invariant m images labels :
  loop_invariant D_in D_out model0 m ->
  has_shape (view_flat images) (length labels) D_in = true ->
  labels <> [] ->
  forallb (fun c => c <? D_out) labels = true ->
  exists m' loss,
    train_step autograd optimizer m (images, labels) = inr (m', loss) /\
    (0 <= loss)%R /\ loop_invariant D_in D_out model0 m'.
Proof.
  intros H Hx Hne Hc.
  pose proof (zero_grad_keeps_invariant m H) as (Hm1 & _).
  destruct (mlp_forward (length (zero_grad m)) (zero_grad m) D_in D_out _ _
              (le_n _) Hm1 Hx) as (y & Hy & Hs & Hnorm).
  assert (HB : 0 < length labels) by (destruct labels; [congruence|simpl; lia]).
  destruct (NLLLoss_returns y labels _ _ Hs eq_refl HB Hc) as [loss Hl].
  exists (step optimizer (backward autograd (zero_grad m) (view_flat images, labels))),
    loss.
  split; [|split].
  - unfold train_step. rewrite Hy. cbn [bind]. unfold criterion. rewrite Hl.
    reflexivity.
  - eapply NLLLoss_nonneg; eauto.
  - apply step_keeps_invariant, backward_keeps_invariant,
      zero_grad_keeps_invariant, H.
Qed.

Lemma batch_losses_keep_invariant : forall batches m,
  loop_invariant D_in D_out model0 m ->
  Forall (fun b : Batch =>
            has_shape (view_flat (fst b)) (length (snd b)) D_in = true /\
            snd b <> [] /\
            forallb (fun c => c <? D_out) (snd b) = true) batches ->
  exists m' losses,
    batch_losses autograd optimizer m batches = inr (m', losses) /\
    Forall (fun l => (0 <= l)%R) losses /\ loop_invariant D_in D_out model0 m'.
Proof.
  induction batches as [|[images labels] rest IH]; intros m H Hb.
  - exists m, []. repeat split; try constructor; apply H.
  - inversion Hb as [|? ? (Hx & Hne & Hc) Hrest]; subst. cbn [fst snd] in *.
    destruct (train_step_keeps_invariant m images labels H Hx Hne Hc)
      as (m1 & loss & Hs & Hl & H1).
    destruct (IH m1 H1 Hrest) as (m' & losses & Hbl & Hls & H').
    exists m', (loss :: losses). split; [|split; [constructor; assumption|exact H']].
    cbn [batch_losses]. rewrite Hs. cbn [bind fst snd]. rewrite Hbl. reflexivity.
Qed.

End Invariant.

Lemma fold_left_Rplus_nonneg losses : forall acc,
  (0 <= acc)%R -> Forall (fun l => (0 <= l)%R) losses ->
  (0 <= fold_left Rplus losses acc)%R.
Proof.
  induction losses as [|l losses IH]; intros acc Ha Hl; [exact Ha|].
  inversion Hl; subst. cbn [fold_left]. apply IH; [lra|assumption].
Qed.

(** The batches of a pass over a dataset that fits the model fit the
    model. *)
Lemma iter_batches_fit D_in D_out loader order :
  dataset_fits D_in D_out (dataset loader) ->
  0 < batch_size loader ->
  Forall (fun i => i < length (dataset loader)) order ->
  Forall (fun b : Batch =>
            has_shape (view_flat (fst b)) (length (snd b)) D_in = true /\
            snd b <> [] /\
            forallb (fun c => c <? D_out) (snd b) = true)
    (iter loader order).
Proof.
  intros Hds Hbs Ho. unfold iter. apply Forall_map. apply Forall_forall.
  intros idxs Hin.
  assert (Hsz : 0 < length idxs).
  { pose proof (batch_sampler_sizes (batch_size loader) order [] Hbs
                  ltac:(simpl; lia)) as Hs.
    rewrite Forall_forall in Hs. apply (Hs idxs Hin). }
  assert (Hidx : Forall (fun i => i < length (dataset loader)) idxs).
  { apply Forall_forall. intros i Hi. rewrite Forall_forall in Ho. apply Ho.
    rewrite <- (app_nil_l order), <- (batch_sampler_concat (batch_size loader)).
    apply in_concat. exists idxs. split; assumption. }
  assert (Hex : Forall (fun i =>
                  length (concat (concat (fst (nth i (dataset loader) ([], 0))))) = D_in /\
                  snd (nth i (dataset loader) ([], 0)) < D_out) idxs).
  { eapply Forall_impl; [|exact Hidx]. intros i Hi. cbv beta in Hi.
    unfold dataset_fits in Hds. rewrite Forall_forall in Hds.
    apply Hds. now apply nth_In. }
  unfold collate. cbn [fst snd]. split; [|split].
  - apply has_shape_spec. unfold view_flat. rewrite !length_map.
    split; [reflexivity|]. rewrite map_map. apply Forall_map.
    eapply Forall_impl; [|exact Hex]. intros i Hi. apply Hi.
  - destruct idxs; [simpl in Hsz; lia|discriminate].
  - apply forallb_forall. intros c Hc. apply in_map_iff in Hc.
    destruct Hc as (i & <- & Hi). rewrite Forall_forall in Hex.
    apply Nat.ltb_lt. now apply Hex.
Qed.

Lemma len_positive loader :
  dataset loader <> [] -> 0 < batch_size loader -> 0 < len loader.
Proof.
  intros Hne Hbs. unfold len. apply Nat.div_str_pos.
  destruct (dataset loader); [congruence|]. simpl. lia.
Qed.



(** X16.  [loss.backward()] keeps every parameter's values and adds the
    batch's gradient onto the stored one: a parameter without a gradient
    receives the gradient the engine computes, and a parameter that carries
    a gradient of the same shape ends with the entrywise sum of the two.
    Without [zero_grad] the gradients of successive batches pile up. *)
Theorem backward_adds_to_the_stored_gradient
    (autograd : Autograd) (model : Sequential) (batch : matrix * list nat)
    (k : nat) (p : Param) (g : Tensor) :
  length (autograd (map data (parameters model)) batch) = length (parameters model) ->
  nth_error (parameters model) k = Some p ->
  nth_error (autograd (map data (parameters model)) batch) k = Some g ->
  exists p',
    nth_error (parameters (backward autograd model batch)) k = Some p' /\
    data p' = data p /\
    (grad p = None -> grad p' = Some g) /\
    (forall old, grad p = Some old -> same_shape old g = true ->
       exists sum,
         grad p' = Some sum /\
         same_shape sum old = true /\
         forall i j, in_range old i j = true ->
           entry sum i j = (entry old i j + entry g i j)%R).
Proof.
  intros Hlen Hp Hg. rewrite (parameters_backward _ _ _ Hlen).
  exists (accumulate p g). split.
  - revert Hp Hg. generalize (autograd (map data (parameters model)) batch) as gs.
    generalize (parameters model) as ps. clear.
    intros ps. revert k. induction ps as [|q ps IH]; intros [|k] [|h gs] Hp Hg;
      cbn [nth_error zip_with] in *; try discriminate.
    + injection Hp as ->. injection Hg as ->. reflexivity.
    + now apply IH.
  - unfold accumulate. cbn [data grad]. split; [reflexivity|]. split.
    + intros ->. reflexivity.
    + intros old -> Hs. eexists. split; [reflexivity|]. split.
      * now apply same_shape_tmap2.
      * intros i j Hr. now apply entry_tmap2.
Qed.

Lemma backward_adds_to_the_stored_gradient_witness :
  exists p',
    nth_error (parameters (backward toy_autograd toy_with_grad ([], []))) 0 = Some p' /\
    data p' = Mat [[2%R]] /\
    exists sum, grad p' = Some sum /\ entry sum 0 0 = (1 + 2)%R.
Proof.
  destruct (backward_adds_to_the_stored_gradient toy_autograd toy_with_grad ([], [])
              0 {| data := Mat [[2%R]]; grad := Some (Mat [[1%R]]) |} (Mat [[2%R]])
              eq_refl eq_refl eq_refl) as (p' & Hn & Hd & _ & Hs).
  exists p'. split; [exact Hn|]. split; [exact Hd|].
  destruct (Hs (Mat [[1%R]]) eq_refl eq_refl) as (sum & Hsum & _ & He).
  exists sum. split; [exact Hsum|]. exact (He 0 0 eq_refl).
Defined.

(* ================================================================== *)
(** * The gradient of the autograd cells *)

Lemma rsum_app (u v : vector) : rsum (u ++ v) = (rsum u + rsum v)%R.
Proof.
  induction u as [|a u IH]; unfold rsum in *; cbn [app fold_right]; [lra|].
  rewrite IH. lra.
Qed.

Lemma rsum_concat (m : matrix) : rsum (concat m) = rsum (map rsum m).
Proof.
  induction m as [|r m IH]; [reflexivity|].
  cbn [concat map]. rewrite rsum_app, IH. reflexivity.
Qed.

Lemma map_set_nth {A B} (f : A -> B) a : forall l k,
  map f (set_nth k a l) = set_nth k (f a) (map f l).
Proof.
  induction l as [|b l IH]; intros [|k]; cbn [set_nth map]; try reflexivity.
  now rewrite IH.
Qed.

Lemma length_set_nth {A} (a : A) : forall l k, length (set_nth k a l) = length l.
Proof.
  induction l as [|b l IH]; intros [|k]; cbn [set_nth length]; try reflexivity.
  now rewrite IH.
Qed.

Lemma rsum_set_nth a : forall (l : vector) k,
  k < length l -> rsum (set_nth k a l) = (rsum l - nth k l 0 + a)%R.
Proof.
  induction l as [|b l IH]; intros [|k] Hk; cbn [length] in Hk; try lia.
  - cbn [set_nth nth]. change (rsum (?u :: ?v)) with (u + rsum v)%R. lra.
  - cbn [set_nth nth]. change (rsum (?u :: ?v)) with (u + rsum v)%R.
    rewrite IH by lia. lra.
Qed.

Lemma nth_map_lt {A B} (f : A -> B) (d : A) (d' : B) : forall l k,
  k < length l -> nth k (map f l) d' = f (nth k l d).
Proof.
  induction l as [|b l IH]; intros [|k] Hk; cbn [length] in Hk; try lia.
  - reflexivity.
  - cbn [map nth]. apply IH. lia.
Qed.

(** The sum of the squares after one entry has been replaced. *)
Lemma sum_of_squares_set_entry (x : matrix) i j t :
  in_range (Mat x) i j = true ->
  rsum (concat (square (set_entry x i j t)))
  = (rsum (concat (square x)) - entry (Mat x) i j ^ 2 + t ^ 2)%R.
Proof.
  cbn [in_range entry]. intros H. apply andb_true_iff in H.
  destruct H as [Hi Hj]. apply Nat.ltb_lt in Hi, Hj.
  rewrite !rsum_concat. unfold square, set_entry. rewrite !map_map.
  rewrite (map_set_nth (fun r => rsum (map (fun a => (a ^ 2)%R) r))).
  rewrite rsum_set_nth by now rewrite length_map.
  rewrite (nth_map_lt (fun r => rsum (map (fun a => (a ^ 2)%R) r)) [] 0%R)
    by exact Hi.
  rewrite (map_set_nth (fun a => (a ^ 2)%R)).
  rewrite rsum_set_nth by now rewrite length_map.
  rewrite (nth_map_lt (fun a => (a ^ 2)%R) 0%R 0%R) by exact Hj.
  unfold matrix, vector in *.
  generalize (rsum (map (fun r : list R => rsum (map (fun a => (a ^ 2)%R) r)) x)).
  generalize (rsum (map (fun a => (a ^ 2)%R) (nth i x []))).
  intros; ring.
Qed.

Lemma length_concat_set_nth (r' : vector) : forall (x : matrix) i,
  length r' = length (nth i x []) ->
  length (concat (set_nth i r' x)) = length (concat x).
Proof.
  induction x as [|r x IH]; intros [|i] H; cbn [set_nth nth concat] in *;
    rewrite ?length_app; try reflexivity.
  - now rewrite H.
  - now rewrite IH.
Qed.

Lemma numel_square_set_entry (x : matrix) i j t :
  length (concat (square (set_entry x i j t))) = length (concat x).
Proof.
  unfold square. rewrite <- concat_map, length_map. unfold set_entry.
  apply length_concat_set_nth. apply length_set_nth.
Qed.

Lemma numel_shape (x : matrix) r c :
  has_shape x r c = true -> length (concat x) = r * c.
Proof.
  intros H. apply has_shape_spec in H. destruct H as [<- Hc].
  induction Hc as [|u x Hu Hc IH]; [reflexivity|].
  cbn [concat length]. rewrite length_app, IH, Hu. lia.
Qed.

(** X17.  The autograd cells: for a tensor [x] of shape [[r, c]], the
    partial derivative of [z = (x**2).mean()] with respect to the entry
    [(i, j)] of [x] is [2 * x[i][j] / (r * c)]; for the 2-by-2 tensor of
    the notebook this is the entry [(i, j)] of [x / 2], which is why the
    cell prints the same tensor for [x.grad] and [x/2]. *)
Theorem gradient_of_mean_of_squares (x : matrix) (r c i j : nat) :
  has_shape x r c = true -> i < r -> j < c ->
  derivable_pt_lim (fun t => z_of (set_entry x i j t)) (entry (Mat x) i j)
    (2 * entry (Mat x) i j / INR (r * c))%R /\
  (r = 2 -> c = 2 ->
   derivable_pt_lim (fun t => z_of (set_entry x i j t)) (entry (Mat x) i j)
     (entry (Mat (halved x)) i j)).
Proof.
  intros Hs Hi Hj.
  assert (Hr : in_range (Mat x) i j = true).
  { cbn [in_range]. pose proof Hs as Hs'. apply has_shape_spec in Hs'.
    destruct Hs' as [Hl Hc]. apply andb_true_iff. split; apply Nat.ltb_lt; [lia|].
    rewrite Forall_forall in Hc. rewrite (Hc (nth i x [])); [exact Hj|].
    apply nth_In. lia. }
  assert (HN : (0 < INR (r * c))%R) by (apply lt_0_INR; nia).
  assert (Hz : forall t,
             z_of (set_entry x i j t)
             = ((rsum (concat (square x)) - entry (Mat x) i j ^ 2 + t ^ 2)
                / INR (r * c))%R).
  { intros t. unfold z_of, mean.
    rewrite sum_of_squares_set_entry by exact Hr.
    now rewrite numel_square_set_entry, (numel_shape x r c Hs). }
  assert (Hd : derivable_pt_lim (fun t => z_of (set_entry x i j t))
                 (entry (Mat x) i j) (2 * entry (Mat x) i j / INR (r * c))%R).
  { intros eps Heps.
    assert (Hdelta : (0 < eps * INR (r * c))%R) by now apply Rmult_lt_0_compat.
    exists (mkposreal _ Hdelta). cbn [pos]. intros h Hh0 Hh.
    rewrite !Hz.
    replace ((rsum (concat (square x)) - entry (Mat x) i j ^ 2
              + (entry (Mat x) i j + h) ^ 2) / INR (r * c)
             - (rsum (concat (square x)) - entry (Mat x) i j ^ 2
                + entry (Mat x) i j ^ 2) / INR (r * c))%R
      with (h * ((2 * entry (Mat x) i j + h) / INR (r * c)))%R by (field; lra).
    replace (h * ((2 * entry (Mat x) i j + h) / INR (r * c)) / h
             - 2 * entry (Mat x) i j / INR (r * c))%R
      with (h * / INR (r * c))%R by (field; lra).
    rewrite Rabs_mult.
    rewrite (Rabs_right (/ INR (r * c)))
      by (left; now apply Rinv_0_lt_compat).
    apply Rmult_lt_reg_r with (r := INR (r * c)); [exact HN|].
    rewrite Rmult_assoc, Rinv_l by lra. now rewrite Rmult_1_r. }
  split; [exact Hd|].
  intros -> ->.
  replace (entry (Mat (halved x)) i j) with (2 * entry (Mat x) i j / INR (2 * 2))%R;
    [exact Hd|].
  cbn [entry] in *. unfold halved.
  apply andb_true_iff in Hr. destruct Hr as [Hri Hrj].
  apply Nat.ltb_lt in Hri, Hrj.
  unfold matrix, vector in *.
  rewrite (nth_map_lt (map (fun a => (a / 2)%R)) [] [] x i Hri).
  rewrite (nth_map_lt (fun a => (a / 2)%R) 0%R 0%R _ j Hrj).
  change (INR (2 * 2)) with (INR 4). simpl. field.
Qed.

Lemma gradient_of_mean_of_squares_witness :
  derivable_pt_lim
    (fun t => z_of (set_entry [[1; 2]; [3; 4]]%R 1 0 t)) 3
    (entry (Mat (halved [[1; 2]; [3; 4]]%R)) 1 0).
Proof.
  exact (proj2 (gradient_of_mean_of_squares [[1; 2]; [3; 4]]%R 2 2 1 0
                  eq_refl ltac:(lia) ltac:(lia)) eq_refl eq_refl).
Defined.
